(** * limbo: a shallow embedding of the reasoner's containers, query
      normaliser, term store, literals and clauses.

    Part I holds the embedding, one module per source file.  Part II holds
    the properties proved about it, and Part III further properties of the
    same code.

    Conventions.  C [int] values are modelled as [Z]; signed overflow is
    undefined in C, so where the sizes and capacities of the containers
    are added or doubled, and where the binary searches add two indices,
    a result outside the 32-bit range is no result.  An index that has
    been compared with a size before it is incremented stays in range.
    The unsigned 8-, 32- and 64-bit words of the term and literal layer
    are [Z] with the wrap-around written out.  A function that may hit an
    [assert], read outside its buffer or loop is modelled as returning
    [option]. *)

From Stdlib Require Import ZArith List Bool Lia Arith Sorted.
Import ListNotations.
Local Open Scope Z_scope.

(** A small option monad for the fallible C code. *)
Definition obind {A B : Type} (o : option A) (k : A -> option B) : option B :=
  match o with
  | Some a => k a
  | None => None
  end.

Notation "x <- o ;; k" := (obind o (fun x => k))
  (at level 61, o at next level, right associativity).
Notation "' p <- o ;; k" := (obind o (fun x => let p := x in k))
  (at level 61, p pattern, o at next level, right associativity).

(** C [int]: a 32-bit signed value.  An arithmetic result outside its
    range is undefined behaviour, modelled as no result. *)
Definition INT_MAX : Z := 2 ^ 31 - 1.
Definition INT_MIN : Z := - 2 ^ 31.
Definition int (x : Z) : option Z :=
  if (INT_MIN <=? x) && (x <=? INT_MAX) then Some x else None.

(* ================================================================== *)
(** * Part I. The embedding                                            *)
(* ================================================================== *)

(** ** src/vector.c *)

Module Vector.

Definition INIT_SIZE : Z := 4.
Definition RESIZE_FACTOR : Z := 2.
Definition MIN (x y : Z) : Z := if x <? y then x else y.
Definition MAX (x y : Z) : Z := if x >? y then x else y.

Section Defs.
Context {A : Type}.

(** [array] lists the cells that hold elements, starting at the cell the
    C pointer [array] points to; cells past the last stored element (spare
    capacity) are not represented, so a read there yields [None]. *)
Record vector_t := mk_vector {
  array : list A;
  capacity : Z;
  size : Z
}.

Definition vector_init_with_size (sz : Z) : vector_t :=
  let sz := MAX sz INIT_SIZE in
  {| array := []; capacity := sz; size := 0 |}.

Definition vector_init : vector_t := vector_init_with_size INIT_SIZE.

Definition vector_copy_range (src : vector_t) (from to : Z) : vector_t :=
  let n_new_elems := to - from in
  {| array := firstn (Z.to_nat n_new_elems) (skipn (Z.to_nat from) (array src));
     capacity := MAX n_new_elems INIT_SIZE;
     size := n_new_elems |}.

Definition vector_copy (src : vector_t) : vector_t :=
  vector_copy_range src 0 (size src).

(** [src->array + sizeof(void * ) * from]: the array pointer has type
    [const void **], so the addition advances by [sizeof(void * ) * from]
    cells.  [sizeof_ptr] is the platform's [sizeof(void * )]. *)
Definition vector_sub (sizeof_ptr : Z) (src : vector_t) (from to : Z) : vector_t :=
  let n_new_elems := to - from in
  {| array := skipn (Z.to_nat (sizeof_ptr * from)) (array src);
     capacity := -1;
     size := n_new_elems |}.

Definition vector_get (vec : vector_t) (index : Z) : option A :=
  if (0 <=? index) && (index <? size vec)
  then nth_error (array vec) (Z.to_nat index)
  else None.

Definition vector_array (vec : vector_t) : list A := array vec.
Definition vector_size (vec : vector_t) : Z := size vec.

Definition vector_insert (vec : vector_t) (index : Z) (elem : A) : option vector_t :=
  if (0 <=? index) && (index <=? size vec) then
    sz <- int (size vec + 1) ;;
    cap <- (if sz >=? capacity vec
            then int (capacity vec * RESIZE_FACTOR)
            else Some (capacity vec)) ;;
    Some {| array := firstn (Z.to_nat index) (array vec) ++
                     elem :: skipn (Z.to_nat index) (array vec);
            capacity := cap;
            size := sz |}
  else None.

Definition vector_prepend (vec : vector_t) (elem : A) : option vector_t :=
  vector_insert vec 0 elem.

Definition vector_append (vec : vector_t) (elem : A) : option vector_t :=
  vector_insert vec (size vec) elem.

(** [while (vec->size + n_new_elems >= vec->capacity) capacity *= 2]. *)
Fixpoint grow_capacity (fuel : nat) (need cap : Z) : option Z :=
  if need >=? cap then
    match fuel with
    | O => None
    | S fuel' =>
      cap' <- int (cap * RESIZE_FACTOR) ;;
      grow_capacity fuel' need cap'
    end
  else Some cap.

Definition vector_insert_all_range (vec : vector_t) (index : Z)
    (elems : vector_t) (from to : Z) : option vector_t :=
  if (0 <=? index) && (index <=? size vec) then
    n_new_elems <- int (to - from) ;;
    need <- int (size vec + n_new_elems) ;;
    cap <- grow_capacity (S (Z.to_nat need)) need (capacity vec) ;;
    Some {| array := firstn (Z.to_nat index) (array vec) ++
                     firstn (Z.to_nat n_new_elems)
                            (skipn (Z.to_nat from) (array elems)) ++
                     skipn (Z.to_nat index) (array vec);
            capacity := cap;
            size := need |}
  else None.

Definition vector_append_all_range (vec elems : vector_t) (from to : Z)
    : option vector_t :=
  vector_insert_all_range vec (size vec) elems from to.

Definition vector_remove (vec : vector_t) (index : Z) : option (A * vector_t) :=
  if (0 <=? index) && (index <? size vec) then
    elem <- nth_error (array vec) (Z.to_nat index) ;;
    Some (elem,
          {| array := firstn (Z.to_nat index) (array vec) ++
                      skipn (S (Z.to_nat index)) (array vec);
             capacity := capacity vec;
             size := size vec - 1 |})
  else None.

Definition vector_clear (vec : vector_t) : vector_t :=
  {| array := []; capacity := capacity vec; size := 0 |}.

Definition vector_insert_all (vec : vector_t) (index : Z) (elems : vector_t)
    : option vector_t :=
  vector_insert_all_range vec index elems 0 (size elems).

Definition vector_prepend_all (vec elems : vector_t) : option vector_t :=
  vector_insert_all vec 0 elems.

Definition vector_append_all (vec elems : vector_t) : option vector_t :=
  vector_insert_all vec (size vec) elems.

Definition vector_prepend_all_range (vec elems : vector_t) (from to : Z)
    : option vector_t :=
  vector_insert_all_range vec 0 elems from to.

(** The [for] loop of [vector_cmp] with a comparator: the first comparison
    that is not 0 is returned at once; 0 stands for a loop that ran to its
    end.  The cells are read without an assertion. *)
Fixpoint vector_cmp_loop (compar : A -> A -> Z) (vec1 vec2 : vector_t)
    (k : nat) (i : Z) : option Z :=
  match k with
  | O => Some 0
  | S k' =>
    x <- nth_error (array vec1) (Z.to_nat i) ;;
    y <- nth_error (array vec2) (Z.to_nat i) ;;
    let cmp := compar x y in
    if negb (cmp =? 0) then Some cmp
    else vector_cmp_loop compar vec1 vec2 k' (i + 1)
  end.

(** [vector_cmp].  [same_object] says whether the two pointers are equal;
    [compar] is [None] for a null comparator, and then the C library's
    [memcmp] decides, here the parameter [memcmp] applied to the two
    buffers and the byte count [n] the code passes. *)
Definition vector_cmp (memcmp : list A -> list A -> Z -> Z)
    (same_object : bool) (vec1 vec2 : vector_t)
    (compar : option (A -> A -> Z)) : option Z :=
  if same_object then Some 0
  else
    let n := MIN (size vec1) (size vec2) in
    cmp <- match compar with
           | Some compar => vector_cmp_loop compar vec1 vec2 (Z.to_nat n) 0
           | None => Some (memcmp (array vec1) (array vec2) n)
           end ;;
    if negb (cmp =? 0) then Some cmp
    else Some (size vec1 - size vec2).

Definition vector_eq (memcmp : list A -> list A -> Z -> Z)
    (same_object : bool) (vec1 vec2 : vector_t)
    (compar : option (A -> A -> Z)) : option bool :=
  if size vec1 =? size vec2 then
    cmp <- vector_cmp memcmp same_object vec1 vec2 compar ;;
    Some (cmp =? 0)
  else Some false.

End Defs.

Arguments vector_t A : clear implicits.

End Vector.

(** ** src/set.c *)

Module CSet.
Import Vector.

Section Defs.
Context {A : Type}.

Definition compar_t := A -> A -> Z.

Record set_t := mk_set {
  vec : vector_t A;
  compar : compar_t
}.

Definition set_init (c : compar_t) : set_t :=
  {| vec := vector_init; compar := c |}.

Definition set_init_with_size (c : compar_t) (sz : Z) : set_t :=
  {| vec := vector_init_with_size sz; compar := c |}.

Definition set_copy (src : set_t) : set_t :=
  {| vec := vector_copy (vec src); compar := compar src |}.

Definition set_get (set : set_t) (index : Z) : option A :=
  vector_get (vec set) index.

Definition set_size (set : set_t) : Z := vector_size (vec set).

(** The loop of [search]; one unit of fuel per iteration. *)
Fixpoint search_loop (fuel : nat) (set : set_t) (obj : A) (lo hi : Z)
    : option Z :=
  if lo <=? hi then
    match fuel with
    | O => None
    | S fuel' =>
      sum <- int (lo + hi) ;;
      let i := Z.quot sum 2 in
      e <- vector_get (vec set) i ;;
      let cmp := compar set obj e in
      if cmp =? 0 then Some i
      else if cmp <? 0 then search_loop fuel' set obj lo (i - 1)
      else search_loop fuel' set obj (i + 1) hi
    end
  else Some (-1).

Definition search (set : set_t) (obj : A) : option Z :=
  search_loop (S (Z.to_nat (vector_size (vec set)))) set obj
              0 (vector_size (vec set) - 1).

(** The loop of [insert_pos]. *)
Fixpoint insert_pos_loop (fuel : nat) (set : set_t) (obj : A) (lo hi : Z)
    : option Z :=
  if lo <=? hi then
    match fuel with
    | O => None
    | S fuel' =>
      sum <- int (lo + hi) ;;
      let i := Z.quot sum 2 in
      e <- vector_get (vec set) i ;;
      let cmp := compar set obj e in
      if cmp =? 0 then Some (-1)
      else if cmp <=? 0 then
        if i =? 0 then Some i
        else
          e1 <- vector_get (vec set) (i - 1) ;;
          if negb (compar set obj e1 <=? 0) then Some i
          else insert_pos_loop fuel' set obj lo (i - 1)
      else insert_pos_loop fuel' set obj (i + 1) hi
    end
  else Some (vector_size (vec set)).

Definition insert_pos (set : set_t) (obj : A) : option Z :=
  insert_pos_loop (S (Z.to_nat (vector_size (vec set)))) set obj
                  0 (vector_size (vec set) - 1).

Definition set_find (set : set_t) (elem : A) : option Z := search set elem.

Definition set_contains (set : set_t) (elem : A) : option bool :=
  i <- set_find set elem ;; Some (negb (i =? -1)).

Definition set_add (set : set_t) (elem : A) : option (bool * set_t) :=
  i <- insert_pos set elem ;;
  if negb (i =? -1) then
    v <- vector_insert (vec set) i elem ;;
    Some (true, {| vec := v; compar := compar set |})
  else Some (false, set).

Definition set_singleton (c : compar_t) (elem : A) : option set_t :=
  let set := set_init_with_size c 1 in
  ' (_, set) <- set_add set elem ;;
  Some set.

Definition set_remove (set : set_t) (elem : A) : option (bool * set_t) :=
  i <- search set elem ;;
  if negb (i =? -1) then
    ' (_, v) <- vector_remove (vec set) i ;;
    Some (true, {| vec := v; compar := compar set |})
  else Some (false, set).

Definition set_remove_index (set : set_t) (index : Z) : option (A * set_t) :=
  elem <- vector_get (vec set) index ;;
  ' (_, v) <- vector_remove (vec set) index ;;
  Some (elem, {| vec := v; compar := compar set |}).

Definition set_clear (set : set_t) : set_t :=
  {| vec := vector_clear (vec set); compar := compar set |}.

(** The [while] loop of [set_union]; returns the result vector and the
    final values of [i] and [j]. *)
Fixpoint set_union_loop (fuel : nat) (l r : set_t) (v : vector_t A)
    (i j : Z) : option (vector_t A * Z * Z) :=
  if (i <? vector_size (vec l)) && (j <? vector_size (vec r)) then
    match fuel with
    | O => None
    | S fuel' =>
      li <- vector_get (vec l) i ;;
      rj <- vector_get (vec r) j ;;
      let cmp := compar l li rj in
      if cmp <? 0 then
        v' <- vector_append v li ;;
        set_union_loop fuel' l r v' (i + 1) j
      else if cmp >? 0 then
        v' <- vector_append v rj ;;
        set_union_loop fuel' l r v' i (j + 1)
      else
        v' <- vector_append v li ;;
        set_union_loop fuel' l r v' (i + 1) (j + 1)
    end
  else Some (v, i, j).

Definition set_union (l r : set_t) : option set_t :=
  n <- int (set_size l + set_size r) ;;
  let set := set_init_with_size (compar l) n in
  ' (v, i, j) <- set_union_loop
                   (Z.to_nat (vector_size (vec l) + vector_size (vec r)))
                   l r (vec set) 0 0 ;;
  v <- vector_append_all_range v (vec l) i (vector_size (vec l)) ;;
  v <- vector_append_all_range v (vec r) j (vector_size (vec r)) ;;
  Some {| vec := v; compar := compar set |}.

(** Outcome of the inner [while] of [set_difference]: [true] when it left
    through [goto skip]. *)
Fixpoint set_difference_inner (fuel : nat) (l r : set_t) (i j : Z)
    : option (bool * Z) :=
  if j <? vector_size (vec r) then
    match fuel with
    | O => None
    | S fuel' =>
      li <- vector_get (vec l) i ;;
      rj <- vector_get (vec r) j ;;
      let cmp := compar l li rj in
      if cmp <? 0 then Some (false, j)
      else if cmp >? 0 then set_difference_inner fuel' l r i (j + 1)
      else Some (true, j)
    end
  else Some (false, j).

Fixpoint set_difference_loop (fuel : nat) (l r : set_t) (v : vector_t A)
    (i j : Z) : option (vector_t A) :=
  if i <? vector_size (vec l) then
    match fuel with
    | O => None
    | S fuel' =>
      ' (skip, j') <- set_difference_inner
                        (Z.to_nat (vector_size (vec r) - j)) l r i j ;;
      if skip then set_difference_loop fuel' l r v (i + 1) j'
      else
        li <- vector_get (vec l) i ;;
        v' <- vector_append v li ;;
        set_difference_loop fuel' l r v' (i + 1) j'
    end
  else Some v.

Definition set_difference (l r : set_t) : option set_t :=
  let set := set_init_with_size (compar l) (set_size l) in
  v <- set_difference_loop (Z.to_nat (vector_size (vec l))) l r (vec set) 0 0 ;;
  Some {| vec := v; compar := compar set |}.

Fixpoint set_intersection_loop (fuel : nat) (l r : set_t) (v : vector_t A)
    (i j : Z) : option (vector_t A) :=
  if (i <? vector_size (vec l)) && (j <? vector_size (vec r)) then
    match fuel with
    | O => None
    | S fuel' =>
      li <- vector_get (vec l) i ;;
      rj <- vector_get (vec r) j ;;
      let cmp := compar l li rj in
      if cmp <? 0 then set_intersection_loop fuel' l r v (i + 1) j
      else if cmp >? 0 then set_intersection_loop fuel' l r v i (j + 1)
      else
        v' <- vector_append v li ;;
        set_intersection_loop fuel' l r v' (i + 1) (j + 1)
    end
  else Some v.

Definition set_intersection (l r : set_t) : option set_t :=
  let set := set_init_with_size (compar l) (MIN (set_size l) (set_size r)) in
  v <- set_intersection_loop
         (Z.to_nat (vector_size (vec l) + vector_size (vec r)))
         l r (vec set) 0 0 ;;
  Some {| vec := v; compar := compar set |}.

Definition set_cmp (memcmp : list A -> list A -> Z -> Z) (same_object : bool)
    (set1 set2 : set_t) : option Z :=
  vector_cmp memcmp same_object (vec set1) (vec set2) (Some (compar set1)).

Definition set_eq (memcmp : list A -> list A -> Z -> Z) (same_object : bool)
    (set1 set2 : set_t) : option bool :=
  vector_eq memcmp same_object (vec set1) (vec set2) (Some (compar set1)).

End Defs.

Arguments set_t A : clear implicits.
Arguments compar_t A : clear implicits.

End CSet.

(** A counted loop [for (int j = lo; j < hi; ++j) body], for bodies that
    change neither [j] nor the bound. *)
Fixpoint for_loop {S : Type} (n : nat) (j : Z) (body : Z -> S -> option S)
    (s : S) : option S :=
  match n with
  | O => Some s
  | S n' => s' <- body j s ;; for_loop n' (j + 1) body s'
  end.

Definition for_range {S : Type} (lo hi : Z) (body : Z -> S -> option S)
    (s : S) : option S :=
  for_loop (Z.to_nat (hi - lo)) lo body s.

(** ** The C layer's names, sequences and literals *)

Module CTypes.
Import Vector CSet.

Definition stdname_t := Z.
Definition var_t := Z.
Definition pred_t := Z.

(** Modelled from the spec: the typed wrappers that the missing headers
    generate with [VECTOR_DECL] and [SET_DECL] over vector.c and set.c
    ([stdvec_t]: action sequences, [stdset_t]: sets of names,
    [stdvecset_t]: sets of action sequences, [varset_t]: sets of variables). *)
Definition stdvec_t := vector_t stdname_t.
Definition stdset_t := set_t stdname_t.
Definition stdvecset_t := set_t stdvec_t.
Definition varset_t := set_t var_t.

Definition stdvec_init_with_size (n : Z) : stdvec_t := vector_init_with_size n.
Definition stdvec_size (z : stdvec_t) : Z := vector_size z.
Definition stdvec_sub (sizeof_ptr : Z) (z : stdvec_t) (from to : Z) : stdvec_t :=
  vector_sub sizeof_ptr z from to.
Definition stdvec_copy_append (z : stdvec_t) (n : stdname_t) : option stdvec_t :=
  vector_append (vector_copy z) n.
Definition stdvec_prepend_all (z z' : stdvec_t) : option stdvec_t :=
  vector_insert_all_range (vector_copy z') 0 z 0 (vector_size z).
Definition stdset_size (s : stdset_t) : Z := set_size s.
Definition stdset_get (s : stdset_t) (i : Z) : option stdname_t := set_get s i.
Definition stdvecset_size (s : stdvecset_t) : Z := set_size s.
Definition stdvecset_get (s : stdvecset_t) (i : Z) : option stdvec_t := set_get s i.
Definition varset_size (s : varset_t) : Z := set_size s.
Definition varset_get (s : varset_t) (i : Z) : option var_t := set_get s i.

(** Modelled from the spec: the C literal of the missing literal.c, an
    extended literal [[z](~)P(args)] built by
    [literal_init(z, sign, pred, args)]; [literal_flip] toggles the sign and
    [literal_prepend_all] puts an action sequence in front of the
    literal's own. *)
Record literal_t := mk_literal {
  z : stdvec_t;
  sign : bool;
  pred : pred_t;
  args : stdvec_t
}.

Definition literal_init (z : stdvec_t) (sign : bool) (p : pred_t)
    (args : stdvec_t) : literal_t :=
  {| z := z; sign := sign; pred := p; args := args |}.
Definition literal_z (l : literal_t) : stdvec_t := z l.
Definition literal_args (l : literal_t) : stdvec_t := args l.
Definition literal_flip (l : literal_t) : literal_t :=
  {| z := z l; sign := negb (sign l); pred := pred l; args := args l |}.
Definition literal_prepend_all (zz : stdvec_t) (l : literal_t) : option literal_t :=
  z' <- stdvec_prepend_all zz (z l) ;;
  Some {| z := z'; sign := sign l; pred := pred l; args := args l |}.

(** [SET_IMPL(clause, literal_t *, literal_cmp)] in clause.c. *)
Definition clause_t := set_t literal_t.

End CTypes.

(** ** src/clause.c *)

Module CClause.
Import Vector CSet CTypes.

Section Defs.
(** The comparator of the clause sets, [clause_cmp], belongs to the missing
    C header clause.h; grounding does not depend on which one it is. *)
Variable clause_cmp : compar_t clause_t.

(** Modelled from the spec: the declarations of the missing C header
    clause.h.  A setup is a set of clauses under the clause comparator; a
    variable map sends variables to names; a universal clause carries its
    variables and a function [univ_clause] that instantiates it under a
    variable map, returning [NULL] ([None]) when the map does not satisfy
    its condition. *)
Definition setup_t := set_t clause_t.
Definition setup_init : setup_t := set_init clause_cmp.
Definition setup_add (s : setup_t) (c : clause_t) : option (bool * setup_t) :=
  set_add s c.
Definition setup_size (s : setup_t) : Z := set_size s.

Definition varmap_t := list (var_t * stdname_t).
Definition varmap_init_with_size (n : Z) : varmap_t := [].
Definition varmap_add_replace (m : varmap_t) (x : var_t) (n : stdname_t)
    : varmap_t :=
  (x, n) :: filter (fun p => negb (fst p =? x)) m.

Record univ_clause_t := mk_univ_clause {
  vars : varset_t;
  univ_clause : varmap_t -> option clause_t
}.

Fixpoint generate_varmaps (fuel : nat) (setup : setup_t) (varmap : varmap_t)
    (uc : univ_clause_t) (zs : stdvecset_t) (ns : stdset_t) (i : Z)
    : option (setup_t * varmap_t) :=
  match fuel with
  | O => None
  | S fuel' =>
    if i <? varset_size (vars uc) then
      var <- varset_get (vars uc) i ;;
      for_range 0 (stdset_size ns)
        (fun j st =>
           n <- stdset_get ns j ;;
           let varmap := varmap_add_replace (snd st) var n in
           generate_varmaps fuel' (fst st) varmap uc zs ns (i + 1))
        (setup, varmap)
    else
      match univ_clause uc varmap with
      | Some c =>
        ' (_, setup') <- setup_add setup c ;;
        Some (setup', varmap)
      | None => Some (setup, varmap)
      end
  end.

Definition ground_clauses (sizeof_ptr : Z) (univ_clauses : list univ_clause_t)
    (zs : stdvecset_t) (ns : stdset_t) : option setup_t :=
  let box_clauses := setup_init in
  (* first ground the universal quantifiers *)
  box_clauses <-
    for_range 0 (Z.of_nat (length univ_clauses))
      (fun i box_clauses =>
         uc <- nth_error univ_clauses (Z.to_nat i) ;;
         let varmap := varmap_init_with_size (varset_size (vars uc)) in
         ' (box_clauses', _) <-
           generate_varmaps (S (Z.to_nat (varset_size (vars uc))))
                            box_clauses varmap uc zs ns 0 ;;
         Some box_clauses')
      box_clauses ;;
  (* now elements from zs *)
  let setup := setup_init in
  for_range 0 (setup_size box_clauses)
    (fun i setup =>
       for_range 0 (stdvecset_size zs)
         (fun j setup =>
            z <- stdvecset_get zs j ;;
            for_range 0 (stdvec_size z)
              (fun k setup =>
                 let z_prefix := stdvec_sub sizeof_ptr z 0 k in
                 Some setup)
              setup)
         setup)
    setup.

End Defs.

End CClause.

(** ** src/query.c *)

Module Query.
Import Vector CSet CTypes.

(** [struct query]: the tag [enum query_type] with the union member it
    selects.  The body of [EX] is the C function pointer
    [query_t *( *phi)(stdname_t x)]. *)
Inductive query : Type :=
| EQ (n1 n2 : stdname_t)
| NEQ (n1 n2 : stdname_t)
| LIT (lit : literal_t)
| OR (phi1 phi2 : query)
| AND (phi1 phi2 : query)
| NEG (phi : query)
| EX (phi : stdname_t -> query)
| ACT (n : stdname_t) (phi : query).

Fixpoint query_ground_quantifier (fuel : nat) (existential : bool)
    (phi : stdname_t -> query) (hplus : stdset_t) (i : Z) : option query :=
  match fuel with
  | O => None
  | S fuel' =>
    if (0 <=? i) && (i <=? stdset_size hplus) then
      n <- stdset_get hplus i ;;
      let psi1 := phi n in
      if i + 1 =? stdset_size hplus then Some psi1
      else
        psi2 <- query_ground_quantifier fuel' existential phi hplus (i + 1) ;;
        if existential then Some (OR psi1 psi2) else Some (AND psi1 psi2)
    else None
  end.

Fixpoint query_ennf_h (fuel : nat) (phi : query) (hplus : stdset_t)
    (flip : bool) (z : stdvec_t) : option query :=
  match fuel with
  | O => None
  | S fuel' =>
    match phi with
    | EQ n1 n2 =>
      if flip then Some (NEQ n1 n2) else Some phi
    | NEQ n1 n2 =>
      if flip then Some (NEQ n1 n2) else Some phi
    | LIT lit =>
      let lit := if flip then literal_flip lit else lit in
      lit <- (if stdvec_size z >? 0 then literal_prepend_all z lit
              else Some lit) ;;
      Some (LIT lit)
    | OR phi1 phi2 =>
      psi1 <- query_ennf_h fuel' phi1 hplus flip z ;;
      psi2 <- query_ennf_h fuel' phi2 hplus flip z ;;
      if flip then Some (AND psi1 psi2) else Some (OR psi1 psi2)
    | AND phi1 phi2 =>
      psi1 <- query_ennf_h fuel' phi1 hplus flip z ;;
      psi2 <- query_ennf_h fuel' phi2 hplus flip z ;;
      if flip then Some (OR psi1 psi2) else Some (AND psi1 psi2)
    | NEG phi' =>
      query_ennf_h fuel' phi' hplus (negb flip) z
    | EX f =>
      let is_existential := negb flip in
      psi <- query_ground_quantifier (S (Z.to_nat (stdset_size hplus)))
                                     is_existential f hplus 0 ;;
      query_ennf_h fuel' psi hplus flip z
    | ACT n phi' =>
      zz <- stdvec_copy_append z n ;;
      query_ennf_h fuel' phi' hplus flip zz
    end
  end.

Definition query_ennf (fuel : nat) (phi : query) (hplus : stdset_t)
    : option query :=
  let z := stdvec_init_with_size 0 in
  query_ennf_h fuel phi hplus false z.

(** [query_free] reads [phi->type] first, so it has no result ([None]) on a
    null pointer; on a tree it frees every node. *)
Fixpoint query_free (phi : query) : option unit :=
  match phi with
  | EQ _ _ | NEQ _ _ | LIT _ => Some tt
  | OR phi1 phi2 | AND phi1 phi2 =>
    _ <- query_free phi1 ;; _ <- query_free phi2 ;; Some tt
  | NEG phi' => _ <- query_free phi' ;; Some tt
  | EX _ => Some tt
  | ACT _ phi' => _ <- query_free phi' ;; Some tt
  end.

Definition query_free_ptr (phi : option query) : option unit :=
  match phi with
  | None => None
  | Some phi => query_free phi
  end.

(** [query_free] on a binary node whose two child pointers have been
    overwritten by the (possibly null) results of the recursive calls. *)
Definition query_free_binary (phi1 phi2 : option query) : option unit :=
  _ <- query_free_ptr phi1 ;; _ <- query_free_ptr phi2 ;; Some tt.

Definition is_null (phi : option query) : bool :=
  match phi with
  | None => true
  | Some _ => false
  end.

(** The pointer [truth_value] itself, used as a condition: it is the address
    of the caller's variable, never null. *)
Definition truth_value_ptr : bool := true.

(** [query_simplify (phi, truth_value)]: the result is the returned pointer
    ([None] for [NULL]) together with the value left in [*truth_value];
    the second argument is the value [*truth_value] holds on entry. *)
Fixpoint query_simplify (phi : query) (truth_value : bool)
    : option (option query * bool) :=
  match phi with
  | EQ n1 n2 => Some (None, n1 =? n2)
  | NEQ n1 n2 => Some (None, negb (n1 =? n2))
  | LIT _ => Some (Some phi, truth_value)
  | OR phi1 phi2 =>
    ' (phi1', truth_value) <- query_simplify phi1 truth_value ;;
    if is_null phi1' && truth_value_ptr then
      _ <- query_free_binary phi1' (Some phi2) ;; Some (None, truth_value)
    else
    ' (phi2', truth_value) <- query_simplify phi2 truth_value ;;
    if is_null phi2' && truth_value_ptr then
      _ <- query_free_binary phi1' phi2' ;; Some (None, truth_value)
    else
    match phi1', phi2' with
    | None, _ => Some (phi2', truth_value)
    | Some psi, None => Some (Some psi, truth_value)
    | Some psi1, Some psi2 => Some (Some (OR psi1 psi2), truth_value)
    end
  | AND phi1 phi2 =>
    ' (phi1', truth_value) <- query_simplify phi1 truth_value ;;
    if is_null phi1' && negb truth_value_ptr then
      _ <- query_free_binary phi1' (Some phi2) ;; Some (None, truth_value)
    else
    ' (phi2', truth_value) <- query_simplify phi2 truth_value ;;
    if is_null phi2' && negb truth_value_ptr then
      _ <- query_free_binary phi1' phi2' ;; Some (None, truth_value)
    else
    match phi1', phi2' with
    | None, _ => Some (phi2', truth_value)
    | Some psi, None => Some (Some psi, truth_value)
    | Some psi1, Some psi2 => Some (Some (AND psi1 psi2), truth_value)
    end
  | NEG phi' =>
    ' (psi, truth_value) <- query_simplify phi' truth_value ;;
    match psi with
    | None => Some (None, truth_value)
    | Some psi => Some (Some (NEG psi), truth_value)
    end
  | EX _ => None
  | ACT _ _ => None
  end.

(** [query_n_vars]; in the [EX] case the body is instantiated with the
    name 1 and its count returned. *)
Fixpoint query_n_vars (phi : query) : Z :=
  match phi with
  | EQ _ _ | NEQ _ _ | LIT _ => 0
  | OR phi1 phi2 => query_n_vars phi1 + query_n_vars phi2
  | AND phi1 phi2 => query_n_vars phi1 + query_n_vars phi2
  | NEG phi' => query_n_vars phi'
  | EX f => let psi := f 1 in query_n_vars psi
  | ACT _ phi' => query_n_vars phi'
  end.

(** The constructors of the interface. *)
Definition query_eq (n1 n2 : stdname_t) : query := EQ n1 n2.
Definition query_neq (n1 n2 : stdname_t) : query := NEQ n1 n2.
Definition query_lit (z : stdvec_t) (sign : bool) (p : pred_t)
    (args : stdvec_t) : query :=
  LIT (literal_init z sign p args).
Definition query_neg (phi : query) : query := NEG phi.
Definition query_or (phi1 phi2 : query) : query := OR phi1 phi2.
Definition query_and (phi1 phi2 : query) : query := AND phi1 phi2.
Definition query_exists (phi : stdname_t -> query) : query := EX phi.
Definition query_forall (phi : stdname_t -> query) : query :=
  query_neg (query_exists phi).
Definition query_act (n : stdname_t) (phi : query) : query := ACT n phi.

End Query.

(** ** Unsigned machine words of the C++ layer *)

Definition u8 (x : Z) : Z := x mod 2 ^ 8.
Definition u32 (x : Z) : Z := x mod 2 ^ 32.
Definition u64 (x : Z) : Z := x mod 2 ^ 64.

(** Short-circuit conjunction and disjunction over computations that may
    dereference a dangling term, and [std::all_of] in the same style. *)
Definition oand (x y : option bool) : option bool :=
  b <- x ;; if b then y else Some false.
Definition oor (x y : option bool) : option bool :=
  b <- x ;; if b then Some true else y.
Definition onot (x : option bool) : option bool :=
  b <- x ;; Some (negb b).

Fixpoint all_of {A : Type} (p : A -> option bool) (l : list A) : option bool :=
  match l with
  | [] => Some true
  | x :: l' => b <- p x ;; if b then all_of p l' else Some false
  end.

(** ** src/limbo/term.h *)

Module Symbol.

(** [Symbol::Sort]: an 8-bit id whose low bit says rigid. *)
Module Sort.
Definition t := Z.
Definition Nonrigid (id : Z) : t := u8 (2 * id).
Definition Rigid (id : Z) : t := u8 (2 * id + 1).
Definition eqb (s s' : t) : bool := s =? s'.
Definition id (s : t) : Z := s.
Definition rigid (s : t) : bool := s mod 2 =? 1.
End Sort.

Record t := mk {
  id_ : Z;
  sort_ : Sort.t;
  arity_ : Z
}.

(** [Symbol() = default]. *)
Definition null_symbol : t := mk 0 0 0.

(** [operator==] compares the ids only. *)
Definition eqb (s s' : t) : bool := id_ s =? id_ s'.
(** The assertion inside [operator==]:
    [id_ != s.id_ || (sort_ == s.sort_ && arity_ == s.arity_)]. *)
Definition eqb_assert (s s' : t) : bool :=
  negb (id_ s =? id_ s') ||
  (Sort.eqb (sort_ s) (sort_ s') && (arity_ s =? arity_ s')).

Definition name (s : t) : bool := Z.land (id_ s) 3 =? 0.
Definition variable (s : t) : bool := Z.land (id_ s) 3 =? 1.
Definition function (s : t) : bool := Z.land (id_ s) 3 =? 2.
Definition null (s : t) : bool := id_ s =? 0.
Definition id (s : t) : Z := Z.shiftr (id_ s) 2.
Definition sort (s : t) : Sort.t := sort_ s.
Definition arity (s : t) : Z := arity_ s.

(** The private constructor [Symbol(Id id, Sort sort, Arity arity)] with
    its assertion [!function() || !variable() || arity == 0]; its other
    two, [sort.id() >= 0] and [arity >= 0], compare unsigned values
    with 0. *)
Definition make (id : Z) (sort : Sort.t) (arity : Z) : option t :=
  let s := mk id sort arity in
  if negb (function s) || negb (variable s) || (arity =? 0)
  then Some s else None.

(** The static members of [Symbol::Factory].  The parameter [id] is a
    32-bit and [arity] an 8-bit unsigned value; each member starts with
    [assert(id > 0)], and [CreateFunction] also asserts
    [arity > 0 || !sort.rigid()]. *)
Definition CreateName (id : Z) (sort : Sort.t) : option t :=
  let id := u32 id in
  if id >? 0 then make (u32 (Z.lor (Z.shiftl id 2) 0)) sort 0 else None.
Definition CreateVariable (id : Z) (sort : Sort.t) : option t :=
  let id := u32 id in
  if id >? 0 then make (u32 (Z.lor (Z.shiftl id 2) 1)) sort 0 else None.
Definition CreateFunction (id : Z) (sort : Sort.t) (arity : Z) : option t :=
  let id := u32 id in
  let arity := u8 arity in
  if id >? 0 then
    if (arity >? 0) || negb (Sort.rigid sort)
    then make (u32 (Z.lor (Z.shiftl id 2) 2)) sort arity
    else None
  else None.

(** The symbol a call has returned; the null symbol stands for a call
    without a result. *)
Definition or_null (o : option t) : t :=
  match o with
  | Some s => s
  | None => null_symbol
  end.

End Symbol.

Module Term.

(** A [Term] is its 32-bit id. *)
Definition t := Z.
Definition Vector := list t.

Definition eqb (a b : t) : bool := a =? b.
Definition ltb (a b : t) : bool := a <? b.

Definition null (a : t) : bool := a =? 0.
Definition name (a : t) : bool := Z.land a 1 =? 1.

(** [Term::Data]. *)
Record Data := mk_Data {
  symbol_ : Symbol.t;
  args_ : Vector
}.

Definition Data_eqb (d d' : Data) : bool :=
  Symbol.eqb (symbol_ d) (symbol_ d') &&
  ((length (args_ d) =? length (args_ d'))%nat &&
   forallb (fun p => eqb (fst p) (snd p)) (combine (args_ d) (args_ d'))).

(** [Term::Factory].  [memory_] maps a sort to its table of interned data
    ([IntMap] yields an empty table for a sort not seen before); a table
    is searched with [DataPtrEquals]. *)
Record Factory := mk_Factory {
  memory_ : Symbol.Sort.t -> list (Data * Z);
  name_heap_ : list Data;
  variable_and_function_heap_ : list Data
}.

Definition empty_Factory : Factory :=
  {| memory_ := fun _ => []; name_heap_ := [];
     variable_and_function_heap_ := [] |}.

Definition get (f : Factory) (id : Z) : option Data :=
  if Z.land id 1 =? 1
  then nth_error (name_heap_ f) (Z.to_nat (u32 (Z.shiftr id 1 - 1)))
  else nth_error (variable_and_function_heap_ f)
                 (Z.to_nat (u32 (Z.shiftr id 1 - 1))).

Section Observers.
Variable f : Factory.

Definition symbol (a : t) : option Symbol.t :=
  d <- get f a ;; Some (symbol_ d).
Definition args (a : t) : option Vector :=
  d <- get f a ;; Some (args_ d).
Definition sort (a : t) : option Symbol.Sort.t :=
  s <- symbol a ;; Some (Symbol.sort s).
Definition arity (a : t) : option Z :=
  s <- symbol a ;; Some (Symbol.arity s).

Definition variable (a : t) : option bool :=
  s <- symbol a ;; Some (Symbol.variable s).
Definition function (a : t) : option bool :=
  s <- symbol a ;; Some (Symbol.function s).

Definition all_args (Prop_ : t -> option bool) (a : t) : option bool :=
  l <- args a ;; all_of Prop_ l.
Definition no_arg (Prop_ : t -> option bool) (a : t) : option bool :=
  l <- args a ;; all_of (fun x => onot (Prop_ x)) l.

Definition sort_rigid (a : t) : option bool :=
  s <- sort a ;; Some (Symbol.Sort.rigid s).

Definition primitive (a : t) : option bool :=
  oand (onot (sort_rigid a))
       (oand (function a) (all_args (fun x => Some (name x)) a)).
Definition quasi_name (a : t) : option bool :=
  oor (onot (function a))
      (oand (sort_rigid a) (no_arg function a)).
Definition quasi_primitive (a : t) : option bool :=
  oand (onot (sort_rigid a))
       (oand (function a) (all_args quasi_name a)).
End Observers.

Definition find (s : list (Data * Z)) (d : Data) : option (Data * Z) :=
  List.find (fun e => Data_eqb (fst e) d) s.

(** The two assertions at the head of [CreateTerm]. *)
Definition CreateTerm_assert (symbol : Symbol.t) (args : Vector) : bool :=
  (negb (Symbol.null symbol) && forallb (fun a => negb (null a)) args) &&
  (Symbol.arity symbol =? u8 (Z.of_nat (length args))).

(** The value of [const bool name] in [CreateTerm]. *)
Definition CreateTerm_name (f : Factory) (symbol : Symbol.t) (args : Vector)
    : option bool :=
  oor (Some (Symbol.name symbol))
      (oand (Some (Symbol.Sort.rigid (Symbol.sort symbol)))
      (oand (Some (Symbol.function symbol))
            (all_of (fun a => oand (Some (name a)) (onot (function f a)))
                    args))).

Definition CreateTerm (f : Factory) (symbol : Symbol.t) (args : Vector)
    : option (t * Factory) :=
  let d := mk_Data symbol args in
  let s := memory_ f (Symbol.sort symbol) in
  match find s d with
  | None =>
    name <- CreateTerm_name f symbol args ;;
    let name_heap := if name then name_heap_ f ++ [d] else name_heap_ f in
    let var_heap := if name then variable_and_function_heap_ f
                    else variable_and_function_heap_ f ++ [d] in
    let heap := if (name : bool) then name_heap else var_heap in
    let id := Z.lor (u32 (Z.shiftl (u32 (Z.of_nat (length heap))) 1))
                    (Z.b2z name) in
    Some (id,
          {| memory_ := fun srt =>
                          if Symbol.Sort.eqb srt (Symbol.sort symbol)
                          then s ++ [(d, id)] else memory_ f srt;
             name_heap_ := name_heap;
             variable_and_function_heap_ := var_heap |})
  | Some (_, id) => Some (id, f)
  end.

(** [Term::Substitution]: the vector [subs_] of pairs, searched from the
    front. *)
Definition Substitution := list (t * t).

Definition empty_Substitution : Substitution := [].

Fixpoint Substitution_apply (subs_ : Substitution) (a : t) : option t :=
  match subs_ with
  | [] => None
  | p :: subs' =>
    if eqb (fst p) a then Some (snd p) else Substitution_apply subs' a
  end.

Definition Substitution_Add (subs_ : Substitution) (old sub : t)
    : bool * Substitution :=
  match Substitution_apply subs_ old with
  | None => (true, subs_ ++ [(old, sub)])
  | Some bef => (eqb bef sub, subs_)
  end.

(** [Substitution(Term old, Term sub)]. *)
Definition Substitution_single (old sub : t) : Substitution :=
  snd (Substitution_Add empty_Substitution old sub).

End Term.

(** ** src/limbo/literal.h *)

Module Literal.

(** A [Literal] is its 64-bit word [data_]:
    bit 63 the sign, bits 32..62 the right-hand side, bits 0..31 the
    left-hand side. *)
Definition t := Z.

Definition null_literal : t := 0.

Definition lhs (a : t) : Term.t := u32 a.
Definition pos (a : t) : bool := Z.shiftr a 63 =? 1.
Definition rhs (a : t) : Term.t :=
  Z.land (u32 (Z.shiftr a 32)) (2 ^ 31 - 1).

Definition null (a : t) : bool := a =? 0.

(** The private constructor [Literal(bool pos, Term lhs, Term rhs)]; it
    consults the term factory to order the two sides. *)
Definition make (f : Term.Factory) (pos : bool) (lhs rhs : Term.t)
    : option t :=
  let '(lhs, rhs) := if negb (Term.ltb lhs rhs) then (rhs, lhs)
                     else (lhs, rhs) in
  swap <- oor (oand (onot (Term.function f lhs)) (Term.function f rhs))
              (Term.quasi_primitive f rhs) ;;
  let '(lhs, rhs) := if (swap : bool) then (rhs, lhs) else (lhs, rhs) in
  Some (Z.lor (Z.lor (u64 lhs) (u64 (Z.shiftl (Z.b2z pos) 63)))
              (u64 (Z.shiftl (u64 rhs) 32))).

Definition Eq (f : Term.Factory) (lhs rhs : Term.t) : option t :=
  make f true lhs rhs.
Definition Neq (f : Term.Factory) (lhs rhs : Term.t) : option t :=
  make f false lhs rhs.

Definition primitive (f : Term.Factory) (a : t) : option bool :=
  oand (Term.primitive f (lhs a)) (Some (Term.name (rhs a))).

Definition flip (f : Term.Factory) (a : t) : option t :=
  make f (negb (pos a)) (lhs a) (rhs a).
Definition dual (f : Term.Factory) (a : t) : option t :=
  make f (pos a) (rhs a) (lhs a).

Definition eqb (a b : t) : bool :=
  Bool.eqb (pos a) (pos b) && Term.eqb (lhs a) (lhs b) &&
  Term.eqb (rhs a) (rhs b).

Definition Valid (a b : t) : bool :=
  (Term.eqb (lhs a) (lhs b) && negb (Bool.eqb (pos a) (pos b)) &&
   Term.eqb (rhs a) (rhs b)) ||
  (Term.eqb (lhs a) (lhs b) && negb (pos a) && negb (pos b) &&
   Term.name (rhs a) && Term.name (rhs b) &&
   negb (Term.eqb (rhs a) (rhs b))).

Definition Complementary (a b : t) : bool :=
  (Term.eqb (lhs a) (lhs b) && negb (Bool.eqb (pos a) (pos b)) &&
   Term.eqb (rhs a) (rhs b)) ||
  (Term.eqb (lhs a) (lhs b) && pos a && pos b &&
   Term.name (rhs a) && Term.name (rhs b) &&
   negb (Term.eqb (rhs a) (rhs b))).

Definition ProperlySubsumes (a b : t) : bool :=
  Term.eqb (lhs a) (lhs b) && pos a && negb (pos b) &&
  Term.name (rhs a) && Term.name (rhs b) &&
  negb (Term.eqb (rhs a) (rhs b)).

Definition Subsumes (a b : t) : bool := eqb a b || ProperlySubsumes a b.

End Literal.

(** ** src/limbo/literal.h, the remaining observers *)

Module LiteralObservers.
Import Literal.

(** [Literal(Term lhs)], the constructor behind [Min]. *)
Definition Min (lhs : Term.t) : Literal.t := u64 lhs.

(** [operator<]. *)
Definition ltb (a b : Literal.t) : bool :=
  Term.ltb (lhs a) (lhs b) || (Term.eqb (lhs a) (lhs b) && (a <? b)).

Definition trivial (a : Literal.t) : bool :=
  Term.name (lhs a) && Term.name (rhs a).

Definition quasi_trivial (f : Term.Factory) (a : Literal.t) : option bool :=
  oand (Term.quasi_name f (lhs a)) (Term.quasi_name f (rhs a)).

Definition quasi_primitive (f : Term.Factory) (a : Literal.t) : option bool :=
  oand (Term.quasi_primitive f (lhs a)) (Term.quasi_name f (rhs a)).

Definition well_formed (f : Term.Factory) (a : Literal.t) : option bool :=
  oor (quasi_trivial f a) (quasi_primitive f a).

(** [lhs().sort() != rhs().sort()]. *)
Definition sorts_differ (f : Term.Factory) (a : Literal.t) : option bool :=
  s1 <- Term.sort f (lhs a) ;;
  s2 <- Term.sort f (rhs a) ;;
  Some (negb (Symbol.Sort.eqb s1 s2)).

Definition valid (f : Term.Factory) (a : Literal.t) : option bool :=
  oor (Some (pos a && Term.eqb (lhs a) (rhs a)))
      (oor (Some (negb (pos a) && Term.name (lhs a) && Term.name (rhs a) &&
                  negb (Term.eqb (lhs a) (rhs a))))
           (oand (Some (negb (pos a))) (sorts_differ f a))).

Definition unsatisfiable (f : Term.Factory) (a : Literal.t) : option bool :=
  oor (Some (negb (pos a) && Term.eqb (lhs a) (rhs a)))
      (oor (Some (pos a && Term.name (lhs a) && Term.name (rhs a) &&
                  negb (Term.eqb (lhs a) (rhs a))))
           (oand (Some (pos a)) (sorts_differ f a))).

End LiteralObservers.

(** ** src/limbo/clause.h *)

Module Clause.

(** Modelled from the spec: clause.h takes its literal type [Lit] from
    limbo/lit.h, which is not among the sources.  The relations it uses
    ([Valid], [Subsumes], [ProperlySubsumes], [null] and the null default)
    are the ones the specification gives for literals, and they are the
    ones of the [Literal] of limbo/literal.h, which stands for [Lit]
    here. *)
Definition Lit := Literal.t.

(** A clause: the header's [size] and the literal array [as_]. *)
Definition t := list Lit.

Definition size (c : t) : Z := Z.of_nat (length c).
Definition empty (c : t) : bool := size c =? 0.
Definition unit (c : t) : bool := size c =? 1.
Definition valid (c : t) : bool :=
  unit c && match c with a :: _ => Literal.null a | [] => false end.
Definition unsat (c : t) : bool := empty c.

(** Array accesses of [Normalize]; the indices stay inside the array. *)
Definition get (as_ : list Lit) (i : nat) : Lit :=
  nth i as_ Literal.null_literal.
Fixpoint set (as_ : list Lit) (i : nat) (a : Lit) : list Lit :=
  match as_, i with
  | [], _ => []
  | _ :: r, O => a :: r
  | x :: r, S i' => x :: set r i' a
  end.

(** What an iteration of the outer loop of [Normalize] decides. *)
Inductive verdict := RetValid | Skip | Keep.

(** First inner loop: [for (j = 0; j < i1; ++j)], [n] iterations left. *)
Fixpoint Normalize_first (guarantee_invalid : bool) (as_ : list Lit)
    (i2 : nat) (n : nat) (j : nat) : verdict :=
  match n with
  | O => Keep
  | S n' =>
    if negb guarantee_invalid && Literal.Valid (get as_ i2) (get as_ j)
    then RetValid
    else if Literal.Subsumes (get as_ i2) (get as_ j) then Skip
    else Normalize_first guarantee_invalid as_ i2 n' (S j)
  end.

(** Second inner loop: [for (j = i2 + 1; j < size; ++j)]. *)
Fixpoint Normalize_second (as_ : list Lit) (i2 : nat) (n : nat) (j : nat)
    : verdict :=
  match n with
  | O => Keep
  | S n' =>
    if Literal.ProperlySubsumes (get as_ i2) (get as_ j) then Skip
    else Normalize_second as_ i2 n' (S j)
  end.

(** Outer loop [while (i2 < size)], [n = size - i2] iterations left.
    Returns the array and the function's result. *)
Fixpoint Normalize_loop (guarantee_invalid : bool) (sz : nat)
    (as_ : list Lit) (i1 i2 : nat) (n : nat) : list Lit * Z :=
  match n with
  | O => (as_, Z.of_nat i1)
  | S n' =>
    match Normalize_first guarantee_invalid as_ i2 i1 0 with
    | RetValid => (set as_ 0 Literal.null_literal, -1)
    | Skip => Normalize_loop guarantee_invalid sz as_ i1 (S i2) n'
    | Keep =>
      match Normalize_second as_ i2 (sz - (i2 + 1)) (i2 + 1) with
      | Skip => Normalize_loop guarantee_invalid sz as_ i1 (S i2) n'
      | _ =>
        Normalize_loop guarantee_invalid sz (set as_ i1 (get as_ i2))
                       (S i1) (S i2) n'
      end
    end
  end.

Definition Normalize (guarantee_invalid : bool) (sz : nat) (as_ : list Lit)
    : list Lit * Z :=
  Normalize_loop guarantee_invalid sz as_ 0 0 sz.

(** [Clause(int size, const Lit* first, bool guaranteed_normalized)]. *)
Definition make (first : list Lit) (guaranteed_normalized : bool) : t :=
  let h_size := length first in
  let as_ := first in
  if negb guaranteed_normalized then
    let '(as_, sz) := Normalize false h_size as_ in
    let h_size := if sz >=? 0 then Z.to_nat sz else 1%nat in
    firstn h_size as_
  else firstn h_size as_.

(** [Clause(const Lit a)]. *)
Definition make_unit (a : Lit) : t := [a].

(** [Clause::Factory::New], up to the placement of the clause in the
    memory pool. *)
Definition New_unit (a : Lit) : t := make_unit a.
Definition New (as_ : list Lit) (guaranteed_normalized : bool) : t :=
  make as_ guaranteed_normalized.

(** [operator==]: the inner loop leaves through [goto next] on a match
    and falls through to the same label otherwise. *)
Fixpoint eq_inner (a : Lit) (c : list Lit) : bool :=
  match c with
  | [] => false
  | b :: c' => if Literal.eqb a b then true else eq_inner a c'
  end.

Fixpoint eq_outer (this c : list Lit) : bool :=
  match this with
  | [] => true
  | a :: this' =>
    if eq_inner a c then eq_outer this' c   (* goto next *)
    else eq_outer this' c                   (* next: {} *)
  end.

Definition eqb (this c : t) : bool :=
  if negb (size this =? size c) then false
  else eq_outer this c.

(** [Subsumes]: here a literal without a match returns [false]. *)
Fixpoint Subsumes_inner (a : Lit) (c : list Lit) : bool :=
  match c with
  | [] => false
  | b :: c' => if Literal.Subsumes a b then true else Subsumes_inner a c'
  end.

Fixpoint Subsumes (this c : t) : bool :=
  match this with
  | [] => true
  | a :: this' =>
    if Subsumes_inner a c then Subsumes this' c else false
  end.

(** The debug check [Normalized()]. *)
Definition Normalized (c : t) : bool :=
  forallb (fun i =>
    forallb (fun j =>
      (i =? j)%nat ||
      (negb (Literal.Valid (get c i) (get c j)) &&
       negb (Literal.Subsumes (get c i) (get c j))))
      (seq 0 (length c)))
    (seq 0 (length c)).

(** The loop of [RemoveIf], [n = size - i2] iterations left; returns the
    array with the final [i1] and [i2]. *)
Fixpoint RemoveIf_loop (p : Lit -> bool) (as_ : list Lit) (i1 i2 : nat)
    (n : nat) : list Lit * nat * nat :=
  match n with
  | O => (as_, i1, i2)
  | S n' =>
    if p (get as_ i2) then RemoveIf_loop p as_ i1 (S i2) n'
    else RemoveIf_loop p (set as_ i1 (get as_ i2)) (S i1) (S i2) n'
  end.

(** [RemoveIf]: the clause it leaves and the number it returns. *)
Definition RemoveIf (p : Lit -> bool) (c : t) : t * Z :=
  let '(as_, i1, i2) := RemoveIf_loop p c 0 0 (length c) in
  (firstn i1 as_, Z.of_nat i2 - Z.of_nat i1).

(** [Clause::Factory::MemoryPool]: the bookkeeping of the arena, its
    capacity and its high-water mark [size_], both 32-bit; the words of the
    arena themselves are not represented. *)
Record MemoryPool := mk_pool {
  capacity_ : Z;
  size_ : Z
}.

(** The [while] loop of [Capacitate]. *)
Fixpoint Capacitate_loop (fuel : nat) (n capacity : Z) : option Z :=
  if n >? capacity then
    match fuel with
    | O => None
    | S fuel' =>
      Capacitate_loop fuel' n
        (u32 (capacity +
              Z.land (u32 (u32 (capacity / 2 + capacity / 8) + 2))
                     (u32 (Z.lnot 1))))
    end
  else Some capacity.

Definition Capacitate (fuel : nat) (pool : MemoryPool) (n : Z)
    : option MemoryPool :=
  if n >? capacity_ pool then
    c <- Capacitate_loop fuel n (capacity_ pool) ;;
    Some {| capacity_ := c; size_ := size_ pool |}
  else Some pool.

(** [MemoryPool(size_t n = 1024 * 1024)]. *)
Definition MemoryPool_init (fuel : nat) (n : Z) : option MemoryPool :=
  Capacitate fuel {| capacity_ := 0; size_ := 1 |} n.

Definition Allocate (fuel : nat) (pool : MemoryPool) (n : Z)
    : option (Z * MemoryPool) :=
  let r := size_ pool in
  let pool := {| capacity_ := capacity_ pool; size_ := u32 (size_ pool + n) |} in
  pool <- Capacitate fuel pool (size_ pool) ;;
  Some (r, pool).

Definition Free (pool : MemoryPool) (r k : Z) : MemoryPool :=
  if u32 (r + k) =? size_ pool
  then {| capacity_ := capacity_ pool; size_ := r |}
  else pool.

End Clause.

(** ** src/formula.h *)

Module Formula.

Section Defs.
(** The clauses and the variable terms that the elements carry. *)
Context {Cl Var : Type}.

(** [Formula::Element]: the tag with the payload it has. *)
Inductive Element : Type :=
| kClause (c : Cl)
| kNot
| kOr
| kExists (x : Var).

(** A [Formula] is the list [es_], the formula in Polish notation. *)
Definition t := list Element.

Definition Atomic (op : Element) : t := [op].
Definition Unary (op : Element) (s : t) : t := op :: s.
Definition Binary (op : Element) (s r : t) : t := op :: (s ++ r).

Definition Clause (c : Cl) : t := Atomic (kClause c).
Definition Not (phi : t) : t := Unary kNot phi.
Definition Or (phi psi : t) : t := Binary kOr phi psi.
Definition Exists (x : Var) (phi : t) : t := Unary (kExists x) phi.

(** A [Reader]: the two iterators, each the rest of the list from its
    position on. *)
Record Reader := mk_Reader {
  begin_ : list Element;
  end_ : list Element
}.

(** The loop of the constructor [Reader(Iter begin)]: [n] elements are
    still to be read; reading past the end of the list has no result. *)
Fixpoint Reader_scan (end_ : list Element) (n : nat)
    : option (list Element) :=
  match n with
  | O => Some end_
  | S n' =>
    match end_ with
    | [] => None
    | e :: rest =>
      match e with
      | kClause _ => Reader_scan rest (n' + 0)
      | kNot => Reader_scan rest (n' + 1)
      | kOr => Reader_scan rest (n' + 2)
      | kExists _ => Reader_scan rest (n' + 1)
      end
    end
  end.

Definition Reader_make (begin : list Element) : option Reader :=
  e <- Reader_scan begin 1 ;;
  Some {| begin_ := begin; end_ := e |}.

Definition reader (phi : t) : option Reader := Reader_make phi.

Definition head (r : Reader) : option Element := List.hd_error (begin_ r).

(** [std::next(begin())]. *)
Definition next (l : list Element) : option (list Element) :=
  match l with
  | [] => None
  | _ :: rest => Some rest
  end.

Definition arg (r : Reader) : option Reader :=
  h <- head r ;;
  match h with
  | kNot | kExists _ => b <- next (begin_ r) ;; Reader_make b
  | _ => None
  end.

Definition left (r : Reader) : option Reader :=
  h <- head r ;;
  match h with
  | kOr => b <- next (begin_ r) ;; Reader_make b
  | _ => None
  end.

Definition right (r : Reader) : option Reader :=
  h <- head r ;;
  match h with
  | kOr => l <- left r ;; Reader_make (end_ l)
  | _ => None
  end.

(** [Build()]: the elements from [begin] up to [end]. *)
Definition Build (r : Reader) : t :=
  firstn (length (begin_ r) - length (end_ r)) (begin_ r).

End Defs.

Arguments Element Cl Var : clear implicits.
Arguments t Cl Var : clear implicits.
Arguments Reader Cl Var : clear implicits.

End Formula.

(* ================================================================== *)
(** * Part II. Properties                                              *)
(* ================================================================== *)

(** ** vector.c: views *)

Module VectorFacts.
Import Vector.

(** What a read through a view returns: the cell [sizeof_ptr * from + i]
    of the source, not the cell [from + i]. *)
Lemma vector_get_sub {A : Type} (w : Z) (v : vector_t A) (from to i : Z) :
  0 <= w * from -> 0 <= i < to - from ->
  vector_get (vector_sub w v from to) i =
  nth_error (array v) (Z.to_nat (w * from + i)).
Proof.
  intros Hw Hi. unfold vector_get, vector_sub. simpl.
  replace ((0 <=? i) && (i <? to - from)) with true
    by (symmetry; apply andb_true_iff; split; [apply Z.leb_le | apply Z.ltb_lt]; lia).
  rewrite nth_error_skipn. f_equal. lia.
Qed.

(** On an LP64 platform the view and the copy of the same range disagree. *)
Definition sixteen : vector_t Z :=
  {| array := map Z.of_nat (seq 10 16); capacity := 32; size := 16 |}.

(** C10 (the code at the failing input).  With [sizeof(void * ) = 8], the
    view [vector_sub(v, 1, 3)] of a 16-element vector has size 2, but its
    element 0 is element 8 of [v], while element [from + 0 = 1] of [v] is a
    different value; [vector_copy_range] on the same range does return
    element 1. *)
Theorem vector_sub_scales_offset_twice :
  vector_size (vector_sub 8 sixteen 1 3) = 2 /\
  vector_get (vector_sub 8 sixteen 1 3) 0 = vector_get sixteen 8 /\
  vector_get (vector_sub 8 sixteen 1 3) 0 = Some 18 /\
  vector_get sixteen (1 + 0) = Some 11 /\
  vector_get (vector_copy_range sixteen 1 3) 0 = Some 11.
Proof. repeat split; reflexivity. Qed.

End VectorFacts.

(** ** query.c: ENNF and simplification *)

Module QueryFacts.
Import Vector CSet CTypes Query.

(** Under [flip], the [NEQ] case stores the tag [NEQ] again. *)
Lemma query_ennf_h_NEQ_flip (fuel : nat) (hplus : stdset_t) (z : stdvec_t)
    (n1 n2 : stdname_t) :
  query_ennf_h (S fuel) (NEQ n1 n2) hplus true z = Some (NEQ n1 n2).
Proof. reflexivity. Qed.

Lemma query_ennf_h_EQ_flip (fuel : nat) (hplus : stdset_t) (z : stdvec_t)
    (n1 n2 : stdname_t) :
  query_ennf_h (S fuel) (EQ n1 n2) hplus true z = Some (NEQ n1 n2).
Proof. reflexivity. Qed.

(** C4 (the code at the failing input).  The ENNF of a negated name
    inequality [~ (n1 <> n2)] is the inequality [n1 <> n2] itself, not the
    equality [n1 = n2]; a negated equality does become the inequality. *)
Theorem query_ennf_negated_NEQ_stays_NEQ :
  forall (fuel : nat) (hplus : stdset_t) (n1 n2 : stdname_t),
    query_ennf (S (S fuel)) (NEG (NEQ n1 n2)) hplus = Some (NEQ n1 n2) /\
    query_ennf (S (S fuel)) (NEG (NEQ n1 n2)) hplus <> Some (EQ n1 n2) /\
    query_ennf (S (S fuel)) (NEG (EQ n1 n2)) hplus = Some (NEQ n1 n2).
Proof.
  intros fuel hplus n1 n2. repeat split; try reflexivity.
  unfold query_ennf. simpl. discriminate.
Qed.

(** A conjunction never takes the early exit, and returns the second
    result when the first is a constant. *)
Lemma query_simplify_AND_const_l (phi1 phi2 : query) (tv tv1 : bool) :
  query_simplify phi1 tv = Some (None, tv1) ->
  query_simplify (AND phi1 phi2) tv = query_simplify phi2 tv1.
Proof.
  intros H. simpl. rewrite H. simpl.
  destruct (query_simplify phi2 tv1) as [[[psi|] tv2]|]; reflexivity.
Qed.

(** A disjunction with a constant disjunct frees a null child. *)
Lemma query_simplify_OR_const_l (phi1 phi2 : query) (tv tv1 : bool) :
  query_simplify phi1 tv = Some (None, tv1) ->
  query_simplify (OR phi1 phi2) tv = None.
Proof. intros H. simpl. rewrite H. reflexivity. Qed.

Definition some_lit : literal_t :=
  literal_init (stdvec_init_with_size 0) true 1 (stdvec_init_with_size 0).

(** C3 (the code at the failing inputs).  The conjunction
    [(1 = 2) /\ (1 = 1)] simplifies to the constant true: the result is
    [NULL] with [*truth_value] set by the last conjunct.  The disjunction
    [(1 = 2) \/ L] is not simplified to [L]: the pointer [truth_value]
    stands where its target was meant, and the null first child is handed
    to [query_free]. *)
Theorem query_simplify_misfolds_constants :
  forall tv : bool,
    query_simplify (AND (EQ 1 2) (EQ 1 1)) tv = Some (None, true) /\
    query_simplify (OR (EQ 1 2) (LIT some_lit)) tv = None /\
    query_simplify (OR (EQ 1 2) (LIT some_lit)) tv
      <> Some (Some (LIT some_lit), tv).
Proof. intros tv. repeat split; try reflexivity. simpl. discriminate. Qed.

End QueryFacts.

(** ** clause.c: grounding *)

Module CClauseFacts.
Import Vector CSet CTypes CClause.

Lemma for_loop_preserves {S : Type} (P : S -> Prop)
    (body : Z -> S -> option S) :
  (forall j s s', P s -> body j s = Some s' -> P s') ->
  forall n j s s', P s -> for_loop n j body s = Some s' -> P s'.
Proof.
  intros Hbody n. induction n as [|n IH]; intros j s s' Hs H; simpl in H.
  - injection H as <-. exact Hs.
  - destruct (body j s) as [s1|] eqn:E; simpl in H; [|discriminate].
    eapply IH; [|exact H]. eapply Hbody; eauto.
Qed.

Lemma for_range_preserves {S : Type} (P : S -> Prop)
    (body : Z -> S -> option S) (lo hi : Z) (s s' : S) :
  (forall j s s', P s -> body j s = Some s' -> P s') ->
  P s -> for_range lo hi body s = Some s' -> P s'.
Proof. intros Hbody. unfold for_range. apply for_loop_preserves, Hbody. Qed.

(** Whatever the universal clauses, the action sequences and the names,
    the setup that [ground_clauses] returns is the one [setup_init] made:
    the loops over [zs] add nothing to it. *)
Lemma ground_clauses_returns_setup_init (clause_cmp : compar_t clause_t)
    (w : Z) (ucs : list univ_clause_t) (zs : stdvecset_t) (ns : stdset_t)
    (s : setup_t) :
  ground_clauses clause_cmp w ucs zs ns = Some s ->
  s = setup_init clause_cmp.
Proof.
  unfold ground_clauses. intros H.
  match type of H with
  | obind ?o _ = _ => destruct o as [bc|]; simpl in H; [|discriminate]
  end.
  revert H.
  apply for_range_preserves with (P := fun t => t = setup_init clause_cmp);
    [|reflexivity].
  intros i t t' Ht.
  apply for_range_preserves with (P := fun t => t = setup_init clause_cmp);
    [|exact Ht].
  intros j u u' Hu Hb.
  destruct (stdvecset_get zs j) as [zj|]; simpl in Hb; [|discriminate].
  revert Hb.
  apply for_range_preserves with (P := fun t => t = setup_init clause_cmp);
    [|exact Hu].
  intros k x x' Hx Hk. injection Hk as <-. exact Hx.
Qed.

(** A boxed clause [forall x. P(x)] whose condition every assignment
    satisfies, the name universe [{7}], and the set of action sequences
    [{<>, <5>}] of a query. *)
Definition cmp_names : compar_t stdname_t := fun a b => a - b.
Definition cmp_seqs : compar_t stdvec_t :=
  fun a b => vector_size a - vector_size b.
Definition cmp_literals : compar_t literal_t := fun a b => pred a - pred b.
Definition cmp_clauses : compar_t clause_t :=
  fun c d => set_size c - set_size d.

Definition seq_empty : stdvec_t := stdvec_init_with_size 0.
Definition seq_5 : stdvec_t := {| array := [5]; capacity := 4; size := 1 |}.
Definition ex_zs : stdvecset_t :=
  {| vec := {| array := [seq_empty; seq_5]; capacity := 4; size := 2 |};
     compar := cmp_seqs |}.
Definition ex_ns : stdset_t :=
  {| vec := {| array := [7]; capacity := 4; size := 1 |};
     compar := cmp_names |}.
Definition ex_vars : varset_t :=
  {| vec := {| array := [-1]; capacity := 4; size := 1 |};
     compar := cmp_names |}.
Definition ex_instance (m : varmap_t) : clause_t :=
  {| vec := {| array := [literal_init seq_empty true 1
                           {| array := map snd m; capacity := 4;
                              size := Z.of_nat (length m) |}];
               capacity := 4; size := 1 |};
     compar := cmp_literals |}.
Definition ex_univ_clause : univ_clause_t :=
  {| vars := ex_vars; univ_clause := fun m => Some (ex_instance m) |}.

(** The grounding of the quantifiers does produce the instance [P(7)]. *)
Lemma generate_varmaps_example :
  option_map (fun r => set_size (fst r))
    (generate_varmaps 2 (setup_init cmp_clauses)
       (varmap_init_with_size 1) ex_univ_clause ex_zs ex_ns 0) = Some 1.
Proof. reflexivity. Qed.

(** C1 (the code at the failing input).  One boxed clause with a
    satisfying assignment and a non-empty [Z], and still the returned setup
    is empty. *)
Theorem ground_clauses_example_is_empty :
  stdvecset_size ex_zs = 2 /\
  univ_clause ex_univ_clause [(-1, 7)] <> None /\
  option_map setup_size
    (ground_clauses cmp_clauses 8 [ex_univ_clause] ex_zs ex_ns) = Some 0 /\
  option_map (fun s => array (vec s))
    (ground_clauses cmp_clauses 8 [ex_univ_clause] ex_zs ex_ns) = Some [].
Proof. repeat split; try reflexivity. discriminate. Qed.

End CClauseFacts.

(** ** term.h: the term store *)

Module TermFacts.
Import Term.

(** *** Word arithmetic of the id encoding *)

Lemma lor_double_b2z (k : Z) (b : bool) :
  0 <= k -> Z.lor (2 * k) (Z.b2z b) = 2 * k + Z.b2z b.
Proof.
  intros Hk. destruct b; cbn [Z.b2z].
  - destruct k; try reflexivity. lia.
  - rewrite Z.lor_0_r. lia.
Qed.

Lemma land_1_mod (x : Z) : Z.land x 1 = x mod 2.
Proof. change 1 with (Z.ones 1). rewrite Z.land_ones by lia. reflexivity. Qed.

Lemma shiftr_1_div (x : Z) : Z.shiftr x 1 = x / 2.
Proof. rewrite Z.shiftr_div_pow2 by lia. reflexivity. Qed.

Lemma name_odd (a : t) : name a = Z.odd a.
Proof.
  unfold name. rewrite land_1_mod, Zmod_odd.
  destruct (Z.odd a); reflexivity.
Qed.

(** The id given to the [n]-th entry ([n] counted from 1) of a heap. *)
Definition new_id (n : Z) (nm : bool) : Z :=
  Z.lor (u32 (Z.shiftl (u32 n) 1)) (Z.b2z nm).

Lemma new_id_val (n : Z) (nm : bool) :
  0 <= n < 2 ^ 31 -> new_id n nm = 2 * n + Z.b2z nm.
Proof.
  intros Hn. unfold new_id, u32.
  rewrite (Z.mod_small n) by lia.
  rewrite Z.shiftl_mul_pow2 by lia. change (2 ^ 1) with 2.
  rewrite Z.mod_small by lia.
  rewrite <- lor_double_b2z by lia. f_equal. lia.
Qed.

Lemma new_id_name (n : Z) (nm : bool) :
  0 <= n < 2 ^ 31 -> name (new_id n nm) = nm.
Proof.
  intros Hn. rewrite name_odd, new_id_val by exact Hn.
  rewrite Z.add_comm, Z.odd_add_mul_2. destruct nm; reflexivity.
Qed.

Lemma new_id_index (n : Z) (nm : bool) :
  1 <= n < 2 ^ 31 ->
  Z.to_nat (u32 (Z.shiftr (new_id n nm) 1 - 1)) = Z.to_nat (n - 1).
Proof.
  intros Hn. rewrite new_id_val by lia. rewrite shiftr_1_div.
  replace ((2 * n + Z.b2z nm) / 2) with n
    by (destruct nm; cbn [Z.b2z]; Z.div_mod_to_equations; lia).
  unfold u32. rewrite Z.mod_small by lia. reflexivity.
Qed.

Lemma new_id_range (n : Z) (nm : bool) :
  0 <= n < 2 ^ 31 -> 0 <= new_id n nm < 2 ^ 32.
Proof.
  intros Hn. rewrite new_id_val by exact Hn. destruct nm; cbn [Z.b2z]; lia.
Qed.

(** *** Equality of interned data *)

Lemma forallb_combine_eqb (l l' : list Z) :
  length l = length l' ->
  forallb (fun p => eqb (fst p) (snd p)) (combine l l') = true -> l = l'.
Proof.
  revert l'. induction l as [|x l IH]; intros [|y l'] Hlen H;
    simpl in *; try discriminate; try reflexivity.
  apply andb_true_iff in H as [Hxy H]. apply Z.eqb_eq in Hxy.
  f_equal; [exact Hxy|]. apply IH; [lia | exact H].
Qed.

Lemma forallb_combine_refl (l : list Z) :
  forallb (fun p => eqb (fst p) (snd p)) (combine l l) = true.
Proof.
  induction l as [|x l IH]; simpl; [reflexivity|].
  unfold eqb at 1. rewrite Z.eqb_refl. exact IH.
Qed.

Lemma Data_eqb_spec (d d' : Data) :
  Data_eqb d d' = true <->
  Symbol.id_ (symbol_ d) = Symbol.id_ (symbol_ d') /\ args_ d = args_ d'.
Proof.
  unfold Data_eqb, Symbol.eqb. split.
  - intros H. apply andb_true_iff in H as [Hs H].
    apply andb_true_iff in H as [Hl H].
    apply Z.eqb_eq in Hs. apply Nat.eqb_eq in Hl.
    split; [exact Hs|]. apply forallb_combine_eqb; assumption.
  - intros [Hs Ha]. rewrite Hs, Ha, Z.eqb_refl, Nat.eqb_refl.
    simpl. apply forallb_combine_refl.
Qed.

Lemma find_Some (s : list (Data * Z)) (d : Data) (e : Data * Z) :
  find s d = Some e -> In e s /\ Data_eqb (fst e) d = true.
Proof. unfold find. apply find_some. Qed.

Lemma find_None (s : list (Data * Z)) (d : Data) (e : Data * Z) :
  find s d = None -> In e s -> Data_eqb (fst e) d = false.
Proof. unfold find. intros H Hin. exact (find_none _ _ H e Hin). Qed.

Lemma find_exists (s : list (Data * Z)) (d : Data) (e : Data * Z) :
  In e s -> Data_eqb (fst e) d = true -> exists e', find s d = Some e'.
Proof.
  intros Hin He. destruct (find s d) as [e'|] eqn:E; [eauto|].
  rewrite (find_None _ _ _ E Hin) in He. discriminate.
Qed.


(** *** Calls and the factories they reach *)

Definition heap_room (f : Factory) : Prop :=
  Z.of_nat (length (name_heap_ f)) < 2 ^ 31 - 1 /\
  Z.of_nat (length (variable_and_function_heap_ f)) < 2 ^ 31 - 1.

(** [a] is a term of the factory: a 32-bit id that [get] resolves. *)
Definition is_term (f : Factory) (a : t) : Prop :=
  0 <= a < 2 ^ 32 /\ get f a <> None.

(** What a call [CreateTerm(symbol, args)] relies on: its two assertions,
    arguments made by the same factory, and ids left in 31 bits. *)
Record CreateTerm_pre (f : Factory) (symbol : Symbol.t) (args : Vector)
    : Prop := {
  pre_assert : CreateTerm_assert symbol args = true;
  pre_args : forall a, In a args -> is_term f a;
  pre_room : heap_room f
}.

Inductive extends (f : Factory) : Factory -> Prop :=
| extends_refl : extends f f
| extends_step f1 symbol args a f2 :
    extends f f1 ->
    CreateTerm_pre f1 symbol args ->
    CreateTerm f1 symbol args = Some (a, f2) ->
    extends f f2.

Definition reachable (f : Factory) : Prop := extends empty_Factory f.

(** The two ways a call ends. *)
Definition grown (f : Factory) (symbol : Symbol.t) (args : Vector)
    (nm : bool) : Factory :=
  let d := mk_Data symbol args in
  let name_heap := if nm then name_heap_ f ++ [d] else name_heap_ f in
  let var_heap := if nm then variable_and_function_heap_ f
                  else variable_and_function_heap_ f ++ [d] in
  let heap := if nm then name_heap else var_heap in
  {| memory_ := fun srt =>
                  if Symbol.Sort.eqb srt (Symbol.sort symbol)
                  then memory_ f (Symbol.sort symbol) ++
                       [(d, new_id (Z.of_nat (length heap)) nm)]
                  else memory_ f srt;
     name_heap_ := name_heap;
     variable_and_function_heap_ := var_heap |}.

Definition grown_id (f : Factory) (nm : bool) : Z :=
  new_id (Z.of_nat (length (if nm then name_heap_ f
                            else variable_and_function_heap_ f)) + 1) nm.

Lemma CreateTerm_cases (f : Factory) (symbol : Symbol.t) (args : Vector)
    (a : t) (f' : Factory) :
  CreateTerm f symbol args = Some (a, f') ->
  (exists d0, find (memory_ f (Symbol.sort symbol)) (mk_Data symbol args)
              = Some (d0, a) /\ f' = f) \/
  (exists nm, find (memory_ f (Symbol.sort symbol)) (mk_Data symbol args)
              = None /\
              CreateTerm_name f symbol args = Some nm /\
              a = grown_id f nm /\ f' = grown f symbol args nm).
Proof.
  unfold CreateTerm. intros H.
  destruct (find _ _) as [[d0 id0]|] eqn:E.
  - left. exists d0. injection H as <- <-. auto.
  - right. destruct (CreateTerm_name f symbol args) as [nm|];
      simpl in H; [|discriminate].
    exists nm. injection H as <- <-.
    unfold grown_id, grown.
    destruct nm; simpl; rewrite length_app; simpl;
      rewrite Nat2Z.inj_add; auto.
Qed.

(** *** Heaps only grow *)

Definition heaps_grow (f f' : Factory) : Prop :=
  (exists l, name_heap_ f' = name_heap_ f ++ l) /\
  (exists l, variable_and_function_heap_ f' =
             variable_and_function_heap_ f ++ l).

Lemma heaps_grow_refl (f : Factory) : heaps_grow f f.
Proof. split; exists []; rewrite app_nil_r; reflexivity. Qed.

Lemma heaps_grow_trans (f f1 f2 : Factory) :
  heaps_grow f f1 -> heaps_grow f1 f2 -> heaps_grow f f2.
Proof.
  intros [[l1 H1] [l2 H2]] [[l3 H3] [l4 H4]]. split.
  - exists (l1 ++ l3). rewrite H3, H1, app_assoc. reflexivity.
  - exists (l2 ++ l4). rewrite H4, H2, app_assoc. reflexivity.
Qed.

Lemma heaps_grow_grown (f : Factory) (symbol : Symbol.t) (args : Vector)
    (nm : bool) : heaps_grow f (grown f symbol args nm).
Proof.
  destruct nm; split; simpl; eauto; exists []; rewrite app_nil_r; reflexivity.
Qed.

Lemma nth_error_app_Some {A : Type} (l l' : list A) (n : nat) (x : A) :
  nth_error l n = Some x -> nth_error (l ++ l') n = Some x.
Proof.
  intros H. rewrite nth_error_app1; [exact H|].
  apply nth_error_Some. rewrite H. discriminate.
Qed.

Lemma get_grow (f f' : Factory) (a : t) (d : Data) :
  heaps_grow f f' -> get f a = Some d -> get f' a = Some d.
Proof.
  intros [[l1 H1] [l2 H2]]. unfold get. rewrite H1, H2.
  destruct (Z.land a 1 =? 1); apply nth_error_app_Some.
Qed.

Lemma is_term_grow (f f' : Factory) (a : t) :
  heaps_grow f f' -> is_term f a -> is_term f' a.
Proof.
  intros Hg [Hr Hget]. split; [exact Hr|].
  destruct (get f a) as [d|] eqn:E; [|congruence].
  rewrite (get_grow _ _ _ _ Hg E). discriminate.
Qed.

Lemma function_grow (f f' : Factory) (a : t) (b : bool) :
  heaps_grow f f' -> function f a = Some b -> function f' a = Some b.
Proof.
  intros Hg. unfold function, symbol.
  destruct (get f a) as [d|] eqn:E; simpl; [|discriminate].
  rewrite (get_grow _ _ _ _ Hg E). auto.
Qed.

Lemma function_is_term (f : Factory) (a : t) :
  get f a <> None -> exists b, function f a = Some b.
Proof.
  unfold function, symbol. destruct (get f a) as [d|]; [|congruence].
  simpl. eauto.
Qed.

Lemma extends_heaps_grow (f f' : Factory) : extends f f' -> heaps_grow f f'.
Proof.
  induction 1 as [|f1 symbol args a f2 _ IH _ Hc].
  - apply heaps_grow_refl.
  - apply (heaps_grow_trans _ _ _ IH).
    apply CreateTerm_cases in Hc as [(d0 & _ & ->)|(nm & _ & _ & _ & ->)].
    + apply heaps_grow_refl.
    + apply heaps_grow_grown.
Qed.

Lemma extends_trans (f f1 f2 : Factory) :
  extends f f1 -> extends f1 f2 -> extends f f2.
Proof.
  intros H1 H2. induction H2; [exact H1|]. eapply extends_step; eauto.
Qed.


(** *** The invariant of reachable factories *)

(** The arguments are standard names: names whose symbol is no function. *)
Definition plain_names (f : Factory) (args : Vector) : Prop :=
  forall a, In a args -> name a = true /\ function f a = Some false.

(** The data of a term that [CreateTerm] files as a name. *)
Definition is_name_data (f : Factory) (d : Data) : Prop :=
  Symbol.name (symbol_ d) = true \/
  (Symbol.Sort.rigid (Symbol.sort (symbol_ d)) = true /\
   Symbol.function (symbol_ d) = true /\
   plain_names f (args_ d)).

Record Inv (f : Factory) : Prop := {
  inv_room :
    Z.of_nat (length (name_heap_ f)) < 2 ^ 31 /\
    Z.of_nat (length (variable_and_function_heap_ f)) < 2 ^ 31;
  inv_mem : forall srt d id,
    In (d, id) (memory_ f srt) ->
    srt = Symbol.sort (symbol_ d) /\ 0 <= id < 2 ^ 32 /\ get f id = Some d;
  inv_uniq : forall srt d id d' id',
    In (d, id) (memory_ f srt) -> In (d', id') (memory_ f srt) ->
    Data_eqb d d' = true -> id = id';
  inv_data : forall id d,
    get f id = Some d ->
    CreateTerm_assert (symbol_ d) (args_ d) = true /\
    (forall a, In a (args_ d) -> is_term f a) /\
    (name id = true <-> is_name_data f d)
}.

Lemma all_of_plain_names (f : Factory) (args : Vector) :
  (forall a, In a args -> get f a <> None) ->
  exists b,
    all_of (fun a => oand (Some (name a)) (onot (function f a))) args
      = Some b /\
    (b = true <-> plain_names f args).
Proof.
  unfold plain_names.
  induction args as [|x args IH]; intros Hv; simpl.
  - exists true. split; [reflexivity|]. split; [intros _ a []|reflexivity].
  - destruct (function_is_term f x (Hv x (or_introl eq_refl))) as [bx Hx].
    destruct IH as [b [Hb Hiff]]; [intros a Ha; apply Hv; right; exact Ha|].
    rewrite Hx. destruct (name x) eqn:Hn; simpl.
    + destruct bx; simpl.
      * exists false. split; [reflexivity|]. split; [discriminate|].
        intros H. destruct (H x (or_introl eq_refl)) as [_ H']. congruence.
      * exists b. split; [exact Hb|]. rewrite Hiff. split.
        -- intros H a [<-|Ha]; [split; assumption | apply H, Ha].
        -- intros H a Ha. apply H. right. exact Ha.
    + exists false. split; [reflexivity|]. split; [discriminate|].
      intros H. destruct (H x (or_introl eq_refl)) as [H' _]. congruence.
Qed.

Lemma Symbol_name_not_function (s : Symbol.t) :
  Symbol.name s = true -> Symbol.function s = false.
Proof.
  unfold Symbol.name, Symbol.function. intros H.
  apply Z.eqb_eq in H. rewrite H. reflexivity.
Qed.

Lemma CreateTerm_name_spec (f : Factory) (symbol : Symbol.t) (args : Vector) :
  (forall a, In a args -> get f a <> None) ->
  exists nm, CreateTerm_name f symbol args = Some nm /\
             (nm = true <-> is_name_data f (mk_Data symbol args)).
Proof.
  intros Hv. unfold CreateTerm_name, is_name_data.
  destruct (all_of_plain_names f args Hv) as [b [Hb Hiff]]. rewrite Hb.
  cbn [symbol_ args_].
  destruct (Symbol.name symbol) eqn:Hn; simpl.
  - exists true. split; [reflexivity|]. split; auto.
  - destruct (Symbol.Sort.rigid (Symbol.sort symbol)); simpl.
    + destruct (Symbol.function symbol); simpl.
      * exists b. split; [reflexivity|]. rewrite Hiff. split.
        -- auto.
        -- intros [H|[_ [_ H]]]; [discriminate | exact H].
      * exists false. split; [reflexivity|]. split; [discriminate|].
        intros [H|[_ [H _]]]; discriminate.
    + exists false. split; [reflexivity|]. split; [discriminate|].
      intros [H|[H _]]; discriminate.
Qed.

Lemma plain_names_grow (f f' : Factory) (args : Vector) :
  heaps_grow f f' -> (forall a, In a args -> is_term f a) ->
  (plain_names f args <-> plain_names f' args).
Proof.
  intros Hg Hv. unfold plain_names. split; intros H a Ha.
  - destruct (H a Ha) as [H1 H2]. split; [exact H1|].
    exact (function_grow _ _ _ _ Hg H2).
  - destruct (H a Ha) as [H1 H2]. split; [exact H1|].
    destruct (function_is_term f a (proj2 (Hv a Ha))) as [b Hb].
    rewrite (function_grow _ _ _ _ Hg Hb) in H2. congruence.
Qed.

Lemma is_name_data_grow (f f' : Factory) (d : Data) :
  heaps_grow f f' -> (forall a, In a (args_ d) -> is_term f a) ->
  (is_name_data f d <-> is_name_data f' d).
Proof.
  intros Hg Hv. unfold is_name_data.
  rewrite (plain_names_grow f f' (args_ d) Hg Hv). reflexivity.
Qed.

Lemma Inv_empty : Inv empty_Factory.
Proof.
  split; simpl.
  - split; reflexivity.
  - intros _ d id [].
  - intros _ d id d' id' [].
  - intros id d. unfold get. simpl.
    destruct (Z.land id 1 =? 1);
      destruct (Z.to_nat _); discriminate.
Qed.

(** Where [get] finds a datum after a push. *)
Lemma get_grown (f : Factory) (symbol : Symbol.t) (args : Vector)
    (nm : bool) (a : t) (d : Data) :
  get (grown f symbol args nm) a = Some d ->
  get f a = Some d \/ (d = mk_Data symbol args /\ name a = nm).
Proof.
  unfold get, name. destruct nm; simpl;
    destruct (Z.land a 1 =? 1) eqn:E; auto; intros H.
  - destruct (Nat.lt_ge_cases (Z.to_nat (u32 (Z.shiftr a 1 - 1)))
                (length (name_heap_ f))) as [Hlt|Hge].
    + rewrite nth_error_app1 in H by exact Hlt. auto.
    + rewrite nth_error_app2 in H by exact Hge.
      destruct (_ - _)%nat as [|[|k]]; simpl in H; try discriminate.
      injection H as <-. auto.
  - destruct (Nat.lt_ge_cases (Z.to_nat (u32 (Z.shiftr a 1 - 1)))
                (length (variable_and_function_heap_ f))) as [Hlt|Hge].
    + rewrite nth_error_app1 in H by exact Hlt. auto.
    + rewrite nth_error_app2 in H by exact Hge.
      destruct (_ - _)%nat as [|[|k]]; simpl in H; try discriminate.
      injection H as <-. auto.
Qed.

Lemma get_grown_id (f : Factory) (symbol : Symbol.t) (args : Vector)
    (nm : bool) :
  Inv f -> heap_room f ->
  get (grown f symbol args nm) (grown_id f nm) = Some (mk_Data symbol args).
Proof.
  intros HI [Hr1 Hr2]. unfold get, grown_id.
  pose proof (new_id_name) as Hname. unfold name in Hname.
  destruct nm.
  - rewrite Hname by lia. rewrite new_id_index by lia. simpl.
    rewrite nth_error_app2 by lia.
    replace (_ - _)%nat with O by lia. reflexivity.
  - rewrite Hname by lia. rewrite new_id_index by lia. simpl.
    rewrite nth_error_app2 by lia.
    replace (_ - _)%nat with O by lia. reflexivity.
Qed.

Lemma grown_mem (f : Factory) (symbol : Symbol.t) (args : Vector)
    (nm : bool) (srt : Symbol.Sort.t) (e : Data * Z) :
  In e (memory_ (grown f symbol args nm) srt) ->
  In e (memory_ f srt) \/
  (srt = Symbol.sort symbol /\ e = (mk_Data symbol args, grown_id f nm)).
Proof.
  unfold grown; simpl. unfold Symbol.Sort.eqb.
  destruct (srt =? Symbol.sort symbol) eqn:E; [|auto].
  apply Z.eqb_eq in E. subst srt. intros H.
  apply in_app_or in H as [H|[<-|[]]]; [auto|]. right. split; [reflexivity|].
  f_equal. unfold grown_id. f_equal.
  destruct nm; rewrite length_app; simpl; lia.
Qed.

Lemma mem_grown (f : Factory) (symbol : Symbol.t) (args : Vector)
    (nm : bool) (srt : Symbol.Sort.t) (e : Data * Z) :
  In e (memory_ f srt) -> In e (memory_ (grown f symbol args nm) srt).
Proof.
  unfold grown; simpl. unfold Symbol.Sort.eqb. intros H.
  destruct (srt =? Symbol.sort symbol) eqn:E; [|exact H].
  apply Z.eqb_eq in E. subst srt. apply in_or_app. left. exact H.
Qed.

Lemma mem_grown_new (f : Factory) (symbol : Symbol.t) (args : Vector)
    (nm : bool) :
  In (mk_Data symbol args, grown_id f nm)
     (memory_ (grown f symbol args nm) (Symbol.sort symbol)).
Proof.
  unfold grown; simpl. unfold Symbol.Sort.eqb. rewrite Z.eqb_refl.
  apply in_or_app. right. left. f_equal. unfold grown_id. f_equal.
  destruct nm; rewrite length_app; simpl; lia.
Qed.


Lemma Data_eqb_sym (d d' : Data) : Data_eqb d d' = Data_eqb d' d.
Proof.
  destruct (Data_eqb d d') eqn:E1, (Data_eqb d' d) eqn:E2; try reflexivity.
  - apply Data_eqb_spec in E1 as [H1 H2].
    assert (Data_eqb d' d = true) by (apply Data_eqb_spec; auto). congruence.
  - apply Data_eqb_spec in E2 as [H1 H2].
    assert (Data_eqb d d' = true) by (apply Data_eqb_spec; auto). congruence.
Qed.

Lemma Inv_grown (f : Factory) (symbol : Symbol.t) (args : Vector) (nm : bool) :
  Inv f -> CreateTerm_pre f symbol args ->
  find (memory_ f (Symbol.sort symbol)) (mk_Data symbol args) = None ->
  (nm = true <-> is_name_data f (mk_Data symbol args)) ->
  Inv (grown f symbol args nm).
Proof.
  intros HI [Hassert Hargs [Hr1 Hr2]] Hfind Hnm.
  pose proof (heaps_grow_grown f symbol args nm) as Hg.
  assert (Hrange : 0 <= grown_id f nm < 2 ^ 32)
    by (unfold grown_id; apply new_id_range; destruct nm; lia).
  split.
  - destruct nm; simpl; rewrite length_app; simpl;
      destruct (inv_room f HI); lia.
  - intros srt d id Hin.
    apply grown_mem in Hin as [Hin|[-> Heq]].
    + destruct (inv_mem f HI _ _ _ Hin) as (H1 & H2 & H3).
      repeat split; auto; try lia. exact (get_grow _ _ _ _ Hg H3).
    + injection Heq as -> ->. split; [reflexivity|]. split; [exact Hrange|].
      apply get_grown_id; [exact HI | split; assumption].
  - intros srt d id d' id' Hin Hin' Heq.
    apply grown_mem in Hin as [Hin|[-> E]];
      apply grown_mem in Hin' as [Hin'|[E0 E']].
    + exact (inv_uniq f HI _ _ _ _ _ Hin Hin' Heq).
    + subst srt. injection E' as -> ->.
      pose proof (find_None _ _ _ Hfind Hin) as Hn. simpl in Hn. congruence.
    + injection E as -> ->. rewrite Data_eqb_sym in Heq.
      pose proof (find_None _ _ _ Hfind Hin') as Hn. simpl in Hn. congruence.
    + injection E as -> ->. injection E' as -> ->. reflexivity.
  - intros id d Hget.
    apply get_grown in Hget as [Hget|[-> Hname]].
    + destruct (inv_data f HI _ _ Hget) as (H1 & H2 & H3).
      split; [exact H1|]. split.
      * intros a Ha. exact (is_term_grow _ _ _ Hg (H2 a Ha)).
      * rewrite H3. apply is_name_data_grow; assumption.
    + simpl. split; [exact Hassert|]. split.
      * intros a Ha. exact (is_term_grow _ _ _ Hg (Hargs a Ha)).
      * rewrite Hname, Hnm. apply is_name_data_grow; assumption.
Qed.

Lemma CreateTerm_Inv (f : Factory) (symbol : Symbol.t) (args : Vector)
    (a : t) (f' : Factory) :
  Inv f -> CreateTerm_pre f symbol args ->
  CreateTerm f symbol args = Some (a, f') -> Inv f'.
Proof.
  intros HI Hpre Hc.
  apply CreateTerm_cases in Hc as [(d0 & _ & ->)|(nm & Hf & Hn & _ & ->)];
    [exact HI|].
  apply Inv_grown; try assumption.
  destruct (CreateTerm_name_spec f symbol args) as [nm' [Hn' Hiff]].
  - intros x Hx. exact (proj2 (pre_args _ _ _ Hpre x Hx)).
  - rewrite Hn in Hn'. injection Hn' as <-. exact Hiff.
Qed.

Lemma extends_Inv (f f' : Factory) : Inv f -> extends f f' -> Inv f'.
Proof.
  intros HI H. induction H as [|f1 symbol args a f2 _ IH Hpre Hc];
    [exact HI|].
  exact (CreateTerm_Inv _ _ _ _ _ IH Hpre Hc).
Qed.

Lemma reachable_Inv (f : Factory) : reachable f -> Inv f.
Proof. apply extends_Inv, Inv_empty. Qed.

(** A call within its precondition returns. *)
Lemma CreateTerm_total (f : Factory) (symbol : Symbol.t) (args : Vector) :
  CreateTerm_pre f symbol args ->
  exists a f', CreateTerm f symbol args = Some (a, f').
Proof.
  intros Hpre. unfold CreateTerm.
  destruct (find _ _) as [[d0 id0]|]; [eauto|].
  destruct (CreateTerm_name_spec f symbol args) as [nm [Hn _]].
  - intros x Hx. exact (proj2 (pre_args _ _ _ Hpre x Hx)).
  - rewrite Hn. simpl. eauto.
Qed.

(** After a call, the table of the symbol's sort holds an entry for the
    datum, carrying the id the call returned. *)
Lemma CreateTerm_entry (f : Factory) (symbol : Symbol.t) (args : Vector)
    (a : t) (f' : Factory) :
  CreateTerm f symbol args = Some (a, f') ->
  exists d0, In (d0, a) (memory_ f' (Symbol.sort symbol)) /\
             Data_eqb d0 (mk_Data symbol args) = true.
Proof.
  intros Hc.
  apply CreateTerm_cases in Hc as [(d0 & Hf & ->)|(nm & _ & _ & -> & ->)].
  - exists d0. apply find_Some in Hf. exact Hf.
  - exists (mk_Data symbol args). split; [apply mem_grown_new|].
    apply Data_eqb_spec. auto.
Qed.

Lemma CreateTerm_mem_mono (f : Factory) (symbol : Symbol.t) (args : Vector)
    (a : t) (f' : Factory) (srt : Symbol.Sort.t) (e : Data * Z) :
  CreateTerm f symbol args = Some (a, f') ->
  In e (memory_ f srt) -> In e (memory_ f' srt).
Proof.
  intros Hc Hin.
  apply CreateTerm_cases in Hc as [(d0 & _ & ->)|(nm & _ & _ & _ & ->)];
    [exact Hin | apply mem_grown, Hin].
Qed.

Lemma extends_mem_mono (f f' : Factory) (srt : Symbol.Sort.t) (e : Data * Z) :
  extends f f' -> In e (memory_ f srt) -> In e (memory_ f' srt).
Proof.
  intros H Hin. induction H as [|f1 symbol args a f2 _ IH _ Hc];
    [exact Hin|].
  exact (CreateTerm_mem_mono _ _ _ _ _ _ _ Hc IH).
Qed.

Lemma Symbol_eqb_assert_sort (s s' : Symbol.t) :
  Symbol.eqb_assert s s' = true -> Symbol.eqb s s' = true ->
  Symbol.sort s = Symbol.sort s'.
Proof.
  unfold Symbol.eqb_assert, Symbol.eqb, Symbol.Sort.eqb, Symbol.sort.
  intros Ha He. rewrite He in Ha. simpl in Ha.
  apply andb_true_iff in Ha as [Ha _]. apply Z.eqb_eq in Ha. exact Ha.
Qed.

(** C5.  Interning.  On a factory reached by calls of [CreateTerm], a call
    [CreateTerm(s, args)] and a later call [CreateTerm(s', args')] on the
    same factory (any number of calls in between) both return, and they
    return equal terms if and only if [s == s'] and [args == args']; the
    symbols are as [Symbol::operator==] asserts them to be (equal ids have
    equal sort and arity). *)
Theorem CreateTerm_interning (f : Factory) (s s' : Symbol.t)
    (args args' : Vector) :
  reachable f ->
  CreateTerm_pre f s args ->
  Symbol.eqb_assert s s' = true ->
  exists a f1,
    CreateTerm f s args = Some (a, f1) /\
    forall f2, extends f1 f2 -> CreateTerm_pre f2 s' args' ->
      exists a' f3,
        CreateTerm f2 s' args' = Some (a', f3) /\
        (eqb a a' = true <-> Symbol.eqb s s' = true /\ args = args').
Proof.
  intros Hreach Hpre Hass.
  destruct (CreateTerm_total f s args Hpre) as (a & f1 & Hc).
  exists a, f1. split; [exact Hc|]. intros f2 Hext Hpre'.
  destruct (CreateTerm_total f2 s' args' Hpre') as (a' & f3 & Hc').
  exists a', f3. split; [exact Hc'|].
  assert (HI1 : Inv f1)
    by (eapply CreateTerm_Inv; [apply reachable_Inv, Hreach | exact Hpre | exact Hc]).
  assert (HI2 : Inv f2) by (eapply extends_Inv; eassumption).
  assert (HI3 : Inv f3) by (eapply CreateTerm_Inv; eassumption).
  destruct (CreateTerm_entry _ _ _ _ _ Hc) as (d1 & Hin1 & Hd1).
  destruct (CreateTerm_entry _ _ _ _ _ Hc') as (d2 & Hin2 & Hd2).
  apply (extends_mem_mono _ _ _ _ Hext) in Hin1.
  pose proof (CreateTerm_mem_mono _ _ _ _ _ _ _ Hc' Hin1) as Hin1'.
  apply Data_eqb_spec in Hd1 as [Hs1 Ha1].
  apply Data_eqb_spec in Hd2 as [Hs2 Ha2]. simpl in *.
  unfold eqb. rewrite Z.eqb_eq. split.
  - intros <-.
    destruct (inv_mem f3 HI3 _ _ _ Hin1') as (_ & _ & G1).
    destruct (inv_mem f3 HI3 _ _ _ Hin2) as (_ & _ & G2).
    rewrite G1 in G2. injection G2 as <-.
    split; [|congruence]. unfold Symbol.eqb. apply Z.eqb_eq. congruence.
  - intros [Hs Ha]. subst args'.
    pose proof (Symbol_eqb_assert_sort _ _ Hass Hs) as Hsort.
    rewrite <- Hsort in Hin2.
    apply (inv_uniq f3 HI3 _ _ _ _ _ Hin1' Hin2).
    apply Data_eqb_spec. unfold Symbol.eqb in Hs. apply Z.eqb_eq in Hs.
    split; congruence.
Qed.

(** *** A small factory: names, a function term, nested rigid terms *)

Definition after (f : Factory) (symbol : Symbol.t) (args : Vector) : Factory :=
  match CreateTerm f symbol args with
  | Some (_, f') => f'
  | None => f
  end.

Definition s1 : Symbol.Sort.t := Symbol.Sort.Nonrigid 0.
Definition r1 : Symbol.Sort.t := Symbol.Sort.Rigid 1.
Definition sym_n1 : Symbol.t := Symbol.or_null (Symbol.CreateName 1 s1).
Definition sym_n2 : Symbol.t := Symbol.or_null (Symbol.CreateName 2 s1).
Definition sym_f : Symbol.t := Symbol.or_null (Symbol.CreateFunction 1 s1 1).
Definition sym_m : Symbol.t := Symbol.or_null (Symbol.CreateName 3 r1).
Definition sym_g : Symbol.t := Symbol.or_null (Symbol.CreateFunction 2 r1 1).

(** Each of these calls passes its assertions and returns. *)
Lemma sym_calls_return :
  Symbol.CreateName 1 s1 = Some sym_n1 /\
  Symbol.CreateName 2 s1 = Some sym_n2 /\
  Symbol.CreateFunction 1 s1 1 = Some sym_f /\
  Symbol.CreateName 3 r1 = Some sym_m /\
  Symbol.CreateFunction 2 r1 1 = Some sym_g.
Proof. repeat split; reflexivity. Qed.

(** [n1 = 3], [n2 = 5], [f(n1) = 2], [m = 7], [g(m) = 9]. *)
Definition fac1 : Factory := after empty_Factory sym_n1 [].
Definition fac2 : Factory := after fac1 sym_n2 [].
Definition fac3 : Factory := after fac2 sym_f [3].
Definition fac4 : Factory := after fac3 sym_m [].
Definition fac5 : Factory := after fac4 sym_g [7].

Ltac pre_by_computation :=
  split;
  [ reflexivity
  | intros ? Hin; simpl in Hin;
    repeat (destruct Hin as [<-|Hin]; [split; [lia | discriminate]|]);
    destruct Hin
  | split; vm_compute; reflexivity ].

Lemma reachable_fac5 : reachable fac5.
Proof.
  unfold reachable.
  eapply extends_step with (f1 := fac4) (symbol := sym_g) (args := [7]);
    [|pre_by_computation|reflexivity].
  eapply extends_step with (f1 := fac3) (symbol := sym_m) (args := []);
    [|pre_by_computation|reflexivity].
  eapply extends_step with (f1 := fac2) (symbol := sym_f) (args := [3]);
    [|pre_by_computation|reflexivity].
  eapply extends_step with (f1 := fac1) (symbol := sym_n2) (args := []);
    [|pre_by_computation|reflexivity].
  eapply extends_step with (f1 := empty_Factory) (symbol := sym_n1) (args := []);
    [|pre_by_computation|reflexivity].
  apply extends_refl.
Defined.

Lemma CreateTerm_pre_fac5_g : CreateTerm_pre fac5 sym_g [9].
Proof. pre_by_computation. Defined.

(** Names-ness is the low bit of the id. *)
Lemma name_low_bit (a : t) : name a = Z.testbit a 0.
Proof. rewrite name_odd. symmetry. apply Z.bit0_odd. Qed.

(** C7, as amended.  A function symbol of a rigid sort applied to standard
    names (terms that satisfy [name()] and whose symbol is no function)
    yields a term that satisfies [name()]; and [name()] is the low bit of
    the id. *)
Theorem CreateTerm_rigid_function_of_plain_names (f : Factory)
    (s : Symbol.t) (args : Vector) :
  reachable f ->
  CreateTerm_pre f s args ->
  Symbol.function s = true ->
  Symbol.Sort.rigid (Symbol.sort s) = true ->
  (forall a, In a args -> name a = true /\ function f a = Some false) ->
  exists a f',
    CreateTerm f s args = Some (a, f') /\
    name a = true /\ name a = Z.testbit a 0.
Proof.
  intros Hreach Hpre Hfun Hrigid Hargs.
  pose proof (reachable_Inv f Hreach) as HI.
  destruct (CreateTerm_total f s args Hpre) as (a & f' & Hc).
  exists a, f'. split; [exact Hc|]. split; [|apply name_low_bit].
  assert (Hdata : is_name_data f (mk_Data s args))
    by (right; simpl; auto).
  apply CreateTerm_cases in Hc as [(d0 & Hf & ->)|(nm & _ & Hn & -> & _)].
  - apply find_Some in Hf as [Hin Heq]. simpl in Heq.
    destruct (inv_mem f HI _ _ _ Hin) as (Hsort & _ & Hget).
    destruct (inv_data f HI _ _ Hget) as (_ & _ & Hiff). apply Hiff.
    apply Data_eqb_spec in Heq as [Hid Ha]. simpl in Hid, Ha.
    right. rewrite <- Hsort, Ha. split; [exact Hrigid|]. split; [|exact Hargs].
    unfold Symbol.function in *. rewrite Hid. exact Hfun.
  - destruct (CreateTerm_name_spec f s args) as [nm' [Hn' Hiff]].
    + intros x Hx. exact (proj2 (pre_args _ _ _ Hpre x Hx)).
    + rewrite Hn in Hn'. injection Hn' as <-.
      apply Hiff in Hdata. subst nm. unfold grown_id.
      apply new_id_name. destruct (pre_room _ _ _ Hpre). lia.
Qed.

Lemma CreateTerm_rigid_function_of_plain_names_witness :
  reachable fac4 /\
  CreateTerm_pre fac4 sym_g [7] /\
  Symbol.function sym_g = true /\
  Symbol.Sort.rigid (Symbol.sort sym_g) = true /\
  (forall a, In a [7] -> name a = true /\ function fac4 a = Some false) /\
  exists a f',
    CreateTerm fac4 sym_g [7] = Some (a, f') /\
    name a = true /\ name a = Z.testbit a 0.
Proof.
  assert (H1 : reachable fac4).
  { unfold reachable.
    eapply extends_step with (f1 := fac3) (symbol := sym_m) (args := []);
      [|pre_by_computation|reflexivity].
    eapply extends_step with (f1 := fac2) (symbol := sym_f) (args := [3]);
      [|pre_by_computation|reflexivity].
    eapply extends_step with (f1 := fac1) (symbol := sym_n2) (args := []);
      [|pre_by_computation|reflexivity].
    eapply extends_step with (f1 := empty_Factory) (symbol := sym_n1)
                             (args := []);
      [|pre_by_computation|reflexivity].
    apply extends_refl. }
  assert (H2 : CreateTerm_pre fac4 sym_g [7]) by pre_by_computation.
  assert (H3 : forall a, In a [7] ->
                 name a = true /\ function fac4 a = Some false).
  { intros a [<-|[]]. split; reflexivity. }
  split; [exact H1|]. split; [exact H2|].
  split; [reflexivity|]. split; [reflexivity|]. split; [exact H3|].
  exact (CreateTerm_rigid_function_of_plain_names fac4 sym_g [7]
           H1 H2 eq_refl eq_refl H3).
Defined.

(** C7 as stated fails: [g(m)] satisfies [name()], yet the rigid function
    [g] applied to it gives [g(g(m))], which does not. *)
Lemma CreateTerm_rigid_function_of_names_counterexample :
  reachable fac5 /\
  CreateTerm_pre fac5 sym_g [9] /\
  Symbol.function sym_g = true /\
  Symbol.Sort.rigid (Symbol.sort sym_g) = true /\
  (forall a, In a [9] -> name a = true) /\
  exists a f',
    CreateTerm fac5 sym_g [9] = Some (a, f') /\ name a = false.
Proof.
  split; [exact reachable_fac5|]. split; [exact CreateTerm_pre_fac5_g|].
  split; [reflexivity|]. split; [reflexivity|]. split.
  - intros a [<-|[]]. reflexivity.
  - exists 4, (after fac5 sym_g [9]). split; reflexivity.
Qed.

Lemma CreateTerm_interning_witness :
  reachable fac3 /\
  CreateTerm_pre fac3 sym_f [3] /\
  Symbol.eqb_assert sym_f sym_g = true /\
  exists a f1,
    CreateTerm fac3 sym_f [3] = Some (a, f1) /\
    forall f2, extends f1 f2 -> CreateTerm_pre f2 sym_g [3] ->
      exists a' f3,
        CreateTerm f2 sym_g [3] = Some (a', f3) /\
        (eqb a a' = true <-> Symbol.eqb sym_f sym_g = true /\ [3] = [3]).
Proof.
  assert (H1 : reachable fac3).
  { unfold reachable.
    eapply extends_step with (f1 := fac2) (symbol := sym_f) (args := [3]);
      [|pre_by_computation|reflexivity].
    eapply extends_step with (f1 := fac1) (symbol := sym_n2) (args := []);
      [|pre_by_computation|reflexivity].
    eapply extends_step with (f1 := empty_Factory) (symbol := sym_n1)
                             (args := []);
      [|pre_by_computation|reflexivity].
    apply extends_refl. }
  assert (H2 : CreateTerm_pre fac3 sym_f [3]) by pre_by_computation.
  split; [exact H1|]. split; [exact H2|]. split; [reflexivity|].
  exact (CreateTerm_interning fac3 sym_f sym_g [3] [3] H1 H2 eq_refl).
Defined.

End TermFacts.

(** ** literal.h: complementary and valid pairs *)

Module LiteralFacts.
Import Term TermFacts Literal.

(** *** The packed word *)

Lemma u32_land (x : Z) : u32 x = Z.land x (Z.ones 32).
Proof. unfold u32. rewrite Z.land_ones by lia. reflexivity. Qed.

Lemma lhs_range (a : Literal.t) : 0 <= lhs a < 2 ^ 32.
Proof. unfold lhs, u32. apply Z.mod_pos_bound. lia. Qed.

Lemma rhs_range (a : Literal.t) : 0 <= rhs a < 2 ^ 31.
Proof.
  unfold rhs. change (2 ^ 31 - 1) with (Z.ones 31).
  rewrite Z.land_ones by lia. apply Z.mod_pos_bound. lia.
Qed.

Definition pack (p : bool) (l r : Term.t) : Literal.t :=
  Z.lor (Z.lor (u64 l) (u64 (Z.shiftl (Z.b2z p) 63)))
        (u64 (Z.shiftl (u64 r) 32)).

Section Pack.
Variables (p : bool) (l r : Z).
Hypothesis Hl : 0 <= l < 2 ^ 32.
Hypothesis Hr : 0 <= r < 2 ^ 31.

Lemma pack_parts :
  pack p l r = Z.lor (Z.lor l (Z.b2z p * 2 ^ 63)) (r * 2 ^ 32).
Proof.
  unfold pack, u64.
  rewrite (Z.mod_small l), (Z.mod_small r) by lia.
  rewrite !Z.shiftl_mul_pow2 by lia.
  rewrite (Z.mod_small (r * 2 ^ 32)) by lia.
  rewrite (Z.mod_small (Z.b2z p * 2 ^ 63)) by (destruct p; simpl; lia).
  reflexivity.
Qed.

Lemma lhs_pack : lhs (pack p l r) = l.
Proof.
  unfold lhs. rewrite u32_land, pack_parts, !Z.land_lor_distr_l.
  rewrite !Z.land_ones by lia.
  rewrite (Z.mod_small l) by lia.
  replace ((Z.b2z p * 2 ^ 63) mod 2 ^ 32) with 0
    by (destruct p; reflexivity).
  replace ((r * 2 ^ 32) mod 2 ^ 32) with 0
    by (symmetry; apply Z.mod_mul; lia).
  rewrite !Z.lor_0_r. reflexivity.
Qed.

Lemma pos_pack : pos (pack p l r) = p.
Proof.
  unfold pos. rewrite pack_parts, !Z.shiftr_lor.
  rewrite !Z.shiftr_div_pow2 by lia.
  rewrite (Z.div_small l) by lia.
  rewrite Z.div_mul by lia.
  replace (r * 2 ^ 32 / 2 ^ 63) with 0
    by (symmetry; apply Z.div_small; lia).
  rewrite Z.lor_0_l, Z.lor_0_r. destruct p; reflexivity.
Qed.

Lemma rhs_pack : rhs (pack p l r) = r.
Proof.
  unfold rhs. rewrite u32_land, <- Z.land_assoc.
  change (Z.land (Z.ones 32) (2 ^ 31 - 1)) with (Z.ones 31).
  rewrite pack_parts, !Z.shiftr_lor, !Z.land_lor_distr_l.
  rewrite !Z.shiftr_div_pow2 by lia.
  rewrite (Z.div_small l) by lia.
  rewrite (Z.div_mul r) by lia.
  rewrite !Z.land_ones by lia.
  rewrite (Z.mod_small r) by lia.
  replace ((Z.b2z p * 2 ^ 63 / 2 ^ 32) mod 2 ^ 31) with 0
    by (destruct p; reflexivity).
  reflexivity.
Qed.
End Pack.


(** *** Which side the constructor puts first *)

Lemma all_of_true {A : Type} (p : A -> option bool) (l : list A) :
  (forall x, In x l -> p x = Some true) -> all_of p l = Some true.
Proof.
  induction l as [|x l IH]; intros H; simpl; [reflexivity|].
  rewrite (H x (or_introl eq_refl)). simpl. apply IH.
  intros y Hy. apply H. right. exact Hy.
Qed.

Lemma all_of_true_inv {A : Type} (p : A -> option bool) (l : list A) :
  all_of p l = Some true -> forall x, In x l -> p x = Some true.
Proof.
  induction l as [|x l IH]; intros H y Hy; simpl in *; [destruct Hy|].
  destruct (p x) as [[|]|] eqn:E; simpl in H; try discriminate.
  destruct Hy as [<-|Hy]; [exact E | exact (IH H y Hy)].
Qed.

(** What [primitive()] being true says about a term. *)
Lemma primitive_true (f : Factory) (a : Term.t) :
  Term.primitive f a = Some true ->
  exists d, get f a = Some d /\
            Symbol.Sort.rigid (Symbol.sort (symbol_ d)) = false /\
            Symbol.function (symbol_ d) = true /\
            forall x, In x (args_ d) -> name x = true.
Proof.
  unfold Term.primitive, sort_rigid, sort, function, all_args, args, symbol.
  destruct (get f a) as [d|]; simpl; [|discriminate].
  intros H. exists d.
  destruct (Symbol.Sort.rigid (Symbol.sort (symbol_ d))) eqn:Hrig;
    simpl in H; [discriminate|].
  destruct (Symbol.function (symbol_ d)) eqn:Hfun;
    simpl in H; [|discriminate].
  repeat split.
  intros x Hx. pose proof (all_of_true_inv _ _ H x Hx) as E.
  injection E as E. exact E.
Qed.

(** A term filed as a name is a quasi-name and is not quasi-primitive. *)
Lemma name_quasi (f : Factory) (a : Term.t) :
  Inv f -> get f a <> None -> name a = true ->
  quasi_name f a = Some true /\ quasi_primitive f a = Some false /\
  exists b, function f a = Some b.
Proof.
  intros HI Hget Hname.
  destruct (get f a) as [d|] eqn:E; [clear Hget|congruence].
  destruct (inv_data f HI _ _ E) as (_ & _ & Hiff).
  apply Hiff in Hname.
  unfold quasi_name, quasi_primitive, sort_rigid, sort, function, no_arg,
    all_args, args, symbol.
  rewrite E. simpl.
  destruct Hname as [Hn|(Hrig & Hfun & Hplain)].
  - rewrite (Symbol_name_not_function _ Hn). simpl.
    split; [reflexivity|]. split; [|eauto].
    destruct (Symbol.Sort.rigid _); reflexivity.
  - rewrite Hfun, Hrig. simpl. split; [|split; [reflexivity|eauto]].
    rewrite all_of_true; [reflexivity|].
    intros x Hx. destruct (Hplain x Hx) as [_ Hf].
    unfold function, symbol in Hf. rewrite Hf. reflexivity.
Qed.

Lemma primitive_quasi_primitive (f : Factory) (a : Term.t) :
  Inv f -> Term.primitive f a = Some true ->
  quasi_primitive f a = Some true /\ function f a = Some true.
Proof.
  intros HI H. apply primitive_true in H as (d & E & Hrig & Hfun & Hargs).
  destruct (inv_data f HI _ _ E) as (_ & Hterms & _).
  unfold quasi_primitive, sort_rigid, sort, function, all_args, args, symbol.
  rewrite E. simpl. rewrite Hrig, Hfun. simpl. split; [|reflexivity].
  apply all_of_true. intros x Hx.
  apply (name_quasi f x HI (proj2 (Hterms x Hx)) (Hargs x Hx)).
Qed.

(** For a primitive left side and a name on the right, the constructor
    keeps the two sides where they are. *)
Lemma make_primitive (f : Factory) (p : bool) (l r : Term.t) :
  Inv f -> Term.primitive f l = Some true ->
  get f r <> None -> name r = true ->
  make f p l r = Some (pack p l r).
Proof.
  intros HI Hl Hget Hname.
  destruct (primitive_quasi_primitive f l HI Hl) as [Hqp Hfun].
  destruct (name_quasi f r HI Hget Hname) as (_ & Hrq & [b Hrf]).
  unfold make. destruct (negb (Term.ltb l r)).
  - rewrite Hrf, Hfun, Hqp. destruct b; reflexivity.
  - rewrite Hfun, Hrq. reflexivity.
Qed.

Lemma primitive_sides (f : Factory) (a : Literal.t) :
  Literal.primitive f a = Some true ->
  Term.primitive f (lhs a) = Some true /\ name (rhs a) = true.
Proof.
  unfold Literal.primitive, oand.
  destruct (Term.primitive f (lhs a)) as [[|]|]; simpl; try discriminate.
  intros H. injection H as H. auto.
Qed.

(** [flip] of a primitive literal toggles the sign and nothing else. *)
Lemma flip_primitive (f : Factory) (a : Literal.t) :
  Inv f -> Literal.primitive f a = Some true -> get f (rhs a) <> None ->
  exists a', flip f a = Some a' /\
             lhs a' = lhs a /\ rhs a' = rhs a /\ pos a' = negb (pos a).
Proof.
  intros HI Hp Hget. apply primitive_sides in Hp as [Hl Hn].
  exists (pack (negb (pos a)) (lhs a) (rhs a)). split.
  - unfold flip. apply make_primitive; assumption.
  - pose proof (lhs_range a). pose proof (rhs_range a).
    rewrite lhs_pack, rhs_pack, pos_pack by assumption. auto.
Qed.

(** C8.  For primitive literals [a] and [b] over the terms of a reachable
    factory, [Complementary(a, b)] implies [Valid(a.flip(), b.flip())]. *)
Theorem Complementary_flip_Valid (f : Factory) (a b : Literal.t) :
  reachable f ->
  Literal.primitive f a = Some true -> get f (rhs a) <> None ->
  Literal.primitive f b = Some true -> get f (rhs b) <> None ->
  Complementary a b = true ->
  exists a' b',
    flip f a = Some a' /\ flip f b = Some b' /\ Valid a' b' = true.
Proof.
  intros Hreach Ha Hga Hb Hgb Hc.
  pose proof (reachable_Inv f Hreach) as HI.
  destruct (flip_primitive f a HI Ha Hga) as (a' & Fa & La & Ra & Pa).
  destruct (flip_primitive f b HI Hb Hgb) as (b' & Fb & Lb & Rb & Pb).
  exists a', b'. split; [exact Fa|]. split; [exact Fb|].
  unfold Valid. unfold Complementary in Hc.
  rewrite La, Lb, Ra, Rb, Pa, Pb.
  destruct (pos a), (pos b), (Term.eqb (lhs a) (lhs b)),
    (Term.eqb (rhs a) (rhs b)), (name (rhs a)), (name (rhs b));
    simpl in *; congruence.
Qed.

(** The literals [f(n1) = n1] and [f(n1) = n2] of the example factory. *)
Definition lit_f_n1 : Literal.t := pack true 2 3.
Definition lit_f_n2 : Literal.t := pack true 2 5.

Lemma Complementary_flip_Valid_witness :
  reachable fac5 /\
  Literal.primitive fac5 lit_f_n1 = Some true /\
  get fac5 (rhs lit_f_n1) <> None /\
  Literal.primitive fac5 lit_f_n2 = Some true /\
  get fac5 (rhs lit_f_n2) <> None /\
  Complementary lit_f_n1 lit_f_n2 = true /\
  exists a' b',
    flip fac5 lit_f_n1 = Some a' /\ flip fac5 lit_f_n2 = Some b' /\
    Valid a' b' = true.
Proof.
  assert (G1 : get fac5 (rhs lit_f_n1) <> None) by (vm_compute; discriminate).
  assert (G2 : get fac5 (rhs lit_f_n2) <> None) by (vm_compute; discriminate).
  split; [exact reachable_fac5|]. split; [reflexivity|]. split; [exact G1|].
  split; [reflexivity|]. split; [exact G2|]. split; [reflexivity|].
  exact (Complementary_flip_Valid fac5 lit_f_n1 lit_f_n2 reachable_fac5
           eq_refl G1 eq_refl G2 eq_refl).
Defined.

End LiteralFacts.

(** ** clause.h: equality and normalisation *)

Module ClauseFacts.
Import Literal Clause.

(** *** [operator==] *)

Lemma eq_outer_true (this c : list Lit) : eq_outer this c = true.
Proof.
  induction this as [|a this IH]; simpl; [reflexivity|].
  destruct (eq_inner a c); exact IH.
Qed.

(** The comparison looks at the sizes only. *)
Lemma eqb_is_size_eqb (this c : Clause.t) :
  Clause.eqb this c = (size this =? size c).
Proof.
  unfold Clause.eqb. destruct (size this =? size c); simpl; [|reflexivity].
  apply eq_outer_true.
Qed.

(** The unit clauses [f(n1) = n1] and [f(n1) = n2] of the example
    factory. *)
Definition clause_f_n1 : Clause.t := New_unit LiteralFacts.lit_f_n1.
Definition clause_f_n2 : Clause.t := New_unit LiteralFacts.lit_f_n2.

(** C2 (the code at the failing input).  Two unit clauses with different
    literals compare equal, although neither subsumes the other. *)
Theorem eqb_equates_different_unit_clauses :
  Literal.eqb LiteralFacts.lit_f_n1 LiteralFacts.lit_f_n2 = false /\
  Clause.eqb clause_f_n1 clause_f_n2 = true /\
  Clause.Subsumes clause_f_n1 clause_f_n2 = false.
Proof. repeat split; reflexivity. Qed.

(** *** The relations on literals that [Normalize] uses *)

Lemma eqb_refl (a : Literal.t) : Literal.eqb a a = true.
Proof.
  unfold Literal.eqb, Term.eqb. rewrite !Z.eqb_refl.
  destruct (pos a); reflexivity.
Qed.

(** Two literals that [operator==] equates have the same three fields. *)
Lemma eqb_fields (a b : Literal.t) :
  Literal.eqb a b = true <-> pos a = pos b /\ lhs a = lhs b /\ rhs a = rhs b.
Proof.
  unfold Literal.eqb, Term.eqb. rewrite !andb_true_iff, !Z.eqb_eq.
  rewrite Bool.eqb_true_iff. tauto.
Qed.

Lemma eqb_sym (a b : Literal.t) : Literal.eqb a b = Literal.eqb b a.
Proof.
  destruct (Literal.eqb a b) eqn:E1, (Literal.eqb b a) eqn:E2;
    try reflexivity.
  - apply eqb_fields in E1 as (H1 & H2 & H3).
    assert (Literal.eqb b a = true) by (apply eqb_fields; auto). congruence.
  - apply eqb_fields in E2 as (H1 & H2 & H3).
    assert (Literal.eqb a b = true) by (apply eqb_fields; auto). congruence.
Qed.

Lemma Valid_eqb_l (a a' b : Literal.t) :
  Literal.eqb a a' = true -> Valid a b = Valid a' b.
Proof.
  intros H. apply eqb_fields in H as (H1 & H2 & H3).
  unfold Valid. rewrite H1, H2, H3. reflexivity.
Qed.

Lemma Valid_sym (a b : Literal.t) : Valid a b = Valid b a.
Proof.
  unfold Valid, Term.eqb.
  rewrite (Z.eqb_sym (lhs a) (lhs b)), (Z.eqb_sym (rhs a) (rhs b)).
  destruct (pos a), (pos b), (lhs b =? lhs a), (rhs b =? rhs a),
    (Term.name (rhs a)), (Term.name (rhs b)); reflexivity.
Qed.

Lemma Valid_irrefl (a : Literal.t) : Valid a a = false.
Proof.
  unfold Valid, Term.eqb. rewrite !Z.eqb_refl.
  destruct (pos a), (Term.name (rhs a)); reflexivity.
Qed.

Lemma ProperlySubsumes_signs (a b : Literal.t) :
  ProperlySubsumes a b = true -> pos a = true /\ pos b = false.
Proof.
  unfold ProperlySubsumes. destruct (pos a), (pos b); auto;
    rewrite ?andb_false_r, ?andb_false_l; simpl;
    try discriminate; rewrite ?andb_false_r; discriminate.
Qed.

Lemma ProperlySubsumes_eqb_r (a b b' : Literal.t) :
  Literal.eqb b b' = true -> ProperlySubsumes a b = ProperlySubsumes a b'.
Proof.
  intros H. apply eqb_fields in H as (H1 & H2 & H3).
  unfold ProperlySubsumes. rewrite H1, H2, H3. reflexivity.
Qed.

Lemma eqb_pos (a b : Literal.t) : Literal.eqb a b = true -> pos a = pos b.
Proof. intros H. apply eqb_fields in H. tauto. Qed.

(** A literal that is valid with [y] is valid with every literal that [y]
    properly subsumes: [t = n], [t <> n] and [t <> n'] for [n <> n']. *)
Lemma Valid_ProperlySubsumes (y w z : Literal.t) :
  Valid y w = true -> ProperlySubsumes y z = true -> Valid w z = true.
Proof.
  unfold Valid, ProperlySubsumes, Term.eqb.
  generalize (lhs y) (lhs w) (lhs z) (rhs y) (rhs w) (rhs z)
             (pos y) (pos w) (pos z).
  intros ly lw lz ry rw rz py pw pz.
  destruct (Z.eqb_spec ly lw) as [<-|]; [|destruct py, pw; discriminate].
  destruct (Z.eqb_spec ly lz) as [_|]; [|discriminate].
  destruct (Z.eqb_spec ry rw) as [<-|].
  - generalize (Term.name ry) (Term.name rz). intros ny nz.
    destruct py, pw, pz, ny, nz, (ry =? rz); try discriminate; reflexivity.
  - generalize (Term.name ry) (Term.name rw) (Term.name rz). intros ny nw nz.
    destruct py, pw, pz, ny, nw, nz, (ry =? rz), (rw =? rz);
      try discriminate; reflexivity.
Qed.

(** *** [Normalize] on lists

    [scan x K] is the first inner loop over the kept literals [K];
    [norm K rest] is the outer loop, with [K] the literals kept so far and
    [rest] the unread part of the array; [None] stands for the result -1. *)

#[local] Arguments Valid : simpl never.
#[local] Arguments Literal.Subsumes : simpl never.
#[local] Arguments ProperlySubsumes : simpl never.
#[local] Arguments Literal.eqb : simpl never.

Fixpoint scan (x : Lit) (K : list Lit) : verdict :=
  match K with
  | [] => Keep
  | k :: K' =>
    if Valid x k then RetValid
    else if Literal.Subsumes x k then Skip
    else scan x K'
  end.

Fixpoint norm (K rest : list Lit) : option (list Lit) :=
  match rest with
  | [] => Some K
  | x :: R =>
    match scan x K with
    | RetValid => None
    | Skip => norm K R
    | Keep =>
      if existsb (ProperlySubsumes x) R then norm K R
      else norm (K ++ [x]) R
    end
  end.

Lemma Normalize_first_scan (as_ : list Lit) (i2 : nat) (L : list Lit) :
  forall j : nat,
    (forall m, (m < length L)%nat -> get as_ (j + m) = nth m L null_literal) ->
    Normalize_first false as_ i2 (length L) j = scan (get as_ i2) L.
Proof.
  induction L as [|k L IH]; intros j H;
    cbn [length Normalize_first scan negb andb]; [reflexivity|].
  pose proof (H O ltac:(cbn [length]; lia)) as H0.
  rewrite Nat.add_0_r in H0. cbn [nth] in H0. rewrite H0.
  destruct (Valid (get as_ i2) k); [reflexivity|].
  destruct (Literal.Subsumes (get as_ i2) k); [reflexivity|].
  apply IH. intros m Hm.
  replace (S j + m)%nat with (j + S m)%nat by lia.
  apply (H (S m)). cbn [length]. lia.
Qed.

Lemma Normalize_second_scan (as_ : list Lit) (i2 : nat) (R : list Lit) :
  forall j : nat,
    (forall m, (m < length R)%nat -> get as_ (j + m) = nth m R null_literal) ->
    Normalize_second as_ i2 (length R) j =
    if existsb (ProperlySubsumes (get as_ i2)) R then Skip else Keep.
Proof.
  induction R as [|r R IH]; intros j H;
    cbn [length Normalize_second existsb orb]; [reflexivity|].
  pose proof (H O ltac:(cbn [length]; lia)) as H0.
  rewrite Nat.add_0_r in H0. cbn [nth] in H0. rewrite H0.
  destruct (ProperlySubsumes (get as_ i2) r); [reflexivity|].
  cbn [orb]. apply IH. intros m Hm.
  replace (S j + m)%nat with (j + S m)%nat by lia.
  apply (H (S m)). cbn [length]. lia.
Qed.

Lemma set_app (K T : list Lit) (y x : Lit) :
  set (K ++ y :: T) (length K) x = K ++ x :: T.
Proof. induction K as [|k K IH]; simpl; [reflexivity|]. rewrite IH. reflexivity. Qed.

Lemma get_app_l (K T : list Lit) (m : nat) :
  (m < length K)%nat -> get (K ++ T) m = nth m K null_literal.
Proof. intros H. unfold get. apply app_nth1. exact H. Qed.

Lemma get_app_r (K T : list Lit) (m : nat) :
  get (K ++ T) (length K + m) = nth m T null_literal.
Proof.
  unfold get. rewrite app_nth2 by lia. f_equal. lia.
Qed.

(** The array loop computes [norm]: on [Some K'] the array starts with
    [K'] and the result is its length, on [None] the array starts with the
    null literal and the result is -1. *)
Lemma Normalize_loop_norm (rest : list Lit) :
  forall (K G as_ : list Lit) (sz : nat),
    as_ = K ++ G ++ rest -> sz = length as_ ->
    match norm K rest with
    | Some K' =>
      exists T,
        Normalize_loop false sz as_ (length K) (length K + length G)
                       (length rest) = (K' ++ T, Z.of_nat (length K'))
    | None =>
      exists T,
        Normalize_loop false sz as_ (length K) (length K + length G)
                       (length rest) = (null_literal :: T, -1)
    end.
Proof.
  induction rest as [|x R IH]; intros K G as_ sz Has Hsz.
  - cbn [norm length Normalize_loop]. exists (G ++ []). subst as_.
    reflexivity.
  - assert (Hx : get as_ (length K + length G) = x).
    { subst as_. rewrite app_assoc, <- length_app.
      rewrite <- (Nat.add_0_r (length (K ++ G))), get_app_r. reflexivity. }
    cbn [norm length Normalize_loop].
    rewrite (Normalize_first_scan as_ _ K 0)
      by (intros m Hm; subst as_; cbn [Nat.add]; apply get_app_l, Hm).
    rewrite Hx.
    assert (Hlen : (sz - (length K + length G + 1))%nat = length R).
    { subst sz as_. rewrite !length_app. cbn [length]. lia. }
    rewrite Hlen.
    rewrite (Normalize_second_scan as_ _ R)
      by (intros m Hm; subst as_;
          replace (K ++ G ++ x :: R) with ((K ++ G ++ [x]) ++ R)
            by (rewrite <- !app_assoc; reflexivity);
          replace (length K + length G + 1 + m)%nat
            with (length (K ++ G ++ [x]) + m)%nat
            by (rewrite !length_app; cbn [length]; lia);
          apply get_app_r).
    rewrite Hx.
    assert (Hskip :
      match norm K R with
      | Some K' =>
        exists T, Normalize_loop false sz as_ (length K)
                    (S (length K + length G)) (length R)
                  = (K' ++ T, Z.of_nat (length K'))
      | None =>
        exists T, Normalize_loop false sz as_ (length K)
                    (S (length K + length G)) (length R)
                  = (null_literal :: T, -1)
      end).
    { specialize (IH K (G ++ [x]) as_ sz).
      rewrite length_app in IH. cbn [length] in IH.
      replace (length K + (length G + 1))%nat
        with (S (length K + length G)) in IH by lia.
      apply IH; [|exact Hsz]. subst as_. rewrite <- app_assoc. reflexivity. }
    destruct (scan x K) eqn:Hscan.
    + destruct K as [|k K']; [cbn [scan] in Hscan; discriminate|].
      subst as_. cbn [app set]. eauto.
    + exact Hskip.
    + destruct (existsb (ProperlySubsumes x) R); [exact Hskip|].
      destruct G as [|g G'].
      * specialize (IH (K ++ [x]) [] (set as_ (length K) x) sz).
        rewrite length_app in IH. cbn [length] in IH.
        cbn [length]. rewrite !Nat.add_0_r in *.
        replace (length K + 1)%nat with (S (length K)) in IH by lia.
        apply IH.
        -- subst as_. cbn [app]. rewrite set_app, <- app_assoc. reflexivity.
        -- subst sz as_. cbn [app]. rewrite set_app, !length_app. reflexivity.
      * specialize (IH (K ++ [x]) (G' ++ [x]) (set as_ (length K) x) sz).
        rewrite !length_app in IH. cbn [length] in IH.
        replace (length K + 1 + (length G' + 1))%nat
          with (S (length K + S (length G'))) in IH by lia.
        replace (length K + 1)%nat with (S (length K)) in IH by lia.
        cbn [length]. apply IH.
        -- subst as_. cbn [app]. rewrite set_app, <- !app_assoc. reflexivity.
        -- subst sz as_. cbn [app]. rewrite set_app, !length_app.
           cbn [length]. rewrite !length_app. reflexivity.
Qed.

Lemma New_norm (as_ : list Lit) :
  New as_ false =
  match norm [] as_ with
  | Some K' => K'
  | None => [null_literal]
  end.
Proof.
  unfold New, make, Normalize. cbn [negb].
  pose proof (Normalize_loop_norm as_ [] [] as_ (length as_) eq_refl eq_refl)
    as H.
  cbn [length Nat.add] in H.
  destruct (norm [] as_) as [K'|]; destruct H as [T H]; rewrite H.
  - replace (Z.of_nat (length K') >=? 0) with true
      by (symmetry; apply Z.geb_le; lia).
    rewrite Nat2Z.id, firstn_app, Nat.sub_diag, firstn_all.
    cbn [firstn]. apply app_nil_r.
  - reflexivity.
Qed.

(** *** What [norm] keeps *)

Lemma scan_Keep (x : Lit) (K : list Lit) :
  scan x K = Keep ->
  forall k, In k K -> Valid x k = false /\ Literal.Subsumes x k = false.
Proof.
  induction K as [|k0 K IH]; cbn [scan]; intros H k Hk; [destruct Hk|].
  destruct (Valid x k0) eqn:EV; [discriminate|].
  destruct (Literal.Subsumes x k0) eqn:ES; [discriminate|].
  destruct Hk as [<-|Hk]; [split; assumption | exact (IH H k Hk)].
Qed.

Lemma scan_Skip (x : Lit) (K : list Lit) :
  scan x K = Skip -> exists k, In k K /\ Literal.Subsumes x k = true.
Proof.
  induction K as [|k0 K IH]; cbn [scan]; intros H; [discriminate|].
  destruct (Valid x k0) eqn:EV; [discriminate|].
  destruct (Literal.Subsumes x k0) eqn:ES.
  - exists k0. split; [left; reflexivity | exact ES].
  - destruct (IH H) as (k & Hk & HS). exists k. split; [right|]; assumption.
Qed.

(** Two kept literals are independent: neither is valid with, nor
    subsumes, the other. *)
Definition independent (a b : Lit) : Prop :=
  Valid a b = false /\ Literal.Subsumes a b = false /\
  Valid b a = false /\ Literal.Subsumes b a = false.

Lemma ForallOrdPairs_snoc {A : Type} (R : A -> A -> Prop) (l : list A) (x : A) :
  ForallOrdPairs R l -> (forall k, In k l -> R k x) ->
  ForallOrdPairs R (l ++ [x]).
Proof.
  induction 1 as [|a l Ha _ IH]; intros H; cbn [app].
  - constructor; [constructor | constructor].
  - constructor.
    + apply Forall_app. split.
      * exact Ha.
      * constructor; [|constructor]. apply H. left. reflexivity.
    + apply IH. intros k Hk. apply H. right. exact Hk.
Qed.

Lemma ForallOrdPairs_nth {A : Type} (R : A -> A -> Prop) (d : A) (l : list A) :
  ForallOrdPairs R l ->
  forall i j, (i < j)%nat -> (j < length l)%nat -> R (nth i l d) (nth j l d).
Proof.
  induction 1 as [|a l Ha _ IH]; intros i j Hij Hj; cbn [length] in Hj;
    [lia|].
  destruct j as [|j]; [lia|]. destruct i as [|i]; cbn [nth].
  - rewrite Forall_forall in Ha. apply Ha. apply nth_In. lia.
  - apply IH; lia.
Qed.

Section Norm.
Variable inp : list Lit.

(** A literal read so far is represented among the kept ones, or it
    properly subsumes some literal of the input. *)
Definition represented (K : list Lit) (y : Lit) : Prop :=
  (exists k, In k K /\ Literal.eqb y k = true) \/
  (exists z, In z inp /\ ProperlySubsumes y z = true).

Record norm_inv (K P rest : list Lit) : Prop := {
  ni_indep : ForallOrdPairs independent K;
  ni_rest : forall k r, In k K -> In r rest -> ProperlySubsumes k r = false;
  ni_sub : forall k, In k K -> In k inp;
  ni_rest_sub : forall r, In r rest -> In r inp;
  ni_rep : forall y, In y P -> represented K y
}.

Lemma represented_mono (K K' : list Lit) (y : Lit) :
  (forall k, In k K -> In k K') -> represented K y -> represented K' y.
Proof.
  intros H [(k & Hk & E)|Hz]; [left; exists k; auto | right; exact Hz].
Qed.

Lemma norm_inv_step_skip (K P R : list Lit) (x : Lit) :
  norm_inv K P (x :: R) -> represented K x -> norm_inv K (P ++ [x]) R.
Proof.
  intros [H1 H2 H3 H4 H5] Hx. split.
  - exact H1.
  - intros k r Hk Hr. apply H2; [exact Hk | right; exact Hr].
  - exact H3.
  - intros r Hr. apply H4. right. exact Hr.
  - intros y Hy. apply in_app_or in Hy as [Hy|[<-|[]]]; [apply H5, Hy|].
    exact Hx.
Qed.

Lemma norm_inv_step_keep (K P R : list Lit) (x : Lit) :
  norm_inv K P (x :: R) -> scan x K = Keep ->
  existsb (ProperlySubsumes x) R = false ->
  norm_inv (K ++ [x]) (P ++ [x]) R.
Proof.
  intros [H1 H2 H3 H4 H5] Hscan Hex. split.
  - apply ForallOrdPairs_snoc; [exact H1|]. intros k Hk.
    destruct (scan_Keep x K Hscan k Hk) as [HV HS].
    unfold independent. rewrite (Valid_sym k x), HV, HS.
    split; [reflexivity|]. split; [|split; reflexivity].
    unfold Literal.Subsumes in *.
    apply orb_false_iff in HS as [HE _].
    rewrite (eqb_sym k x), HE. cbn [orb].
    apply H2; [exact Hk | left; reflexivity].
  - intros k r Hk Hr. apply in_app_or in Hk as [Hk|[<-|[]]].
    + apply H2; [exact Hk | right; exact Hr].
    + destruct (ProperlySubsumes x r) eqn:E; [|reflexivity].
      assert (existsb (ProperlySubsumes x) R = true)
        by (apply existsb_exists; exists r; auto).
      congruence.
  - intros k Hk. apply in_app_or in Hk as [Hk|[<-|[]]];
      [apply H3, Hk | apply H4; left; reflexivity].
  - intros r Hr. apply H4. right. exact Hr.
  - intros y Hy. apply in_app_or in Hy as [Hy|[<-|[]]].
    + apply (represented_mono K); [|apply H5, Hy].
      intros k Hk. apply in_or_app. left. exact Hk.
    + left. exists x. split; [apply in_or_app; right; left; reflexivity|].
      apply eqb_refl.
Qed.

Lemma norm_inv_final (rest : list Lit) :
  forall K P K', norm_inv K P rest -> norm K rest = Some K' ->
                 norm_inv K' (P ++ rest) [].
Proof.
  induction rest as [|x R IH]; intros K P K' HI Hn; cbn [norm] in Hn.
  - injection Hn as <-. rewrite app_nil_r. exact HI.
  - replace (P ++ x :: R) with ((P ++ [x]) ++ R)
      by (rewrite <- app_assoc; reflexivity).
    destruct (scan x K) eqn:Hscan; [discriminate| |].
    + apply (IH K); [|exact Hn]. apply norm_inv_step_skip; [exact HI|].
      destruct (scan_Skip x K Hscan) as (k & Hk & HS).
      unfold Literal.Subsumes in HS. apply orb_true_iff in HS as [HE|HP].
      * left. exists k. auto.
      * right. exists k. split; [exact (ni_sub _ _ _ HI k Hk) | exact HP].
    + destruct (existsb (ProperlySubsumes x) R) eqn:Hex.
      * apply (IH K); [|exact Hn]. apply norm_inv_step_skip; [exact HI|].
        apply existsb_exists in Hex as (r & Hr & HP).
        right. exists r. split; [|exact HP].
        apply (ni_rest_sub _ _ _ HI). right. exact Hr.
      * apply (IH (K ++ [x])); [|exact Hn].
        apply norm_inv_step_keep; assumption.
Qed.
End Norm.

Lemma norm_inv_init (inp : list Lit) : norm_inv inp [] [] inp.
Proof.
  split.
  - constructor.
  - intros k r [].
  - intros k [].
  - auto.
  - intros y [].
Qed.

(** A negative literal is represented by a kept literal. *)
Lemma represented_negative (inp K : list Lit) (y : Lit) :
  pos y = false -> represented inp K y ->
  exists k, In k K /\ Literal.eqb y k = true.
Proof.
  intros Hy [H|(z & _ & HP)]; [exact H|].
  apply ProperlySubsumes_signs in HP as [HP _]. congruence.
Qed.

Lemma Valid_negative (y w : Lit) :
  Valid y w = true -> pos y = true -> pos w = false.
Proof.
  unfold Valid. intros H Hy. rewrite Hy in H.
  destruct (pos w); [|reflexivity].
  cbn [Bool.eqb negb andb] in H.
  rewrite !andb_false_r in H. discriminate.
Qed.

Lemma independent_not_Valid (K : list Lit) (k k' : Lit) :
  ForallOrdPairs independent K -> In k K -> In k' K -> Valid k k' = false.
Proof.
  intros H Hk Hk'.
  destruct (ForallOrdPairs_In H k k' Hk Hk') as [<-|[HI|HI]].
  - apply Valid_irrefl.
  - apply HI.
  - apply HI.
Qed.

(** If [norm] keeps a clause, the input had no valid pair. *)
Lemma norm_Some_no_Valid (inp K' : list Lit) (y w : Lit) :
  norm [] inp = Some K' -> In y inp -> In w inp -> Valid y w = false.
Proof.
  intros Hn Hy Hw.
  pose proof (norm_inv_final inp inp [] [] K' (norm_inv_init inp) Hn) as HI.
  cbn [app] in HI.
  assert (Main : forall y w, In y inp -> In w inp ->
            Valid y w = true ->
            (exists k, In k K' /\ Literal.eqb y k = true) -> False).
  { clear y w Hy Hw. intros y w Hy Hw HV (k & Hk & Ek).
    destruct (ni_rep _ _ _ _ HI w Hw) as [(k' & Hk' & Ek')|(z & Hz & HP)].
    - pose proof (independent_not_Valid K' k k' (ni_indep _ _ _ _ HI) Hk Hk')
        as Hno.
      rewrite <- (Valid_eqb_l y k k' Ek) in Hno.
      rewrite Valid_sym, <- (Valid_eqb_l w k' y Ek'), Valid_sym in Hno.
      congruence.
    - rewrite Valid_sym in HV.
      pose proof (Valid_ProperlySubsumes w y z HV HP) as HV'.
      destruct (ProperlySubsumes_signs _ _ HP) as [_ Hzneg].
      destruct (represented_negative inp K' z Hzneg (ni_rep _ _ _ _ HI z Hz))
        as (k'' & Hk'' & Ek'').
      pose proof (independent_not_Valid K' k k'' (ni_indep _ _ _ _ HI) Hk Hk'')
        as Hno.
      rewrite <- (Valid_eqb_l y k k'' Ek) in Hno.
      rewrite Valid_sym, <- (Valid_eqb_l z k'' y Ek''), Valid_sym in Hno.
      congruence. }
  destruct (Valid y w) eqn:HV; [exfalso|reflexivity].
  destruct (ni_rep _ _ _ _ HI y Hy) as [Hrep|(z & Hz & HP)].
  - exact (Main y w Hy Hw HV Hrep).
  - destruct (ProperlySubsumes_signs _ _ HP) as [Hypos _].
    pose proof (Valid_negative y w HV Hypos) as Hwneg.
    rewrite Valid_sym in HV.
    exact (Main w y Hw Hy HV
             (represented_negative inp K' w Hwneg (ni_rep _ _ _ _ HI w Hw))).
Qed.

(** The literal [f(n1) <> n1] of the example factory. *)
Definition lit_f_neq_n1 : Literal.t := LiteralFacts.pack false 2 3.

(** C6.  A clause built by [Clause::Factory::New] without the
    guaranteed-normalized shortcut is normalized: at different positions
    no literal is valid together with, or subsumes, the other, which is
    what the debug check [Normalized()] tests; and if two literals of the
    input array at different positions are jointly valid, the clause is
    the unit clause of the null literal. *)
Theorem New_is_normalized (as_ : list Lit) :
  (forall i j : nat,
      (i < length (New as_ false))%nat -> (j < length (New as_ false))%nat ->
      i <> j ->
      Valid (get (New as_ false) i) (get (New as_ false) j) = false /\
      Literal.Subsumes (get (New as_ false) i) (get (New as_ false) j)
        = false) /\
  Normalized (New as_ false) = true /\
  ((exists i j : nat,
      (i < length as_)%nat /\ (j < length as_)%nat /\ i <> j /\
      Valid (get as_ i) (get as_ j) = true) ->
   New as_ false = [null_literal] /\ Clause.valid (New as_ false) = true).
Proof.
  assert (Hpairs : forall i j : nat,
      (i < length (New as_ false))%nat -> (j < length (New as_ false))%nat ->
      i <> j ->
      Valid (get (New as_ false) i) (get (New as_ false) j) = false /\
      Literal.Subsumes (get (New as_ false) i) (get (New as_ false) j)
        = false).
  { rewrite New_norm. destruct (norm [] as_) as [K'|] eqn:Hn.
    - pose proof (norm_inv_final as_ as_ [] [] K' (norm_inv_init as_) Hn)
        as HI.
      pose proof (ForallOrdPairs_nth independent null_literal K'
                    (ni_indep _ _ _ _ HI)) as Hnth.
      intros i j Hi Hj Hij. unfold get.
      destruct (Nat.lt_ge_cases i j) as [Hlt|Hge].
      + destruct (Hnth i j Hlt Hj) as (H1 & H2 & _ & _). auto.
      + destruct (Hnth j i ltac:(lia) Hi) as (_ & _ & H1 & H2). auto.
    - intros i j Hi Hj Hij. cbn [length] in Hi, Hj. lia. }
  split; [exact Hpairs|]. split.
  - unfold Normalized. apply forallb_forall. intros i Hi.
    apply forallb_forall. intros j Hj.
    apply in_seq in Hi. apply in_seq in Hj.
    destruct (Nat.eqb_spec i j) as [|Hij]; [reflexivity|].
    destruct (Hpairs i j ltac:(lia) ltac:(lia) Hij) as [H1 H2].
    rewrite H1, H2. reflexivity.
  - intros (i & j & Hi & Hj & Hij & HV).
    rewrite New_norm. destruct (norm [] as_) as [K'|] eqn:Hn.
    + rewrite (norm_Some_no_Valid as_ K' (get as_ i) (get as_ j) Hn) in HV.
      * discriminate.
      * apply nth_In. exact Hi.
      * apply nth_In. exact Hj.
    + split; reflexivity.
Qed.

Lemma New_is_normalized_witness :
  (exists i j : nat,
      (i < length [LiteralFacts.lit_f_n1; lit_f_neq_n1])%nat /\
      (j < length [LiteralFacts.lit_f_n1; lit_f_neq_n1])%nat /\ i <> j /\
      Valid (get [LiteralFacts.lit_f_n1; lit_f_neq_n1] i)
            (get [LiteralFacts.lit_f_n1; lit_f_neq_n1] j) = true) /\
  New [LiteralFacts.lit_f_n1; lit_f_neq_n1] false = [null_literal] /\
  Clause.valid (New [LiteralFacts.lit_f_n1; lit_f_neq_n1] false) = true.
Proof.
  assert (H : exists i j : nat,
      (i < length [LiteralFacts.lit_f_n1; lit_f_neq_n1])%nat /\
      (j < length [LiteralFacts.lit_f_n1; lit_f_neq_n1])%nat /\ i <> j /\
      Valid (get [LiteralFacts.lit_f_n1; lit_f_neq_n1] i)
            (get [LiteralFacts.lit_f_n1; lit_f_neq_n1] j) = true).
  { exists 0%nat, 1%nat. cbn [length]. split; [lia|]. split; [lia|].
    split; [discriminate|]. vm_compute. reflexivity. }
  split; [exact H|].
  exact (proj2 (proj2 (New_is_normalized
                         [LiteralFacts.lit_f_n1; lit_f_neq_n1])) H).
Defined.

(** A clause that normalisation shortens: [f(n1) = n1] is dropped beside
    [f(n1) <> n2], which it subsumes. *)
Example New_drops_subsuming_literal :
  New [LiteralFacts.lit_f_n1; LiteralFacts.pack false 2 5] false
  = [LiteralFacts.pack false 2 5].
Proof. vm_compute. reflexivity. Qed.

End ClauseFacts.

(** ** set.c: sorted vectors *)

Module SetFacts.
Import Vector CSet.

(** *** Results that need room in the [int] range *)

(** [ores room post o]: the computation [o] has a result whenever [room]
    holds, and every result it has satisfies [post]. *)
Definition ores {T : Type} (room : Prop) (post : T -> Prop) (o : option T)
    : Prop :=
  (room -> o <> None) /\ (forall r, o = Some r -> post r).

Lemma ores_Some {T : Type} (room : Prop) (post : T -> Prop) (r : T) :
  post r -> ores room post (Some r).
Proof. intros H. split; [discriminate|]. intros r' [= <-]. exact H. Qed.

Lemma ores_None {T : Type} (room : Prop) (post : T -> Prop) :
  ~ room -> ores room post None.
Proof. intros H. split; [intros Hr; contradiction | discriminate]. Qed.

Lemma ores_bind {T U : Type} {room : Prop} {P : T -> Prop} {Q : U -> Prop}
    {o : option T} {k : T -> option U} :
  ores room P o -> (forall x, P x -> ores room Q (k x)) ->
  ores room Q (obind o k).
Proof.
  intros [H1 H2] Hk. destruct o as [x|]; cbn [obind].
  - apply Hk, H2. reflexivity.
  - split; [|discriminate]. intros Hr _. exact (H1 Hr eq_refl).
Qed.

Lemma ores_weaken {T : Type} {room room' : Prop} {P P' : T -> Prop}
    {o : option T} :
  ores room P o -> (room' -> room) -> (forall r, P r -> P' r) ->
  ores room' P' o.
Proof.
  intros [H1 H2] Hr HP. split.
  - intros H. apply H1, Hr, H.
  - intros r E. apply HP, H2, E.
Qed.

Lemma ores_total {T : Type} {room : Prop} {P : T -> Prop} {o : option T} :
  ores room P o -> room -> exists r, o = Some r /\ P r.
Proof.
  intros [H1 H2] Hr. destruct o as [r|]; [eauto|].
  exfalso. exact (H1 Hr eq_refl).
Qed.

Lemma ores_partial {T : Type} {room : Prop} {P : T -> Prop} {o : option T} :
  ores room P o -> forall r, o = Some r -> P r.
Proof. intros [_ H2]. exact H2. Qed.

Lemma int_Some (x : Z) : INT_MIN <= x <= INT_MAX -> int x = Some x.
Proof.
  intros H. unfold int.
  replace (INT_MIN <=? x) with true by (symmetry; apply Z.leb_le; lia).
  replace (x <=? INT_MAX) with true by (symmetry; apply Z.leb_le; lia).
  reflexivity.
Qed.

(** An [int] result exists when the value is in range, and is that
    value. *)
Lemma int_ores (room : Prop) (x : Z) :
  (room -> INT_MIN <= x <= INT_MAX) -> ores room (fun y => y = x) (int x).
Proof.
  intros H. unfold int.
  destruct ((INT_MIN <=? x) && (x <=? INT_MAX)) eqn:E.
  - apply ores_Some. reflexivity.
  - apply ores_None. intros Hr. apply H in Hr.
    apply andb_false_iff in E. destruct E as [E|E]; apply Z.leb_gt in E; lia.
Qed.

Section Sets.
Context {A : Type}.
Variable c : compar_t A.

(** The comparator is a three-way comparison of a total preorder:
    swapping the arguments swaps the sign, and [<=] is transitive. *)
Hypothesis c_anti : forall a b, c a b < 0 <-> c b a > 0.
Hypothesis c_trans : forall a b d, c a b <= 0 -> c b d <= 0 -> c a d <= 0.

Lemma c_eq_sym (a b : A) : c a b = 0 -> c b a = 0.
Proof.
  intros H. pose proof (c_anti a b). pose proof (c_anti b a). lia.
Qed.

Lemma c_lt_le (a b d : A) : c a b < 0 -> c b d <= 0 -> c a d < 0.
Proof.
  intros H1 H2.
  assert (H3 : c a d <= 0) by (apply (c_trans a b d); lia).
  destruct (Z.eq_dec (c a d) 0) as [E|]; [|lia].
  apply c_eq_sym in E.
  assert (c b a <= 0) by (apply (c_trans b d a); lia).
  pose proof (c_anti a b). lia.
Qed.

Lemma c_le_lt (a b d : A) : c a b <= 0 -> c b d < 0 -> c a d < 0.
Proof.
  intros H1 H2.
  assert (H3 : c a d <= 0) by (apply (c_trans a b d); lia).
  destruct (Z.eq_dec (c a d) 0) as [E|]; [|lia].
  apply c_eq_sym in E.
  assert (c d b <= 0) by (apply (c_trans d a b); lia).
  pose proof (c_anti b d). lia.
Qed.

Lemma c_lt_trans (a b d : A) : c a b < 0 -> c b d < 0 -> c a d < 0.
Proof. intros H1 H2. apply (c_lt_le a b d); lia. Qed.

Lemma c_gt_lt (a b : A) : c a b > 0 -> c b a < 0.
Proof. intros H. apply c_anti. exact H. Qed.

(** *** Strictly sorted lists *)

Definition lt (a b : A) : Prop := c a b < 0.
Definition sorted (l : list A) : Prop := StronglySorted lt l.

Lemma sorted_app (l1 l2 : list A) :
  sorted l1 -> sorted l2 ->
  (forall x y, In x l1 -> In y l2 -> lt x y) ->
  sorted (l1 ++ l2).
Proof.
  intros H1 H2 H. induction H1 as [|a l1 Hs IH Ha]; cbn [app];
    [exact H2|].
  constructor.
  - apply IH. intros x y Hx Hy. apply H; [right|]; assumption.
  - apply Forall_app. split; [exact Ha|].
    apply Forall_forall. intros y Hy. apply H; [left; reflexivity|exact Hy].
Qed.

Lemma sorted_app_inv (l1 l2 : list A) :
  sorted (l1 ++ l2) ->
  sorted l1 /\ sorted l2 /\ (forall x y, In x l1 -> In y l2 -> lt x y).
Proof.
  induction l1 as [|a l1 IH]; cbn [app]; intros H.
  - split; [constructor|]. split; [exact H|]. intros x y [].
  - apply StronglySorted_inv in H as [Hs Ha].
    destruct (IH Hs) as (I1 & I2 & I3).
    apply Forall_app in Ha as [Ha1 Ha2]. split; [|split].
    + constructor; assumption.
    + exact I2.
    + intros x y [<-|Hx] Hy.
      * rewrite Forall_forall in Ha2. apply Ha2, Hy.
      * apply I3; assumption.
Qed.

Lemma sorted_skipn (n : nat) (l : list A) : sorted l -> sorted (skipn n l).
Proof.
  intros H. rewrite <- (firstn_skipn n l) in H.
  apply sorted_app_inv in H. tauto.
Qed.

Lemma sorted_firstn (n : nat) (l : list A) : sorted l -> sorted (firstn n l).
Proof.
  intros H. rewrite <- (firstn_skipn n l) in H.
  apply sorted_app_inv in H. tauto.
Qed.

Lemma sorted_firstn_skipn (n m : nat) (l : list A) :
  sorted l -> (n <= m)%nat ->
  forall x y, In x (firstn n l) -> In y (skipn m l) -> lt x y.
Proof.
  intros H Hnm x y Hx Hy.
  rewrite <- (firstn_skipn n l) in H.
  apply sorted_app_inv in H as (_ & _ & H). apply H; [exact Hx|].
  replace m with ((m - n) + n)%nat in Hy by lia.
  rewrite <- skipn_skipn in Hy.
  rewrite <- (firstn_skipn (m - n) (skipn n l)).
  apply in_or_app. right. exact Hy.
Qed.

(** In a sorted list an earlier element is below a later one. *)
Lemma sorted_nth_error (l : list A) (i j : nat) (x y : A) :
  sorted l -> (i < j)%nat ->
  nth_error l i = Some x -> nth_error l j = Some y -> lt x y.
Proof.
  intros H Hij Hx Hy.
  apply (sorted_firstn_skipn (S i) j l H ltac:(lia)).
  - apply nth_error_In with (n := i).
    rewrite nth_error_firstn.
    destruct (Nat.ltb_spec i (S i)); [exact Hx|lia].
  - apply nth_error_In with (n := O).
    rewrite nth_error_skipn, Nat.add_0_r. exact Hy.
Qed.

Lemma sorted_remove (n : nat) (l : list A) :
  sorted l -> sorted (firstn n l ++ skipn (S n) l).
Proof.
  intros H. apply sorted_app.
  - apply sorted_firstn, H.
  - apply sorted_skipn, H.
  - apply sorted_firstn_skipn; [exact H | lia].
Qed.

Lemma sorted_insert (n : nat) (l : list A) (e : A) :
  sorted l ->
  (forall x, In x (firstn n l) -> lt x e) ->
  (forall y, In y (skipn n l) -> lt e y) ->
  sorted (firstn n l ++ e :: skipn n l).
Proof.
  intros H H1 H2. apply sorted_app.
  - apply sorted_firstn, H.
  - constructor; [apply sorted_skipn, H|].
    apply Forall_forall. exact H2.
  - intros x y Hx [<-|Hy]; [apply H1, Hx|].
    apply (sorted_firstn_skipn n n l H (Nat.le_refl n)); assumption.
Qed.

Lemma sorted_snoc (l : list A) (e : A) :
  sorted l -> (forall x, In x l -> lt x e) -> sorted (l ++ [e]).
Proof.
  intros H H1. apply sorted_app; [exact H | repeat constructor|].
  intros x y Hx [<-|[]]. apply H1, Hx.
Qed.

Lemma In_firstn_nth (n : nat) (l : list A) (x : A) :
  In x (firstn n l) -> exists k, (k < n)%nat /\ nth_error l k = Some x.
Proof.
  intros H. apply In_nth_error in H as [k Hk]. exists k.
  rewrite nth_error_firstn in Hk.
  destruct (Nat.ltb_spec k n); [auto|discriminate].
Qed.

Lemma In_skipn_nth (n : nat) (l : list A) (x : A) :
  In x (skipn n l) -> exists k, (n <= k)%nat /\ nth_error l k = Some x.
Proof.
  intros H. apply In_nth_error in H as [k Hk]. exists (n + k)%nat.
  rewrite nth_error_skipn in Hk. split; [lia|exact Hk].
Qed.

Lemma below_all (l : list A) (n : nat) (y e : A) :
  sorted l -> nth_error l n = Some y -> lt y e ->
  forall x, In x (firstn (S n) l) -> lt x e.
Proof.
  intros Hs Hy Hlt x Hx. apply In_firstn_nth in Hx as (k & Hk & Hx).
  destruct (Nat.eq_dec k n) as [->|Hne].
  - congruence.
  - apply (c_lt_trans x y e); [|exact Hlt].
    apply (sorted_nth_error l k n x y Hs); [lia|assumption..].
Qed.

Lemma above_all (l : list A) (n : nat) (y e : A) :
  sorted l -> nth_error l n = Some y -> lt e y ->
  forall x, In x (skipn n l) -> lt e x.
Proof.
  intros Hs Hy Hlt x Hx. apply In_skipn_nth in Hx as (k & Hk & Hx).
  destruct (Nat.eq_dec k n) as [->|Hne].
  - congruence.
  - apply (c_lt_trans e y x); [exact Hlt|].
    apply (sorted_nth_error l n k y x Hs); [lia|assumption..].
Qed.

(** *** Well-formed vectors and sets *)

(** An owning vector: the size counts the stored cells and the capacity
    is positive. *)
Definition vwf (v : vector_t A) : Prop :=
  size v = Z.of_nat (length (array v)) /\ 0 < capacity v.

Definition set_ok (s : set_t A) : Prop :=
  compar s = c /\ vwf (vec s) /\ sorted (array (vec s)).

Lemma vector_get_nth (v : vector_t A) (i : Z) :
  0 <= i < size v -> vector_get v i = nth_error (array v) (Z.to_nat i).
Proof.
  intros H. unfold vector_get.
  replace (0 <=? i) with true by (symmetry; apply Z.leb_le; lia).
  replace (i <? size v) with true by (symmetry; apply Z.ltb_lt; lia).
  reflexivity.
Qed.

Lemma vector_get_Some (v : vector_t A) (i : Z) :
  vwf v -> 0 <= i < size v ->
  exists x, vector_get v i = Some x /\
            nth_error (array v) (Z.to_nat i) = Some x.
Proof.
  intros [Hsz _] H. rewrite vector_get_nth by exact H.
  destruct (nth_error (array v) (Z.to_nat i)) as [x|] eqn:E; [eauto|].
  apply nth_error_None in E. lia.
Qed.

Lemma vwf_init_with_size (n : Z) : vwf (vector_init_with_size n).
Proof.
  unfold vwf, vector_init_with_size, MAX, INIT_SIZE. cbn [array size capacity length].
  split; [reflexivity|]. destruct (n >? 4) eqn:E; lia.
Qed.

Lemma vector_insert_ores (v : vector_t A) (i : Z) (e : A) :
  vwf v -> 0 <= i <= size v ->
  ores (size v + 1 < 2 ^ 30)
       (fun v' => vwf v' /\ size v' = size v + 1 /\
                  array v' = firstn (Z.to_nat i) (array v) ++
                             e :: skipn (Z.to_nat i) (array v))
       (vector_insert v i e).
Proof.
  intros [Hsz Hcap] Hi. unfold vector_insert.
  replace (0 <=? i) with true by (symmetry; apply Z.leb_le; lia).
  replace (i <=? size v) with true by (symmetry; apply Z.leb_le; lia).
  cbn [andb].
  apply (ores_bind (P := fun y => y = size v + 1)).
  { apply int_ores. unfold INT_MIN, INT_MAX. lia. }
  intros sz ->.
  apply (ores_bind (P := fun cap => 0 < cap)).
  { destruct (size v + 1 >=? capacity v) eqn:E; [|apply ores_Some, Hcap].
    apply Z.geb_le in E.
    apply (ores_weaken (int_ores (size v + 1 < 2 ^ 30)
                          (capacity v * RESIZE_FACTOR)
                          ltac:(unfold INT_MIN, INT_MAX, RESIZE_FACTOR; lia)));
      [auto|].
    intros cap ->. unfold RESIZE_FACTOR. lia. }
  intros cap Hcap'. apply ores_Some.
  unfold vwf. cbn [array size capacity]. split; [|split; reflexivity].
  split; [|exact Hcap'].
  rewrite length_app. cbn [length]. rewrite length_firstn, length_skipn. lia.
Qed.

Lemma vector_insert_ok (v : vector_t A) (i : Z) (e : A) :
  vwf v -> 0 <= i <= size v -> size v + 1 < 2 ^ 30 ->
  exists v', vector_insert v i e = Some v' /\ vwf v' /\
             size v' = size v + 1 /\
             array v' = firstn (Z.to_nat i) (array v) ++
                        e :: skipn (Z.to_nat i) (array v).
Proof.
  intros Hv Hi Hr. exact (ores_total (vector_insert_ores v i e Hv Hi) Hr).
Qed.

Lemma vector_append_ores (v : vector_t A) (e : A) :
  vwf v ->
  ores (size v + 1 < 2 ^ 30)
       (fun v' => vwf v' /\ size v' = size v + 1 /\
                  array v' = array v ++ [e])
       (vector_append v e).
Proof.
  intros Hv. unfold vector_append.
  assert (Hi : 0 <= size v <= size v) by (destruct Hv; lia).
  apply (ores_weaken (vector_insert_ores v (size v) e Hv Hi)); [auto|].
  intros v' (H1 & H2 & H3). split; [exact H1|]. split; [exact H2|].
  rewrite H3. destruct Hv as [Hsz _]. rewrite Hsz, Nat2Z.id.
  rewrite firstn_all, skipn_all. reflexivity.
Qed.

Lemma vector_append_ok (v : vector_t A) (e : A) :
  vwf v -> size v + 1 < 2 ^ 30 ->
  exists v', vector_append v e = Some v' /\ vwf v' /\
             size v' = size v + 1 /\ array v' = array v ++ [e].
Proof.
  intros Hv Hr. exact (ores_total (vector_append_ores v e Hv) Hr).
Qed.

Lemma vector_remove_ok (v : vector_t A) (i : Z) :
  vwf v -> 0 <= i < size v ->
  exists x v', vector_remove v i = Some (x, v') /\ vwf v' /\
               size v' = size v - 1 /\
               array v' = firstn (Z.to_nat i) (array v) ++
                          skipn (S (Z.to_nat i)) (array v).
Proof.
  intros [Hsz Hcap] Hi. unfold vector_remove.
  replace (0 <=? i) with true by (symmetry; apply Z.leb_le; lia).
  replace (i <? size v) with true by (symmetry; apply Z.ltb_lt; lia).
  cbn [andb].
  destruct (nth_error (array v) (Z.to_nat i)) as [x|] eqn:E.
  - cbn [obind]. eexists. eexists. split; [reflexivity|].
    unfold vwf. cbn [array size capacity]. split; [|split; reflexivity].
    split; [|exact Hcap].
    rewrite length_app, length_firstn, length_skipn. lia.
  - apply nth_error_None in E. lia.
Qed.

Lemma grow_capacity_ores (fuel : nat) :
  forall need cap, 0 < cap -> need - cap < Z.of_nat fuel ->
  ores (need < 2 ^ 30) (fun cap' => 0 < cap')
       (grow_capacity fuel need cap).
Proof.
  induction fuel as [|fuel IH]; intros need cap Hcap Hfuel;
    cbn [grow_capacity].
  - replace (need >=? cap) with false
      by (symmetry; rewrite Z.geb_leb; apply Z.leb_gt; lia).
    apply ores_Some, Hcap.
  - destruct (need >=? cap) eqn:E; [|apply ores_Some, Hcap].
    apply Z.geb_le in E.
    apply (ores_bind (P := fun y => y = cap * RESIZE_FACTOR)).
    + apply int_ores. unfold INT_MIN, INT_MAX, RESIZE_FACTOR. lia.
    + intros cap' ->. apply IH; unfold RESIZE_FACTOR; lia.
Qed.

Lemma vector_append_all_range_ores (v w : vector_t A) (from : Z) :
  vwf v -> vwf w -> 0 <= from <= size w ->
  ores (size v + (size w - from) < 2 ^ 30)
       (fun v' => vwf v' /\ size v' = size v + (size w - from) /\
                  array v' = array v ++ skipn (Z.to_nat from) (array w))
       (vector_append_all_range v w from (size w)).
Proof.
  intros [Hsz Hcap] [Hsw _] Hf.
  unfold vector_append_all_range, vector_insert_all_range.
  replace (0 <=? size v) with true by (symmetry; apply Z.leb_le; lia).
  rewrite Z.leb_refl. cbn [andb].
  apply (ores_bind (P := fun y => y = size w - from)).
  { apply int_ores. unfold INT_MIN, INT_MAX. lia. }
  intros n ->.
  apply (ores_bind (P := fun y => y = size v + (size w - from))).
  { apply int_ores. unfold INT_MIN, INT_MAX. lia. }
  intros need ->.
  apply (ores_bind (P := fun cap' => 0 < cap')).
  { apply grow_capacity_ores; [exact Hcap | lia]. }
  intros cap' Hcap'. apply ores_Some.
  assert (Harr : firstn (Z.to_nat (size v)) (array v) ++
                 firstn (Z.to_nat (size w - from))
                        (skipn (Z.to_nat from) (array w)) ++
                 skipn (Z.to_nat (size v)) (array v)
                 = array v ++ skipn (Z.to_nat from) (array w)).
  { rewrite Hsz, Nat2Z.id, firstn_all, skipn_all, app_nil_r.
    f_equal. apply firstn_all2. rewrite length_skipn. lia. }
  unfold vwf. cbn [array size capacity].
  split; [|split; [reflexivity|exact Harr]].
  split; [|exact Hcap'].
  rewrite Harr, length_app, length_skipn. lia.
Qed.

Lemma vector_append_all_range_ok (v w : vector_t A) (from : Z) :
  vwf v -> vwf w -> 0 <= from <= size w ->
  size v + (size w - from) < 2 ^ 30 ->
  exists v', vector_append_all_range v w from (size w) = Some v' /\
             vwf v' /\ size v' = size v + (size w - from) /\
             array v' = array v ++ skipn (Z.to_nat from) (array w).
Proof.
  intros Hv Hw Hf Hr.
  exact (ores_total (vector_append_all_range_ores v w from Hv Hw Hf) Hr).
Qed.

(** *** The binary searches *)

Lemma mid_bounds (lo hi : Z) :
  0 <= lo <= hi -> lo <= Z.quot (lo + hi) 2 <= hi.
Proof.
  intros H. rewrite Z.quot_div_nonneg by lia.
  Z.div_mod_to_equations. lia.
Qed.

Lemma insert_pos_loop_eq (fuel : nat) (s : set_t A) (e : A) (lo hi : Z) :
  insert_pos_loop fuel s e lo hi =
  if lo <=? hi then
    match fuel with
    | O => None
    | S fuel' =>
      sum <- int (lo + hi) ;;
      let i := Z.quot sum 2 in
      x <- vector_get (vec s) i ;;
      let cmp := compar s e x in
      if cmp =? 0 then Some (-1)
      else if cmp <=? 0 then
        if i =? 0 then Some i
        else
          e1 <- vector_get (vec s) (i - 1) ;;
          if negb (compar s e e1 <=? 0) then Some i
          else insert_pos_loop fuel' s e lo (i - 1)
      else insert_pos_loop fuel' s e (i + 1) hi
    end
  else Some (vector_size (vec s)).
Proof. destruct fuel; reflexivity. Qed.

Lemma search_loop_eq (fuel : nat) (s : set_t A) (e : A) (lo hi : Z) :
  search_loop fuel s e lo hi =
  if lo <=? hi then
    match fuel with
    | O => None
    | S fuel' =>
      sum <- int (lo + hi) ;;
      let i := Z.quot sum 2 in
      x <- vector_get (vec s) i ;;
      let cmp := compar s e x in
      if cmp =? 0 then Some i
      else if cmp <? 0 then search_loop fuel' s e lo (i - 1)
      else search_loop fuel' s e (i + 1) hi
    end
  else Some (-1).
Proof. destruct fuel; reflexivity. Qed.

(** What [insert_pos] returns: -1 beside an element that compares equal,
    otherwise the index that splits the array around [e]. *)
Definition insert_post (arr : list A) (e : A) (r : Z) : Prop :=
  (r = -1 /\ exists x, In x arr /\ c e x = 0) \/
  (0 <= r <= Z.of_nat (length arr) /\
   (forall x, In x (firstn (Z.to_nat r) arr) -> lt x e) /\
   (forall y, In y (skipn (Z.to_nat r) arr) -> lt e y)).

(** The sum [lo + hi] stays an [int] while the set has at most [2^30]
    elements. *)
Lemma insert_pos_loop_ores (s : set_t A) (e : A) :
  set_ok s ->
  forall (fuel : nat) (lo hi : Z),
    0 <= lo -> hi < size (vec s) -> lo <= hi + 1 ->
    hi - lo + 1 < Z.of_nat fuel ->
    (forall x, In x (firstn (Z.to_nat lo) (array (vec s))) -> lt x e) ->
    (hi = size (vec s) - 1 \/
     (0 <= hi /\ exists y, nth_error (array (vec s)) (Z.to_nat hi) = Some y
                          /\ c e y <= 0)) ->
    ores (size (vec s) <= 2 ^ 30) (insert_post (array (vec s)) e)
         (insert_pos_loop fuel s e lo hi).
Proof.
  intros (Hc & Hv & Hs).
  pose proof Hv as [Hsz _].
  assert (Hexit : forall hi,
    (forall x, In x (firstn (Z.to_nat (hi + 1)) (array (vec s))) ->
               lt x e) ->
    (hi = size (vec s) - 1 \/
     (0 <= hi /\ exists y, nth_error (array (vec s)) (Z.to_nat hi) = Some y
                          /\ c e y <= 0)) ->
    insert_post (array (vec s)) e (vector_size (vec s))).
  { intros hi Hbelow Habove.
    destruct Habove as [->|(H0 & y & Hy & Hle)].
    + right. unfold vector_size.
      replace (size (vec s) - 1 + 1) with (size (vec s)) in Hbelow by lia.
      split; [lia|]. split; [exact Hbelow|].
      rewrite Hsz, Nat2Z.id, skipn_all. intros y [].
    + exfalso. assert (lt y e).
      { apply Hbelow. apply nth_error_In with (n := Z.to_nat hi).
        rewrite nth_error_firstn.
        destruct (Nat.ltb_spec (Z.to_nat hi) (Z.to_nat (hi + 1)));
          [exact Hy|lia]. }
      unfold lt in *. pose proof (c_anti y e). lia. }
  induction fuel as [|fuel IH]; intros lo hi Hlo Hhi Hlh Hfuel Hbelow Habove;
    rewrite insert_pos_loop_eq.
  - replace (lo <=? hi) with false by (symmetry; apply Z.leb_gt; lia).
    assert (lo = hi + 1) by lia. subst lo.
    apply ores_Some. exact (Hexit hi Hbelow Habove).
  - destruct (lo <=? hi) eqn:Elh.
    + apply Z.leb_le in Elh.
      apply (ores_bind (P := fun y => y = lo + hi)).
      { apply int_ores. unfold INT_MIN, INT_MAX. lia. }
      intros sum ->. cbv beta.
      pose proof (mid_bounds lo hi ltac:(lia)) as Hmid.
      set (i := Z.quot (lo + hi) 2) in *. cbv zeta.
      destruct (vector_get_Some (vec s) i Hv ltac:(lia)) as (x & Gx & Nx).
      rewrite Gx. cbn [obind]. rewrite Hc.
      destruct (c e x =? 0) eqn:E0.
      * apply Z.eqb_eq in E0. apply ores_Some.
        left. split; [reflexivity|]. exists x. split; [|exact E0].
        apply nth_error_In with (n := Z.to_nat i). exact Nx.
      * apply Z.eqb_neq in E0. destruct (c e x <=? 0) eqn:E1.
        -- apply Z.leb_le in E1. assert (Hex : lt e x) by (unfold lt; lia).
           destruct (i =? 0) eqn:Ei.
           ++ apply Z.eqb_eq in Ei. apply ores_Some.
              right. split; [lia|]. rewrite Ei. cbn [Z.to_nat firstn skipn].
              split; [intros y []|].
              rewrite Ei in Nx.
              exact (above_all _ O x e Hs Nx Hex).
           ++ apply Z.eqb_neq in Ei.
              destruct (vector_get_Some (vec s) (i - 1) Hv ltac:(lia))
                as (x1 & Gx1 & Nx1).
              rewrite Gx1. cbn [obind].
              destruct (c e x1 <=? 0) eqn:E2; cbn [negb].
              ** apply Z.leb_le in E2.
                 apply IH; try lia; [exact Hbelow|].
                 right. split; [lia|]. exists x1. split; [exact Nx1|exact E2].
              ** apply Z.leb_gt in E2. apply ores_Some.
                 right. split; [lia|]. split.
                 --- replace (Z.to_nat i) with (S (Z.to_nat (i - 1))) by lia.
                     apply (below_all _ _ x1 e Hs Nx1).
                     apply c_gt_lt. lia.
                 --- exact (above_all _ _ x e Hs Nx Hex).
        -- apply Z.leb_gt in E1.
           apply IH; try lia; [|exact Habove].
           replace (Z.to_nat (i + 1)) with (S (Z.to_nat i)) by lia.
           apply (below_all _ _ x e Hs Nx). apply c_gt_lt. lia.
    + apply Z.leb_gt in Elh. assert (lo = hi + 1) by lia. subst lo.
      apply ores_Some. exact (Hexit hi Hbelow Habove).
Qed.

Lemma insert_pos_ores (s : set_t A) (e : A) :
  set_ok s ->
  ores (size (vec s) <= 2 ^ 30) (insert_post (array (vec s)) e)
       (insert_pos s e).
Proof.
  intros Hok. pose proof Hok as (_ & [Hsz _] & _).
  unfold insert_pos, vector_size.
  apply insert_pos_loop_ores; try assumption; try lia.
  cbn [Z.to_nat firstn]. intros x [].
Qed.

Lemma insert_pos_spec (s : set_t A) (e : A) :
  set_ok s -> size (vec s) <= 2 ^ 30 ->
  exists r, insert_pos s e = Some r /\ insert_post (array (vec s)) e r.
Proof. intros Hok Hr. exact (ores_total (insert_pos_ores s e Hok) Hr). Qed.

(** What [search] returns: the index of an element that compares equal,
    or -1 when there is none. *)
Definition search_post (arr : list A) (e : A) (r : Z) : Prop :=
  (r = -1 /\ forall x, In x arr -> c e x <> 0) \/
  (0 <= r < Z.of_nat (length arr) /\
   exists x, nth_error arr (Z.to_nat r) = Some x /\ c e x = 0).

Lemma search_loop_ores (s : set_t A) (e : A) :
  set_ok s ->
  forall (fuel : nat) (lo hi : Z),
    0 <= lo -> hi < size (vec s) ->
    hi - lo + 1 < Z.of_nat fuel ->
    (forall x, In x (firstn (Z.to_nat lo) (array (vec s))) -> lt x e) ->
    (forall y, In y (skipn (Z.to_nat (hi + 1)) (array (vec s))) -> lt e y) ->
    ores (size (vec s) <= 2 ^ 30) (search_post (array (vec s)) e)
         (search_loop fuel s e lo hi).
Proof.
  intros (Hc & Hv & Hs).
  pose proof Hv as [Hsz _].
  assert (Hexit : forall lo hi,
    0 <= lo -> hi < lo ->
    (forall x, In x (firstn (Z.to_nat lo) (array (vec s))) -> lt x e) ->
    (forall y, In y (skipn (Z.to_nat (hi + 1)) (array (vec s))) -> lt e y) ->
    search_post (array (vec s)) e (-1)).
  { intros lo hi Hlo Hlh Hbelow Habove. left. split; [reflexivity|].
    intros x Hx. rewrite <- (firstn_skipn (Z.to_nat lo)) in Hx.
    apply in_app_or in Hx as [Hx|Hx].
    - apply Hbelow in Hx. unfold lt in Hx. pose proof (c_anti x e). lia.
    - assert (lt e x); [|unfold lt in *; lia].
      apply Habove. apply In_skipn_nth in Hx as (k & Hk & Hx).
      apply nth_error_In with (n := (k - Z.to_nat (hi + 1))%nat).
      rewrite nth_error_skipn. rewrite <- Hx. f_equal. lia. }
  induction fuel as [|fuel IH]; intros lo hi Hlo Hhi Hfuel Hbelow Habove;
    rewrite search_loop_eq.
  - replace (lo <=? hi) with false by (symmetry; apply Z.leb_gt; lia).
    apply ores_Some.
    apply (Hexit lo hi); try assumption; lia.
  - destruct (lo <=? hi) eqn:Elh.
    + apply Z.leb_le in Elh.
      apply (ores_bind (P := fun y => y = lo + hi)).
      { apply int_ores. unfold INT_MIN, INT_MAX. lia. }
      intros sum ->. cbv beta.
      pose proof (mid_bounds lo hi ltac:(lia)) as Hmid.
      set (i := Z.quot (lo + hi) 2) in *. cbv zeta.
      destruct (vector_get_Some (vec s) i Hv ltac:(lia)) as (x & Gx & Nx).
      rewrite Gx. cbn [obind]. rewrite Hc.
      destruct (c e x =? 0) eqn:E0.
      * apply Z.eqb_eq in E0. apply ores_Some.
        right. split; [lia|]. exists x. auto.
      * apply Z.eqb_neq in E0. destruct (c e x <? 0) eqn:E1.
        -- apply Z.ltb_lt in E1.
           apply IH; try lia; [exact Hbelow|].
           replace (i - 1 + 1) with i by lia.
           exact (above_all _ _ x e Hs Nx E1).
        -- apply Z.ltb_ge in E1.
           apply IH; try lia; [|exact Habove].
           replace (Z.to_nat (i + 1)) with (S (Z.to_nat i)) by lia.
           apply (below_all _ _ x e Hs Nx). apply c_gt_lt. lia.
    + apply Z.leb_gt in Elh. apply ores_Some.
      apply (Hexit lo hi); try assumption; lia.
Qed.

Lemma search_ores (s : set_t A) (e : A) :
  set_ok s ->
  ores (size (vec s) <= 2 ^ 30) (search_post (array (vec s)) e)
       (search s e).
Proof.
  intros Hok. pose proof Hok as (_ & [Hsz _] & _).
  unfold search, vector_size.
  apply search_loop_ores; try assumption; try lia.
  - cbn [Z.to_nat firstn]. intros x [].
  - replace (size (vec s) - 1 + 1) with (size (vec s)) by lia.
    rewrite Hsz, Nat2Z.id, skipn_all. intros y [].
Qed.

Lemma search_spec (s : set_t A) (e : A) :
  set_ok s -> size (vec s) <= 2 ^ 30 ->
  exists r, search s e = Some r /\ search_post (array (vec s)) e r.
Proof. intros Hok Hr. exact (ores_total (search_ores s e Hok) Hr). Qed.

(** *** The operations keep sets well-formed *)

Lemma set_ok_init_with_size (n : Z) : set_ok (set_init_with_size c n).
Proof.
  split; [reflexivity|]. split; [apply vwf_init_with_size|constructor].
Qed.

Lemma set_ok_init : set_ok (set_init c).
Proof. apply (set_ok_init_with_size INIT_SIZE). Qed.

(** What [set_add] returns: [true] exactly when no element compares
    equal to [e], and then the set is one larger and still sorted;
    otherwise the set is unchanged. *)
Definition set_add_post (s : set_t A) (e : A) (p : bool * set_t A) : Prop :=
  (fst p = true <-> forall x, In x (array (vec s)) -> c e x <> 0) /\
  (fst p = true -> set_size (snd p) = set_size s + 1 /\ set_ok (snd p)) /\
  (fst p = false -> snd p = s).

Lemma set_add_ores (s : set_t A) (e : A) :
  set_ok s ->
  ores (set_size s + 1 < 2 ^ 30) (set_add_post s e) (set_add s e).
Proof.
  intros Hok. pose proof Hok as (Hc & Hv & Hs). pose proof Hv as [Hsz _].
  unfold set_add, set_size, vector_size.
  apply (ores_bind (P := insert_post (array (vec s)) e)).
  { apply (ores_weaken (insert_pos_ores s e Hok)); [lia | auto]. }
  intros r Hpost.
  destruct Hpost as [(-> & x & Hx & Ex)|(Hrng & Hbelow & Habove)].
  - cbn [Z.eqb negb]. apply ores_Some. unfold set_add_post. cbn [fst snd].
    split; [|split; [discriminate|reflexivity]].
    split; [discriminate|]. intros H. exfalso. exact (H x Hx Ex).
  - replace (r =? -1) with false by (symmetry; apply Z.eqb_neq; lia).
    cbn [negb].
    apply (ores_bind (P := fun v' =>
             vwf v' /\ size v' = size (vec s) + 1 /\
             array v' = firstn (Z.to_nat r) (array (vec s)) ++
                        e :: skipn (Z.to_nat r) (array (vec s)))).
    { apply vector_insert_ores; [exact Hv | lia]. }
    intros v' (Hv' & Hsz' & Harr'). apply ores_Some.
    unfold set_add_post. cbn [fst snd].
    split; [|split; [|discriminate]].
    + split; [|reflexivity]. intros _ x Hx.
      rewrite <- (firstn_skipn (Z.to_nat r)) in Hx.
      apply in_app_or in Hx as [Hx|Hx].
      * apply Hbelow in Hx. unfold lt in Hx. pose proof (c_anti x e). lia.
      * apply Habove in Hx. unfold lt in Hx. lia.
    + intros _. split; [exact Hsz'|].
      split; [exact Hc|]. split; [exact Hv'|]. cbn [vec].
      rewrite Harr'. apply sorted_insert; assumption.
Qed.

Lemma set_add_spec (s : set_t A) (e : A) :
  set_ok s -> set_size s + 1 < 2 ^ 30 ->
  exists b s',
    set_add s e = Some (b, s') /\
    (b = true <-> forall x, In x (array (vec s)) -> c e x <> 0) /\
    (b = true -> set_size s' = set_size s + 1 /\ set_ok s') /\
    (b = false -> s' = s).
Proof.
  intros Hok Hr.
  destruct (ores_total (set_add_ores s e Hok) Hr) as ([b s'] & H & Hp).
  exists b, s'. split; [exact H | exact Hp].
Qed.

Lemma set_singleton_ok (e : A) :
  exists s, set_singleton c e = Some s /\ set_ok s.
Proof.
  unfold set_singleton.
  destruct (set_add_spec (set_init_with_size c 1) e
              (set_ok_init_with_size 1) ltac:(cbn; lia))
    as (b & s' & Ha & Hb & Ht & Hf).
  rewrite Ha. cbn [obind]. exists s'. split; [reflexivity|].
  destruct b.
  - apply Ht. reflexivity.
  - rewrite (Hf eq_refl). apply set_ok_init_with_size.
Qed.

Lemma set_remove_ores (s : set_t A) (e : A) :
  set_ok s ->
  ores (set_size s <= 2 ^ 30) (fun p => set_ok (snd p)) (set_remove s e).
Proof.
  intros Hok. pose proof Hok as (Hc & Hv & Hs). pose proof Hv as [Hsz _].
  unfold set_remove, set_size, vector_size.
  apply (ores_bind (P := search_post (array (vec s)) e)).
  { exact (search_ores s e Hok). }
  intros r Hpost.
  destruct Hpost as [(-> & _)|(Hrng & _)].
  - cbn [Z.eqb negb]. apply ores_Some. exact Hok.
  - replace (r =? -1) with false by (symmetry; apply Z.eqb_neq; lia).
    cbn [negb].
    destruct (vector_remove_ok (vec s) r Hv ltac:(lia))
      as (x & v' & Hrem & Hv' & _ & Harr').
    rewrite Hrem. cbn [obind]. apply ores_Some. cbn [snd].
    split; [exact Hc|]. split; [exact Hv'|]. cbn [vec].
    rewrite Harr'. apply sorted_remove, Hs.
Qed.

Lemma set_remove_ok (s : set_t A) (e : A) :
  set_ok s -> set_size s <= 2 ^ 30 ->
  exists b s', set_remove s e = Some (b, s') /\ set_ok s'.
Proof.
  intros Hok Hr.
  destruct (ores_total (set_remove_ores s e Hok) Hr) as ([b s'] & H & Hp).
  exists b, s'. split; [exact H | exact Hp].
Qed.

(** *** The merging loops *)

(** Every element of [l1] is below every element of [l2]. *)
Definition all_below (l1 l2 : list A) : Prop :=
  forall x y, In x l1 -> In y l2 -> lt x y.

Lemma skipn_nth_cons (l : list A) (n : nat) (x : A) :
  nth_error l n = Some x -> skipn n l = x :: skipn (S n) l.
Proof.
  revert n. induction l as [|a l IH]; intros [|n] H; cbn in H;
    try discriminate.
  - injection H as ->. reflexivity.
  - cbn [skipn]. rewrite (IH n H). reflexivity.
Qed.

Lemma all_below_snoc (v l : list A) (n : nat) (x : A) :
  sorted l -> nth_error l n = Some x -> all_below v (skipn n l) ->
  all_below (v ++ [x]) (skipn (S n) l).
Proof.
  intros Hs Hx Hb a y Ha Hy.
  rewrite (skipn_nth_cons l n x Hx) in Hb.
  apply in_app_or in Ha as [Ha|[<-|[]]].
  - apply Hb; [exact Ha | right; exact Hy].
  - apply In_skipn_nth in Hy as (k & Hk & Hy).
    apply (sorted_nth_error l n k x y Hs); [lia|assumption..].
Qed.

Lemma all_below_skip (v l : list A) (n : nat) :
  all_below v (skipn n l) -> all_below v (skipn (S n) l).
Proof.
  intros Hb a y Ha Hy. apply Hb; [exact Ha|].
  apply In_skipn_nth in Hy as (k & Hk & Hy).
  apply nth_error_In with (n := (k - n)%nat).
  rewrite nth_error_skipn, <- Hy. f_equal. lia.
Qed.

(** Appending [x], which is at most the head of [skipn n l], keeps the
    result below the elements of [l] after that head. *)
Lemma all_below_snoc_le (v l : list A) (n : nat) (x y : A) :
  sorted l -> nth_error l n = Some y -> c x y <= 0 ->
  all_below v (skipn n l) ->
  all_below (v ++ [x]) (skipn (S n) l).
Proof.
  intros Hs Hy Hle Hb a z Ha Hz.
  apply in_app_or in Ha as [Ha|[<-|[]]].
  - exact (all_below_skip v l n Hb a z Ha Hz).
  - apply (c_le_lt x y z Hle).
    apply In_skipn_nth in Hz as (k & Hk & Hz).
    apply (sorted_nth_error l n k y z Hs); [lia|assumption..].
Qed.

Lemma all_below_snoc_lt (v l : list A) (n : nat) (x y : A) :
  nth_error l n = Some y -> sorted l -> lt x y ->
  all_below v (skipn n l) ->
  all_below (v ++ [x]) (skipn n l).
Proof.
  intros Hy Hs Hlt Hb a z Ha Hz.
  apply in_app_or in Ha as [Ha|[<-|[]]]; [exact (Hb a z Ha Hz)|].
  rewrite (skipn_nth_cons l n y Hy) in Hz. destruct Hz as [<-|Hz];
    [exact Hlt|].
  apply (c_lt_trans x y z Hlt).
  apply In_skipn_nth in Hz as (k & Hk & Hz).
  apply (sorted_nth_error l n k y z Hs); [lia|assumption..].
Qed.

Lemma sorted_snoc_below (v l : list A) (n : nat) (x : A) :
  sorted v -> nth_error l n = Some x -> all_below v (skipn n l) ->
  sorted (v ++ [x]).
Proof.
  intros Hv Hx Hb. apply sorted_snoc; [exact Hv|].
  intros a Ha. apply Hb; [exact Ha|].
  rewrite (skipn_nth_cons l n x Hx). left. reflexivity.
Qed.

Lemma set_union_loop_eq (fuel : nat) (l r : set_t A) (v : vector_t A)
    (i j : Z) :
  set_union_loop fuel l r v i j =
  if (i <? vector_size (vec l)) && (j <? vector_size (vec r)) then
    match fuel with
    | O => None
    | S fuel' =>
      li <- vector_get (vec l) i ;;
      rj <- vector_get (vec r) j ;;
      let cmp := compar l li rj in
      if cmp <? 0 then
        v' <- vector_append v li ;;
        set_union_loop fuel' l r v' (i + 1) j
      else if cmp >? 0 then
        v' <- vector_append v rj ;;
        set_union_loop fuel' l r v' i (j + 1)
      else
        v' <- vector_append v li ;;
        set_union_loop fuel' l r v' (i + 1) (j + 1)
    end
  else Some (v, i, j).
Proof. destruct fuel; reflexivity. Qed.

Lemma set_intersection_loop_eq (fuel : nat) (l r : set_t A)
    (v : vector_t A) (i j : Z) :
  set_intersection_loop fuel l r v i j =
  if (i <? vector_size (vec l)) && (j <? vector_size (vec r)) then
    match fuel with
    | O => None
    | S fuel' =>
      li <- vector_get (vec l) i ;;
      rj <- vector_get (vec r) j ;;
      let cmp := compar l li rj in
      if cmp <? 0 then set_intersection_loop fuel' l r v (i + 1) j
      else if cmp >? 0 then set_intersection_loop fuel' l r v i (j + 1)
      else
        v' <- vector_append v li ;;
        set_intersection_loop fuel' l r v' (i + 1) (j + 1)
    end
  else Some v.
Proof. destruct fuel; reflexivity. Qed.

Lemma set_difference_inner_eq (fuel : nat) (l r : set_t A) (i j : Z) :
  set_difference_inner fuel l r i j =
  if j <? vector_size (vec r) then
    match fuel with
    | O => None
    | S fuel' =>
      li <- vector_get (vec l) i ;;
      rj <- vector_get (vec r) j ;;
      let cmp := compar l li rj in
      if cmp <? 0 then Some (false, j)
      else if cmp >? 0 then set_difference_inner fuel' l r i (j + 1)
      else Some (true, j)
    end
  else Some (false, j).
Proof. destruct fuel; reflexivity. Qed.

Lemma set_difference_loop_eq (fuel : nat) (l r : set_t A) (v : vector_t A)
    (i j : Z) :
  set_difference_loop fuel l r v i j =
  if i <? vector_size (vec l) then
    match fuel with
    | O => None
    | S fuel' =>
      ' (skip, j') <- set_difference_inner
                        (Z.to_nat (vector_size (vec r) - j)) l r i j ;;
      if skip then set_difference_loop fuel' l r v (i + 1) j'
      else
        li <- vector_get (vec l) i ;;
        v' <- vector_append v li ;;
        set_difference_loop fuel' l r v' (i + 1) j'
    end
  else Some v.
Proof. destruct fuel; reflexivity. Qed.

Section Merge.
Variables l r : set_t A.
Hypothesis Hl : set_ok l.
Hypothesis Hr : set_ok r.

Let al := array (vec l).
Let ar := array (vec r).
Let sl := size (vec l).
Let sr := size (vec r).

(** What the loop of [set_union] leaves: a sorted vector, holding no more
    than the [i' + j'] elements read, below the unread elements of both
    sets, with one of the two sets read to its end. *)
Definition union_loop_post (p : vector_t A * Z * Z) : Prop :=
  let '(v', i', j') := p in
  vwf v' /\ sorted (array v') /\
  0 <= i' <= sl /\ 0 <= j' <= sr /\ (i' = sl \/ j' = sr) /\
  size v' <= i' + j' /\
  all_below (array v') (skipn (Z.to_nat i') al) /\
  all_below (array v') (skipn (Z.to_nat j') ar).

Lemma set_union_loop_ores (fuel : nat) :
  forall (v : vector_t A) (i j : Z),
    vwf v -> sorted (array v) ->
    0 <= i <= sl -> 0 <= j <= sr ->
    (sl - i) + (sr - j) <= Z.of_nat fuel ->
    size v <= i + j ->
    all_below (array v) (skipn (Z.to_nat i) al) ->
    all_below (array v) (skipn (Z.to_nat j) ar) ->
    ores (sl + sr < 2 ^ 30) union_loop_post
         (set_union_loop fuel l r v i j).
Proof.
  destruct Hl as (Hcl & Hvl & Hsl). destruct Hr as (Hcr & Hvr & Hsr).
  induction fuel as [|fuel IH];
    intros v i j Hv Hs Hi Hj Hfuel Hcnt Hbl Hbr;
    rewrite set_union_loop_eq; unfold vector_size; fold sl sr.
  - replace ((i <? sl) && (j <? sr)) with false.
    + apply ores_Some.
      refine (conj Hv (conj Hs (conj Hi (conj Hj
               (conj _ (conj Hcnt (conj Hbl Hbr))))))). lia.
    + symmetry. apply andb_false_iff.
      destruct (Z.ltb_spec i sl); [right; apply Z.ltb_ge; lia | auto].
  - destruct ((i <? sl) && (j <? sr)) eqn:E.
    + apply andb_true_iff in E as [Ei Ej].
      apply Z.ltb_lt in Ei. apply Z.ltb_lt in Ej.
      destruct (vector_get_Some (vec l) i Hvl ltac:(fold sl; lia))
        as (li & Gl & Nl).
      destruct (vector_get_Some (vec r) j Hvr ltac:(fold sr; lia))
        as (rj & Gr & Nr).
      fold al in Nl. fold ar in Nr.
      rewrite Gl, Gr. cbn [obind]. cbv zeta. rewrite Hcl.
      destruct (c li rj <? 0) eqn:E1; [|destruct (c li rj >? 0) eqn:E2].
      * apply Z.ltb_lt in E1.
        apply (ores_bind (P := fun v' =>
                 vwf v' /\ size v' = size v + 1 /\
                 array v' = array v ++ [li])).
        { apply (ores_weaken (vector_append_ores v li Hv)); [lia|auto]. }
        intros v' (Hv' & Hsz' & Harr).
        apply IH; try assumption; try lia; rewrite Harr.
        -- exact (sorted_snoc_below _ al _ li Hs Nl Hbl).
        -- replace (Z.to_nat (i + 1)) with (S (Z.to_nat i)) by lia.
           exact (all_below_snoc _ al _ li Hsl Nl Hbl).
        -- exact (all_below_snoc_lt _ ar _ li rj Nr Hsr E1 Hbr).
      * apply Z.gtb_lt in E2.
        apply (ores_bind (P := fun v' =>
                 vwf v' /\ size v' = size v + 1 /\
                 array v' = array v ++ [rj])).
        { apply (ores_weaken (vector_append_ores v rj Hv)); [lia|auto]. }
        intros v' (Hv' & Hsz' & Harr).
        apply IH; try assumption; try lia; rewrite Harr.
        -- exact (sorted_snoc_below _ ar _ rj Hs Nr Hbr).
        -- apply (all_below_snoc_lt _ al _ rj li Nl Hsl); [|exact Hbl].
           apply c_gt_lt. lia.
        -- replace (Z.to_nat (j + 1)) with (S (Z.to_nat j)) by lia.
           exact (all_below_snoc _ ar _ rj Hsr Nr Hbr).
      * apply Z.ltb_ge in E1.
        assert (E3 : c li rj <= 0)
          by (destruct (Z.gtb_spec (c li rj) 0); [discriminate|lia]).
        apply (ores_bind (P := fun v' =>
                 vwf v' /\ size v' = size v + 1 /\
                 array v' = array v ++ [li])).
        { apply (ores_weaken (vector_append_ores v li Hv)); [lia|auto]. }
        intros v' (Hv' & Hsz' & Harr).
        apply IH; try assumption; try lia; rewrite Harr.
        -- exact (sorted_snoc_below _ al _ li Hs Nl Hbl).
        -- replace (Z.to_nat (i + 1)) with (S (Z.to_nat i)) by lia.
           exact (all_below_snoc _ al _ li Hsl Nl Hbl).
        -- replace (Z.to_nat (j + 1)) with (S (Z.to_nat j)) by lia.
           exact (all_below_snoc_le _ ar _ li rj Hsr Nr E3 Hbr).
    + apply ores_Some. apply andb_false_iff in E.
      refine (conj Hv (conj Hs (conj Hi (conj Hj
               (conj _ (conj Hcnt (conj Hbl Hbr))))))).
      destruct E as [E|E]; apply Z.ltb_ge in E; lia.
Qed.

(** [set_union] has a result while the two sizes together stay below
    [2^30], and every result it has is a well-formed set. *)
Lemma set_union_ores : ores (sl + sr < 2 ^ 30) set_ok (set_union l r).
Proof.
  pose proof Hl as (Hcl & Hvl & Hsl). pose proof Hr as (Hcr & Hvr & Hsr).
  pose proof Hvl as [Hszl _]. pose proof Hvr as [Hszr _].
  unfold set_union, set_size, vector_size. fold sl sr.
  apply (ores_bind (P := fun n => n = sl + sr)).
  { apply int_ores. unfold INT_MIN, INT_MAX. subst sl sr. lia. }
  intros n ->. cbv beta zeta.
  apply (ores_bind (P := union_loop_post)).
  { apply set_union_loop_ores; try (subst sl sr; lia).
    - apply vwf_init_with_size.
    - constructor.
    - cbn [set_init_with_size vec vector_init_with_size size].
      subst sl sr. lia.
    - intros x y [].
    - intros x y []. }
  intros [[v i] j] (Hv & Hs & Hi & Hj & Hend & Hcnt & Hbl & Hbr).
  cbv beta iota.
  apply (ores_bind (P := fun v1 =>
           vwf v1 /\ size v1 = size v + (sl - i) /\
           array v1 = array v ++ skipn (Z.to_nat i) al)).
  { apply (ores_weaken
             (vector_append_all_range_ores v (vec l) i Hv Hvl Hi));
      [fold sl; lia | auto]. }
  intros v1 (Hv1 & Hsz1 & Harr1).
  apply (ores_bind (P := fun v2 =>
           vwf v2 /\ size v2 = size v1 + (sr - j) /\
           array v2 = array v1 ++ skipn (Z.to_nat j) ar)).
  { apply (ores_weaken
             (vector_append_all_range_ores v1 (vec r) j Hv1 Hvr Hj));
      [fold sr; lia | auto]. }
  intros v2 (Hv2 & _ & Harr2). apply ores_Some.
  split; [exact Hcl|]. split; [exact Hv2|]. cbn [vec].
  rewrite Harr2, Harr1.
  destruct Hend as [->| ->].
  + subst sl al. rewrite Hszl, Nat2Z.id, skipn_all, app_nil_r.
    apply sorted_app; [exact Hs | apply sorted_skipn, Hsr | exact Hbr].
  + subst sr ar. rewrite Hszr, Nat2Z.id, skipn_all, app_nil_r.
    apply sorted_app; [exact Hs | apply sorted_skipn, Hsl | exact Hbl].
Qed.

Lemma set_union_ok :
  sl + sr < 2 ^ 30 -> exists s, set_union l r = Some s /\ set_ok s.
Proof. intros Hroom. exact (ores_total set_union_ores Hroom). Qed.

Lemma set_intersection_loop_ores (fuel : nat) :
  forall (v : vector_t A) (i j : Z),
    vwf v -> sorted (array v) ->
    0 <= i <= sl -> 0 <= j <= sr ->
    (sl - i) + (sr - j) <= Z.of_nat fuel ->
    size v <= i ->
    all_below (array v) (skipn (Z.to_nat i) al) ->
    ores (sl < 2 ^ 30) (fun v' => vwf v' /\ sorted (array v'))
         (set_intersection_loop fuel l r v i j).
Proof.
  destruct Hl as (Hcl & Hvl & Hsl). destruct Hr as (Hcr & Hvr & Hsr).
  induction fuel as [|fuel IH]; intros v i j Hv Hs Hi Hj Hfuel Hcnt Hbl;
    rewrite set_intersection_loop_eq; unfold vector_size; fold sl sr.
  - replace ((i <? sl) && (j <? sr)) with false;
      [apply ores_Some; auto|].
    symmetry. apply andb_false_iff.
    destruct (Z.ltb_spec i sl); [right; apply Z.ltb_ge; lia | auto].
  - destruct ((i <? sl) && (j <? sr)) eqn:E; [|apply ores_Some; auto].
    apply andb_true_iff in E as [Ei Ej].
    apply Z.ltb_lt in Ei. apply Z.ltb_lt in Ej.
    destruct (vector_get_Some (vec l) i Hvl ltac:(fold sl; lia))
      as (li & Gl & Nl).
    destruct (vector_get_Some (vec r) j Hvr ltac:(fold sr; lia))
      as (rj & Gr & Nr).
    fold al in Nl. rewrite Gl, Gr. cbn [obind]. cbv zeta.
    destruct (compar l li rj <? 0); [|destruct (compar l li rj >? 0)].
    + apply IH; try assumption; try lia.
      replace (Z.to_nat (i + 1)) with (S (Z.to_nat i)) by lia.
      exact (all_below_skip _ al _ Hbl).
    + apply IH; try assumption; try lia.
    + apply (ores_bind (P := fun v' =>
               vwf v' /\ size v' = size v + 1 /\
               array v' = array v ++ [li])).
      { apply (ores_weaken (vector_append_ores v li Hv)); [lia|auto]. }
      intros v' (Hv' & Hsz' & Harr).
      apply IH; try assumption; try lia; rewrite Harr.
      * exact (sorted_snoc_below _ al _ li Hs Nl Hbl).
      * replace (Z.to_nat (i + 1)) with (S (Z.to_nat i)) by lia.
        exact (all_below_snoc _ al _ li Hsl Nl Hbl).
Qed.

Lemma set_intersection_ores :
  ores (sl < 2 ^ 30) set_ok (set_intersection l r).
Proof.
  pose proof Hl as (Hcl & Hvl & Hsl). pose proof Hr as (Hcr & Hvr & Hsr).
  pose proof Hvl as [Hszl _]. pose proof Hvr as [Hszr _].
  unfold set_intersection.
  apply (ores_bind (P := fun v' => vwf v' /\ sorted (array v'))).
  { apply set_intersection_loop_ores;
      try (unfold vector_size; subst sl sr; lia).
    - apply vwf_init_with_size.
    - constructor.
    - cbn [set_init_with_size vec vector_init_with_size size]. lia.
    - intros x y []. }
  intros v (Hv & Hs). apply ores_Some.
  split; [exact Hcl|]. split; assumption.
Qed.

Lemma set_intersection_ok :
  sl < 2 ^ 30 -> exists s, set_intersection l r = Some s /\ set_ok s.
Proof. intros Hroom. exact (ores_total set_intersection_ores Hroom). Qed.

Lemma set_difference_inner_spec (fuel : nat) :
  forall (i j : Z),
    0 <= i < sl -> 0 <= j <= sr -> sr - j <= Z.of_nat fuel ->
    exists b j', set_difference_inner fuel l r i j = Some (b, j') /\
                 0 <= j' <= sr.
Proof.
  destruct Hl as (Hcl & Hvl & Hsl). destruct Hr as (Hcr & Hvr & Hsr).
  induction fuel as [|fuel IH]; intros i j Hi Hj Hfuel;
    rewrite set_difference_inner_eq; unfold vector_size; fold sr.
  - replace (j <? sr) with false by (symmetry; apply Z.ltb_ge; lia).
    eauto.
  - destruct (j <? sr) eqn:Ej; [|eauto].
    apply Z.ltb_lt in Ej.
    destruct (vector_get_Some (vec l) i Hvl ltac:(fold sl; lia))
      as (li & Gl & Nl).
    destruct (vector_get_Some (vec r) j Hvr ltac:(fold sr; lia))
      as (rj & Gr & Nr).
    rewrite Gl, Gr. cbn [obind]. cbv zeta.
    destruct (compar l li rj <? 0); [eauto|].
    destruct (compar l li rj >? 0); [|eauto].
    apply IH; lia.
Qed.

Lemma set_difference_loop_ores (fuel : nat) :
  forall (v : vector_t A) (i j : Z),
    vwf v -> sorted (array v) ->
    0 <= i <= sl -> 0 <= j <= sr ->
    sl - i <= Z.of_nat fuel ->
    size v <= i ->
    all_below (array v) (skipn (Z.to_nat i) al) ->
    ores (sl < 2 ^ 30) (fun v' => vwf v' /\ sorted (array v'))
         (set_difference_loop fuel l r v i j).
Proof.
  pose proof Hl as (Hcl & Hvl & Hsl). pose proof Hr as (Hcr & Hvr & Hsr).
  induction fuel as [|fuel IH]; intros v i j Hv Hs Hi Hj Hfuel Hcnt Hbl;
    rewrite set_difference_loop_eq; unfold vector_size; fold sl sr.
  - replace (i <? sl) with false by (symmetry; apply Z.ltb_ge; lia).
    apply ores_Some; auto.
  - destruct (i <? sl) eqn:Ei; [|apply ores_Some; auto].
    apply Z.ltb_lt in Ei.
    destruct (set_difference_inner_spec (Z.to_nat (sr - j)) i j
                ltac:(lia) Hj ltac:(lia)) as (b & j' & Hin & Hj').
    rewrite Hin. cbn [obind].
    destruct b.
    + apply IH; try assumption; try lia.
      replace (Z.to_nat (i + 1)) with (S (Z.to_nat i)) by lia.
      exact (all_below_skip _ al _ Hbl).
    + destruct (vector_get_Some (vec l) i Hvl ltac:(fold sl; lia))
        as (li & Gl & Nl).
      fold al in Nl. rewrite Gl. cbn [obind].
      apply (ores_bind (P := fun v' =>
               vwf v' /\ size v' = size v + 1 /\
               array v' = array v ++ [li])).
      { apply (ores_weaken (vector_append_ores v li Hv)); [lia|auto]. }
      intros v' (Hv' & Hsz' & Harr).
      apply IH; try assumption; try lia; rewrite Harr.
      * exact (sorted_snoc_below _ al _ li Hs Nl Hbl).
      * replace (Z.to_nat (i + 1)) with (S (Z.to_nat i)) by lia.
        exact (all_below_snoc _ al _ li Hsl Nl Hbl).
Qed.

Lemma set_difference_ores :
  ores (sl < 2 ^ 30) set_ok (set_difference l r).
Proof.
  pose proof Hl as (Hcl & Hvl & Hsl). pose proof Hr as (Hcr & Hvr & Hsr).
  pose proof Hvl as [Hszl _]. pose proof Hvr as [Hszr _].
  unfold set_difference.
  apply (ores_bind (P := fun v' => vwf v' /\ sorted (array v'))).
  { apply set_difference_loop_ores;
      try (unfold vector_size; subst sl sr; lia).
    - apply vwf_init_with_size.
    - constructor.
    - cbn [set_init_with_size vec vector_init_with_size size]. lia.
    - intros x y []. }
  intros v (Hv & Hs). apply ores_Some.
  split; [exact Hcl|]. split; assumption.
Qed.

Lemma set_difference_ok :
  sl < 2 ^ 30 -> exists s, set_difference l r = Some s /\ set_ok s.
Proof. intros Hroom. exact (ores_total set_difference_ores Hroom). Qed.
End Merge.

(** *** Reachable sets *)

(** The sets built from [set_init] and [set_singleton] by [set_add],
    [set_remove], [set_union], [set_difference] and
    [set_intersection], each call having returned. *)
Inductive reachable : set_t A -> Prop :=
| reach_init : reachable (set_init c)
| reach_singleton e s :
    set_singleton c e = Some s -> reachable s
| reach_add s e b s' :
    reachable s -> set_add s e = Some (b, s') -> reachable s'
| reach_remove s e b s' :
    reachable s -> set_remove s e = Some (b, s') -> reachable s'
| reach_union l r s :
    reachable l -> reachable r -> set_union l r = Some s -> reachable s
| reach_difference l r s :
    reachable l -> reachable r -> set_difference l r = Some s ->
    reachable s
| reach_intersection l r s :
    reachable l -> reachable r -> set_intersection l r = Some s ->
    reachable s.

Lemma reachable_ok (s : set_t A) : reachable s -> set_ok s.
Proof.
  induction 1 as [|e s H|s e b s' _ IH H|s e b s' _ IH H
                  |l r s _ IHl _ IHr H|l r s _ IHl _ IHr H
                  |l r s _ IHl _ IHr H].
  - apply set_ok_init.
  - destruct (set_singleton_ok e) as (s0 & H0 & Hok).
    rewrite H in H0. injection H0 as <-. exact Hok.
  - destruct (ores_partial (set_add_ores s e IH) _ H) as (_ & Ht & Hf).
    cbn [fst snd] in Ht, Hf.
    destruct b; [apply Ht; reflexivity | rewrite (Hf eq_refl); exact IH].
  - exact (ores_partial (set_remove_ores s e IH) _ H).
  - exact (ores_partial (set_union_ores l r IHl IHr) _ H).
  - exact (ores_partial (set_difference_ores l r IHl IHr) _ H).
  - exact (ores_partial (set_intersection_ores l r IHl IHr) _ H).
Qed.

(** On reachable sets every operation returns while the sizes leave room
    in the [int] range. *)
Lemma reachable_operations_return (s r : set_t A) (e : A) :
  reachable s -> reachable r ->
  set_size s + set_size r + 1 < 2 ^ 30 ->
  (exists b s', set_add s e = Some (b, s')) /\
  (exists b s', set_remove s e = Some (b, s')) /\
  (exists u, set_union s r = Some u) /\
  (exists u, set_difference s r = Some u) /\
  (exists u, set_intersection s r = Some u).
Proof.
  intros Hs Hr Hroom. apply reachable_ok in Hs. apply reachable_ok in Hr.
  assert (H0 : 0 <= set_size r)
    by (destruct Hr as (_ & [Hsz _] & _); unfold set_size, vector_size; lia).
  assert (H0' : 0 <= set_size s)
    by (destruct Hs as (_ & [Hsz _] & _); unfold set_size, vector_size; lia).
  unfold set_size, vector_size in *.
  destruct (set_add_spec s e Hs ltac:(unfold set_size, vector_size; lia))
    as (b1 & s1 & H1 & _).
  destruct (set_remove_ok s e Hs ltac:(unfold set_size, vector_size; lia))
    as (b2 & s2 & H2 & _).
  destruct (set_union_ok s r Hs Hr ltac:(lia)) as (u3 & H3 & _).
  destruct (set_difference_ok s r Hs Hr ltac:(lia)) as (u4 & H4 & _).
  destruct (set_intersection_ok s r Hs Hr ltac:(lia)) as (u5 & H5 & _).
  repeat split; eauto.
Qed.

(** C9.  Every reachable set keeps its vector strictly sorted by the
    comparator (so no two elements compare equal).  Whenever
    [set_add(s, e)] returns on it, it returns [true], with the size grown
    by one, if and only if no element of [s] compares equal to [e], and
    otherwise it returns [false] and leaves [s] as it was; and it does
    return while the set has fewer than [2^30 - 1] elements, so that
    neither the [int] sum [lo + hi] of the search nor the doubling of the
    capacity overflows. *)
Theorem reachable_sorted_and_set_add (s : set_t A) :
  reachable s ->
  StronglySorted (fun a b => c a b < 0) (array (vec s)) /\
  set_size s = Z.of_nat (length (array (vec s))) /\
  (forall (e : A) (b : bool) (s' : set_t A),
      set_add s e = Some (b, s') ->
      (b = true <-> forall x, In x (array (vec s)) -> c e x <> 0) /\
      (b = true -> set_size s' = set_size s + 1) /\
      (b = false -> s' = s)) /\
  (set_size s + 1 < 2 ^ 30 ->
   forall e : A, exists b s', set_add s e = Some (b, s')).
Proof.
  intros H. pose proof (reachable_ok s H) as Hok.
  pose proof Hok as (_ & [Hsz _] & Hs).
  split; [exact Hs|]. split; [exact Hsz|]. split.
  - intros e b s' Ha.
    destruct (ores_partial (set_add_ores s e Hok) _ Ha) as (Hb & Ht & Hf).
    cbn [fst snd] in Hb, Ht, Hf.
    split; [exact Hb|]. split; [|exact Hf]. intros Hbt. apply Ht, Hbt.
  - intros Hroom e.
    destruct (set_add_spec s e Hok Hroom) as (b & s' & Ha & _).
    exists b, s'. exact Ha.
Qed.

End Sets.

(** The set [{5}] of integers under subtraction as comparator. *)
Definition set_5 : set_t Z :=
  {| vec := {| array := [5]; capacity := 4; size := 1 |};
     compar := CClauseFacts.cmp_names |}.

Lemma reachable_sorted_and_set_add_witness :
  (forall a b : Z,
      CClauseFacts.cmp_names a b < 0 <-> CClauseFacts.cmp_names b a > 0) /\
  (forall a b d : Z,
      CClauseFacts.cmp_names a b <= 0 -> CClauseFacts.cmp_names b d <= 0 ->
      CClauseFacts.cmp_names a d <= 0) /\
  reachable CClauseFacts.cmp_names set_5 /\
  set_size set_5 + 1 < 2 ^ 30 /\
  set_add set_5 7 =
  Some (true, {| vec := {| array := [5; 7]; capacity := 4; size := 2 |};
                 compar := CClauseFacts.cmp_names |}) /\
  StronglySorted (fun a b => CClauseFacts.cmp_names a b < 0)
                 (array (vec set_5)) /\
  set_size set_5 = Z.of_nat (length (array (vec set_5))) /\
  (forall (e : Z) (b : bool) (s' : set_t Z),
      set_add set_5 e = Some (b, s') ->
      (b = true <->
       forall x, In x (array (vec set_5)) ->
                 CClauseFacts.cmp_names e x <> 0) /\
      (b = true -> set_size s' = set_size set_5 + 1) /\
      (b = false -> s' = set_5)) /\
  (set_size set_5 + 1 < 2 ^ 30 ->
   forall e : Z, exists b s', set_add set_5 e = Some (b, s')).
Proof.
  assert (H1 : forall a b : Z,
      CClauseFacts.cmp_names a b < 0 <-> CClauseFacts.cmp_names b a > 0)
    by (unfold CClauseFacts.cmp_names; intros; lia).
  assert (H2 : forall a b d : Z,
      CClauseFacts.cmp_names a b <= 0 -> CClauseFacts.cmp_names b d <= 0 ->
      CClauseFacts.cmp_names a d <= 0)
    by (unfold CClauseFacts.cmp_names; intros; lia).
  assert (H3 : reachable CClauseFacts.cmp_names set_5).
  { apply (reach_add CClauseFacts.cmp_names
             (set_init CClauseFacts.cmp_names) 5 true set_5).
    - apply reach_init.
    - reflexivity. }
  assert (H4 : set_size set_5 + 1 < 2 ^ 30) by (cbn; lia).
  split; [exact H1|]. split; [exact H2|]. split; [exact H3|].
  split; [exact H4|]. split; [reflexivity|].
  exact (reachable_sorted_and_set_add CClauseFacts.cmp_names H1 H2 set_5 H3).
Defined.

(** The operations at work on small sets of integers. *)
Example set_union_example :
  option_map (fun s => array (vec s))
    (l <- set_singleton CClauseFacts.cmp_names 7 ;;
     ' (_, l) <- set_add l 3 ;;
     ' (_, l) <- set_add l 9 ;;
     ' (_, r) <- set_add set_5 3 ;;
     set_union l r) = Some [3; 5; 7; 9].
Proof. vm_compute. reflexivity. Qed.

End SetFacts.

(* ================================================================== *)
(** * Part III. Further properties of the embedded code                 *)
(* ================================================================== *)

(** ** vector.c: copies, insertion, removal, comparison *)

Module VectorExtra.
Import Vector SetFacts.

Section Vec.
Context {A : Type}.

(** X1.  For an owning vector [v] and [0 <= from <= to <= size(v)], the
    copy [vector_copy_range(v, from, to)] has size [to - from] and its
    [i]-th element is element [from + i] of [v], which exists. *)
Theorem vector_copy_range_get (v : vector_t A) (from to i : Z) :
  vwf v -> 0 <= from <= to -> to <= size v -> 0 <= i < to - from ->
  vector_size (vector_copy_range v from to) = to - from /\
  vector_get (vector_copy_range v from to) i = vector_get v (from + i) /\
  exists x, vector_get v (from + i) = Some x.
Proof.
  intros Hv Hft Hto Hi. pose proof Hv as [Hsz _].
  split; [reflexivity|].
  destruct (vector_get_Some v (from + i) Hv ltac:(lia)) as (x & Gx & Nx).
  split; [|eauto]. rewrite Gx.
  unfold vector_get, vector_copy_range. cbn [array size].
  replace ((0 <=? i) && (i <? to - from)) with true
    by (symmetry; apply andb_true_iff; split;
        [apply Z.leb_le | apply Z.ltb_lt]; lia).
  rewrite nth_error_firstn.
  destruct (Nat.ltb_spec (Z.to_nat i) (Z.to_nat (to - from))); [|lia].
  rewrite nth_error_skipn, <- Nx. f_equal. lia.
Qed.

(** X2.  [vector_insert(v, i, e)] on an owning vector with
    [0 <= i <= size(v)] and [size(v) + 1 < 2^30], so that neither
    [size + 1] nor the doubled capacity leaves the [int] range, returns;
    afterwards the size is one more, element [i] is [e], the elements
    before [i] are where they were and each element from [i] on has moved
    up by one. *)
Theorem vector_insert_get (v : vector_t A) (i : Z) (e : A) :
  vwf v -> 0 <= i <= size v -> size v + 1 < 2 ^ 30 ->
  exists v',
    vector_insert v i e = Some v' /\
    vector_size v' = vector_size v + 1 /\
    vector_get v' i = Some e /\
    (forall j, 0 <= j < i -> vector_get v' j = vector_get v j) /\
    (forall j, i <= j < size v -> vector_get v' (j + 1) = vector_get v j).
Proof.
  intros Hv Hi Hroom. pose proof Hv as [Hsz _].
  destruct (vector_insert_ok v i e Hv Hi Hroom)
    as (v' & Hins & Hv' & Hsz' & Harr).
  exists v'. split; [exact Hins|]. split; [exact Hsz'|].
  assert (Hlen : length (firstn (Z.to_nat i) (array v)) = Z.to_nat i)
    by (rewrite length_firstn; lia).
  split; [|split].
  - rewrite vector_get_nth by lia. rewrite Harr.
    rewrite nth_error_app2 by lia. rewrite Hlen, Nat.sub_diag. reflexivity.
  - intros j Hj. rewrite !vector_get_nth by lia. rewrite Harr.
    rewrite nth_error_app1 by lia. rewrite nth_error_firstn.
    destruct (Nat.ltb_spec (Z.to_nat j) (Z.to_nat i)); [reflexivity|lia].
  - intros j Hj. rewrite !vector_get_nth by lia. rewrite Harr.
    rewrite nth_error_app2 by lia. rewrite Hlen.
    replace (Z.to_nat (j + 1) - Z.to_nat i)%nat
      with (S (Z.to_nat j - Z.to_nat i)) by lia.
    cbn [nth_error]. rewrite nth_error_skipn. f_equal. lia.
Qed.

(** X3.  On an owning vector with [size(v) + 1 < 2^30] (the insertion
    stays in the [int] range), removing at the index just inserted at
    gives the element back and restores the elements and the size of the
    vector. *)
Theorem vector_remove_insert (v : vector_t A) (i : Z) (e : A) :
  vwf v -> 0 <= i <= size v -> size v + 1 < 2 ^ 30 ->
  exists v' v'',
    vector_insert v i e = Some v' /\
    vector_remove v' i = Some (e, v'') /\
    array v'' = array v /\ size v'' = size v.
Proof.
  intros Hv Hi Hroom. pose proof Hv as [Hsz _].
  destruct (vector_insert_ok v i e Hv Hi Hroom)
    as (v' & Hins & Hv' & Hsz' & Harr).
  destruct (vector_remove_ok v' i Hv' ltac:(lia))
    as (x & v'' & Hrem & _ & Hsz'' & Harr'').
  assert (Hlen : length (firstn (Z.to_nat i) (array v)) = Z.to_nat i)
    by (rewrite length_firstn; lia).
  assert (Hx : x = e).
  { unfold vector_remove in Hrem.
    replace ((0 <=? i) && (i <? size v')) with true in Hrem
      by (symmetry; apply andb_true_iff; split;
          [apply Z.leb_le | apply Z.ltb_lt]; lia).
    rewrite Harr in Hrem. rewrite nth_error_app2 in Hrem by lia.
    rewrite Hlen, Nat.sub_diag in Hrem. cbn [nth_error obind] in Hrem.
    congruence. }
  subst x. exists v', v''. split; [exact Hins|]. split; [exact Hrem|].
  split; [|lia]. rewrite Harr'', Harr.
  rewrite firstn_app, Hlen, Nat.sub_diag. cbn [firstn].
  rewrite app_nil_r, firstn_firstn, Nat.min_id.
  replace (S (Z.to_nat i)) with (length (firstn (Z.to_nat i) (array v) ++ [e]))
    by (rewrite length_app, Hlen; cbn [length]; lia).
  replace (firstn (Z.to_nat i) (array v) ++ e :: skipn (Z.to_nat i) (array v))
    with ((firstn (Z.to_nat i) (array v) ++ [e]) ++ skipn (Z.to_nat i) (array v))
    by (rewrite <- app_assoc; reflexivity).
  rewrite skipn_app, skipn_all, Nat.sub_diag. cbn [app skipn].
  apply firstn_skipn.
Qed.

(** The comparison loop finds a pair that does not compare 0, or reports 0
    when the first [k] cells from [i] on compare 0 pairwise. *)
Lemma vector_cmp_loop_spec (c : A -> A -> Z) (v1 v2 : vector_t A) (k : nat) :
  forall i : nat,
    (i + k <= length (array v1))%nat -> (i + k <= length (array v2))%nat ->
    exists r,
      vector_cmp_loop c v1 v2 k (Z.of_nat i) = Some r /\
      (r = 0 <->
       Forall2 (fun x y => c x y = 0)
               (firstn k (skipn i (array v1))) (firstn k (skipn i (array v2)))).
Proof.
  induction k as [|k IH]; intros i H1 H2; cbn [vector_cmp_loop firstn].
  - exists 0. split; [reflexivity|]. split; [constructor|reflexivity].
  - rewrite Nat2Z.id.
    destruct (nth_error (array v1) i) as [x|] eqn:E1;
      [|apply nth_error_None in E1; lia].
    destruct (nth_error (array v2) i) as [y|] eqn:E2;
      [|apply nth_error_None in E2; lia].
    cbn [obind]. cbv zeta.
    rewrite (skipn_nth_cons (array v1) i x E1).
    rewrite (skipn_nth_cons (array v2) i y E2). cbn [firstn].
    destruct (c x y =? 0) eqn:E0; cbn [negb].
    + apply Z.eqb_eq in E0.
      replace (Z.of_nat i + 1) with (Z.of_nat (S i)) by lia.
      destruct (IH (S i) ltac:(lia) ltac:(lia)) as (r & Hr & Hiff).
      exists r. split; [exact Hr|]. rewrite Hiff. split.
      * intros H. constructor; assumption.
      * intros H. inversion H. assumption.
    + apply Z.eqb_neq in E0. exists (c x y). split; [reflexivity|].
      split; [lia|]. intros H. inversion H. contradiction.
Qed.

(** X4.  For two different owning vectors and a comparator, [vector_eq]
    returns, and it returns [true] exactly when the sizes are equal and the
    elements compare 0 position by position. *)
Theorem vector_eq_spec (memcmp : list A -> list A -> Z -> Z)
    (c : A -> A -> Z) (v1 v2 : vector_t A) :
  vwf v1 -> vwf v2 ->
  exists b,
    vector_eq memcmp false v1 v2 (Some c) = Some b /\
    (b = true <->
     size v1 = size v2 /\
     Forall2 (fun x y => c x y = 0) (array v1) (array v2)).
Proof.
  intros [Hs1 _] [Hs2 _]. unfold vector_eq.
  destruct (size v1 =? size v2) eqn:Esz.
  - apply Z.eqb_eq in Esz. unfold vector_cmp, MIN.
    replace (if size v1 <? size v2 then size v1 else size v2)
      with (size v1) by (destruct (size v1 <? size v2); lia).
    destruct (vector_cmp_loop_spec c v1 v2 (Z.to_nat (size v1)) O
                ltac:(lia) ltac:(lia)) as (r & Hr & Hiff).
    cbn [Z.of_nat] in Hr. rewrite Hr. cbn [obind].
    cbn [skipn] in Hiff.
    rewrite !firstn_all2 in Hiff by lia.
    destruct (r =? 0) eqn:E0; cbn [negb obind].
    + apply Z.eqb_eq in E0. exists true.
      replace (size v1 - size v2 =? 0) with true
        by (symmetry; apply Z.eqb_eq; lia).
      split; [reflexivity|]. split; [|reflexivity].
      intros _. split; [exact Esz|]. apply Hiff, E0.
    + rewrite E0. exists false. split; [reflexivity|].
      apply Z.eqb_neq in E0. split; [discriminate|].
      intros [_ H]. apply Hiff in H. contradiction.
  - exists false. split; [reflexivity|]. apply Z.eqb_neq in Esz.
    split; [discriminate|]. intros [H _]. contradiction.
Qed.

End Vec.

Definition vec_123 : vector_t Z :=
  {| array := [1; 2; 3]; capacity := 4; size := 3 |}.

Lemma vwf_vec_123 : vwf vec_123.
Proof. split; [reflexivity | reflexivity]. Defined.

Lemma vector_copy_range_get_witness :
  vwf vec_123 /\ 0 <= 1 <= 3 /\ 3 <= size vec_123 /\ 0 <= 1 < 3 - 1 /\
  vector_size (vector_copy_range vec_123 1 3) = 3 - 1 /\
  vector_get (vector_copy_range vec_123 1 3) 1 = vector_get vec_123 (1 + 1) /\
  exists x, vector_get vec_123 (1 + 1) = Some x.
Proof.
  assert (H1 : 0 <= 1 <= 3) by lia.
  assert (H2 : 3 <= size vec_123) by (cbn; lia).
  assert (H3 : 0 <= 1 < 3 - 1) by lia.
  split; [exact vwf_vec_123|]. split; [exact H1|]. split; [exact H2|].
  split; [exact H3|].
  exact (vector_copy_range_get vec_123 1 3 1 vwf_vec_123 H1 H2 H3).
Defined.

Lemma vector_insert_get_witness :
  vwf vec_123 /\ 0 <= 1 <= size vec_123 /\ size vec_123 + 1 < 2 ^ 30 /\
  exists v',
    vector_insert vec_123 1 9 = Some v' /\
    vector_size v' = vector_size vec_123 + 1 /\
    vector_get v' 1 = Some 9 /\
    (forall j, 0 <= j < 1 -> vector_get v' j = vector_get vec_123 j) /\
    (forall j, 1 <= j < size vec_123 ->
               vector_get v' (j + 1) = vector_get vec_123 j).
Proof.
  assert (H1 : 0 <= 1 <= size vec_123) by (cbn; lia).
  assert (H2 : size vec_123 + 1 < 2 ^ 30) by (cbn; lia).
  split; [exact vwf_vec_123|]. split; [exact H1|]. split; [exact H2|].
  exact (vector_insert_get vec_123 1 9 vwf_vec_123 H1 H2).
Defined.

Lemma vector_remove_insert_witness :
  vwf vec_123 /\ 0 <= 1 <= size vec_123 /\ size vec_123 + 1 < 2 ^ 30 /\
  exists v' v'',
    vector_insert vec_123 1 9 = Some v' /\
    vector_remove v' 1 = Some (9, v'') /\
    array v'' = array vec_123 /\ size v'' = size vec_123.
Proof.
  assert (H1 : 0 <= 1 <= size vec_123) by (cbn; lia).
  assert (H2 : size vec_123 + 1 < 2 ^ 30) by (cbn; lia).
  split; [exact vwf_vec_123|]. split; [exact H1|]. split; [exact H2|].
  exact (vector_remove_insert vec_123 1 9 vwf_vec_123 H1 H2).
Defined.

Lemma vector_eq_spec_witness :
  vwf vec_123 /\ vwf vec_123 /\
  exists b,
    vector_eq (fun _ _ _ => 0) false vec_123 vec_123
              (Some CClauseFacts.cmp_names) = Some b /\
    (b = true <->
     size vec_123 = size vec_123 /\
     Forall2 (fun x y => CClauseFacts.cmp_names x y = 0)
             (array vec_123) (array vec_123)).
Proof.
  split; [exact vwf_vec_123|]. split; [exact vwf_vec_123|].
  exact (vector_eq_spec (fun _ _ _ => 0) CClauseFacts.cmp_names
           vec_123 vec_123 vwf_vec_123 vwf_vec_123).
Defined.

End VectorExtra.

(** ** set.c: membership *)

Module SetExtra.
Import Vector CSet SetFacts.

Section Sets.
Context {A : Type}.
Variable c : compar_t A.
Hypothesis c_anti : forall a b, c a b < 0 <-> c b a > 0.
Hypothesis c_trans : forall a b d, c a b <= 0 -> c b d <= 0 -> c a d <= 0.

Lemma c_refl (a : A) : c a a = 0.
Proof. pose proof (c_anti a a). lia. Qed.

Lemma set_contains_iff (s : set_t A) (e : A) :
  set_ok c s -> set_size s <= 2 ^ 30 ->
  exists b,
    set_contains s e = Some b /\
    (b = true <-> exists x, In x (array (vec s)) /\ c e x = 0).
Proof.
  intros Hok Hroom. destruct (search_spec c c_anti c_trans s e Hok Hroom)
    as (r & Hr & Hpost).
  unfold set_contains, set_find. rewrite Hr. cbn [obind].
  destruct Hpost as [(-> & Hnone)|(Hrng & x & Hx & Ex)].
  - exists false. split; [reflexivity|]. split; [discriminate|].
    intros (x & Hx & Ex). exfalso. exact (Hnone x Hx Ex).
  - exists true. split.
    + replace (r =? -1) with false by (symmetry; apply Z.eqb_neq; lia).
      reflexivity.
    + split; [|reflexivity]. intros _. exists x. split; [|exact Ex].
      apply nth_error_In with (n := Z.to_nat r). exact Hx.
Qed.

(** X5.  On a well-formed set of at most [2^30] elements, so that the
    sum [lo + hi] of the binary search stays in the [int] range,
    [set_contains(s, e)] returns, and it returns [true] exactly when some
    element of [s] compares equal to [e]. *)
Theorem set_contains_spec (s : set_t A) (e : A) :
  set_ok c s -> set_size s <= 2 ^ 30 ->
  exists b,
    set_contains s e = Some b /\
    (b = true <-> exists x, In x (array (vec s)) /\ c e x = 0).
Proof. apply set_contains_iff. Qed.

(** What [set_add] does to the array. *)
Lemma set_add_array (s : set_t A) (e : A) :
  set_ok c s -> set_size s + 1 < 2 ^ 30 ->
  exists b s',
    set_add s e = Some (b, s') /\ set_ok c s' /\
    set_size s' <= set_size s + 1 /\
    ((b = false /\ s' = s /\ exists x, In x (array (vec s)) /\ c e x = 0) \/
     (b = true /\ (forall x, In x (array (vec s)) -> c e x <> 0) /\
      exists n, array (vec s') =
                firstn n (array (vec s)) ++ e :: skipn n (array (vec s)))).
Proof.
  intros Hok Hroom. pose proof Hok as (Hc & Hv & Hs).
  unfold set_size, vector_size in *.
  destruct (insert_pos_spec c c_anti c_trans s e Hok ltac:(lia))
    as (r & Hr & Hpost).
  unfold set_add. rewrite Hr. cbn [obind].
  destruct Hpost as [(-> & x & Hx & Ex)|(Hrng & Hbelow & Habove)].
  - cbn [Z.eqb negb]. exists false, s. split; [reflexivity|].
    split; [exact Hok|]. split; [lia|]. left. eauto.
  - replace (r =? -1) with false by (symmetry; apply Z.eqb_neq; lia).
    cbn [negb]. destruct Hv as [Hsz Hcap].
    destruct (vector_insert_ok (vec s) r e (conj Hsz Hcap) ltac:(lia) Hroom)
      as (v' & Hins & Hv' & Hsz' & Harr').
    rewrite Hins. cbn [obind].
    exists true, {| vec := v'; compar := compar s |}.
    split; [reflexivity|]. split; [|split].
    + split; [exact Hc|]. split; [exact Hv'|]. cbn [vec]. rewrite Harr'.
      apply sorted_insert; assumption.
    + cbn [vec]. lia.
    + right. split; [reflexivity|]. split.
      * intros x Hx. rewrite <- (firstn_skipn (Z.to_nat r)) in Hx.
        apply in_app_or in Hx as [Hx|Hx].
        -- apply Hbelow in Hx. unfold SetFacts.lt in Hx.
           pose proof (c_anti x e). lia.
        -- apply Habove in Hx. unfold SetFacts.lt in Hx. lia.
      * exists (Z.to_nat r). exact Harr'.
Qed.

(** Adding an element that the set holds returns [false] and changes
    nothing. *)
Lemma set_add_present (s : set_t A) (e : A) :
  set_ok c s -> set_size s <= 2 ^ 30 ->
  (exists x, In x (array (vec s)) /\ c e x = 0) ->
  set_add s e = Some (false, s).
Proof.
  intros Hok Hroom (x & Hx & Ex).
  destruct (insert_pos_spec c c_anti c_trans s e Hok Hroom)
    as (r & Hr & Hpost).
  unfold set_add. rewrite Hr. cbn [obind].
  destruct Hpost as [(-> & _)|(Hrng & Hbelow & Habove)]; [reflexivity|].
  exfalso. rewrite <- (firstn_skipn (Z.to_nat r)) in Hx.
  apply in_app_or in Hx as [Hx|Hx].
  - apply Hbelow in Hx. unfold SetFacts.lt in Hx.
    pose proof (c_anti x e). lia.
  - apply Habove in Hx. unfold SetFacts.lt in Hx. lia.
Qed.

(** X6.  On a well-formed set with [set_size(s) + 1 < 2^30] (the
    search and the insertion stay in the [int] range), [set_add(s, e)]
    returns; afterwards the set contains [e], keeps every element it had
    and gains at most [e]; a second [set_add] of the same element returns
    [false] and changes nothing. *)
Theorem set_add_then_contains (s : set_t A) (e : A) :
  set_ok c s -> set_size s + 1 < 2 ^ 30 ->
  exists b s',
    set_add s e = Some (b, s') /\
    set_contains s' e = Some true /\
    set_add s' e = Some (false, s') /\
    (forall x, In x (array (vec s)) -> In x (array (vec s'))) /\
    (forall x, In x (array (vec s')) -> x = e \/ In x (array (vec s))).
Proof.
  intros Hok Hroom.
  destruct (set_add_array s e Hok Hroom)
    as (b & s' & Ha & Hok' & Hsz' & Hcase).
  exists b, s'. split; [exact Ha|].
  assert (Hex : exists x, In x (array (vec s')) /\ c e x = 0).
  { destruct Hcase as [(_ & -> & Hx)|(_ & _ & n & Harr)]; [exact Hx|].
    exists e. split; [|apply c_refl]. rewrite Harr.
    apply in_or_app. right. left. reflexivity. }
  split; [|split; [|split]].
  - destruct (set_contains_iff s' e Hok' ltac:(lia)) as (b' & Hb' & Hiff).
    rewrite Hb'. f_equal. apply Hiff, Hex.
  - apply (set_add_present s' e Hok' ltac:(lia) Hex).
  - intros x Hx. destruct Hcase as [(_ & -> & _)|(_ & _ & n & Harr)];
      [exact Hx|].
    rewrite Harr. rewrite <- (firstn_skipn n) in Hx.
    apply in_app_or in Hx as [Hx|Hx]; apply in_or_app;
      [left | right; right]; exact Hx.
  - intros x Hx. destruct Hcase as [(_ & -> & _)|(_ & _ & n & Harr)];
      [right; exact Hx|].
    rewrite Harr in Hx. apply in_app_or in Hx as [Hx|[<-|Hx]].
    + right. rewrite <- (firstn_skipn n). apply in_or_app. left. exact Hx.
    + left. reflexivity.
    + right. rewrite <- (firstn_skipn n). apply in_or_app. right. exact Hx.
Qed.

(** X7.  On a well-formed set of at most [2^30] elements (the sum
    [lo + hi] of the binary search stays in the [int] range)
    [set_remove(s, e)] returns; it returns [true] exactly when some
    element compares equal to [e], and then the size drops by one, no
    element equal to [e] is left and every other element stays; otherwise
    the set is unchanged. *)
Theorem set_remove_spec (s : set_t A) (e : A) :
  set_ok c s -> set_size s <= 2 ^ 30 ->
  exists b s',
    set_remove s e = Some (b, s') /\ set_ok c s' /\
    (b = true <-> exists x, In x (array (vec s)) /\ c e x = 0) /\
    (b = true ->
     set_size s' = set_size s - 1 /\
     (forall x, In x (array (vec s')) -> In x (array (vec s)) /\ c e x <> 0) /\
     (forall x, In x (array (vec s)) -> c e x <> 0 -> In x (array (vec s')))) /\
    (b = false -> s' = s).
Proof.
  intros Hok Hroom. pose proof Hok as (Hc & Hv & Hs).
  pose proof Hv as [Hsz _].
  destruct (search_spec c c_anti c_trans s e Hok Hroom) as (r & Hr & Hpost).
  unfold set_remove. rewrite Hr. cbn [obind].
  destruct Hpost as [(-> & Hnone)|(Hrng & y & Hy & Ey)].
  - cbn [Z.eqb negb]. exists false, s. split; [reflexivity|].
    split; [exact Hok|]. split; [|split; [discriminate|reflexivity]].
    split; [discriminate|]. intros (x & Hx & Ex). exfalso.
    exact (Hnone x Hx Ex).
  - replace (r =? -1) with false by (symmetry; apply Z.eqb_neq; lia).
    cbn [negb].
    destruct (vector_remove_ok (vec s) r Hv ltac:(lia))
      as (x & v' & Hrem & Hv' & Hsz' & Harr').
    rewrite Hrem. cbn [obind].
    exists true, {| vec := v'; compar := compar s |}.
    split; [reflexivity|].
    assert (Hyin : In y (array (vec s)))
      by (apply nth_error_In with (n := Z.to_nat r); exact Hy).
    split; [|split; [|split; [|discriminate]]].
    + split; [exact Hc|]. split; [exact Hv'|]. cbn [vec]. rewrite Harr'.
      apply sorted_remove, Hs.
    + split; [|reflexivity]. intros _. eauto.
    + intros _. split; [exact Hsz'|]. cbn [vec]. rewrite Harr'. split.
      * intros x0 Hx0. apply in_app_or in Hx0 as [Hx0|Hx0].
        -- split; [rewrite <- (firstn_skipn (Z.to_nat r)); apply in_or_app;
                   left; exact Hx0|].
           assert (SetFacts.lt c x0 y).
           { apply In_firstn_nth in Hx0 as (k & Hk & Hx0).
             apply (sorted_nth_error c (array (vec s)) k (Z.to_nat r)
                      x0 y Hs Hk Hx0 Hy). }
           unfold SetFacts.lt in H. intros E0.
           pose proof (c_lt_le c c_anti c_trans x0 y e H
                         ltac:(apply c_eq_sym in Ey; [lia|assumption])).
           pose proof (c_anti x0 e). lia.
        -- split; [rewrite <- (firstn_skipn (S (Z.to_nat r)));
                   apply in_or_app; right; exact Hx0|].
           assert (SetFacts.lt c y x0).
           { apply In_skipn_nth in Hx0 as (k & Hk & Hx0).
             apply (sorted_nth_error c (array (vec s)) (Z.to_nat r) k
                      y x0 Hs ltac:(lia) Hy Hx0). }
           unfold SetFacts.lt in H. intros E0.
           pose proof (c_le_lt c c_anti c_trans e y x0 ltac:(lia) H). lia.
      * intros x0 Hx0 Hne.
        apply In_nth_error in Hx0 as (k & Hk).
        destruct (Nat.lt_trichotomy k (Z.to_nat r)) as [Hlt|[->|Hgt]].
        -- apply in_or_app. left.
           apply nth_error_In with (n := k). rewrite nth_error_firstn.
           destruct (Nat.ltb_spec k (Z.to_nat r)); [exact Hk|lia].
        -- rewrite Hy in Hk. injection Hk as <-. contradiction.
        -- apply in_or_app. right.
           apply nth_error_In with (n := (k - S (Z.to_nat r))%nat).
           rewrite nth_error_skipn, <- Hk. f_equal. lia.
Qed.

(** *** Members of the merged sets *)

Lemma skipn_nth_In (l : list A) (n : nat) (y x : A) :
  nth_error l n = Some y ->
  In x (skipn n l) <-> x = y \/ In x (skipn (S n) l).
Proof.
  intros H. rewrite (skipn_nth_cons l n y H). cbn [In].
  split; intros [E|E]; auto.
Qed.

Lemma In_skipn (l : list A) (n : nat) (x : A) : In x (skipn n l) -> In x l.
Proof.
  intros H. rewrite <- (firstn_skipn n l). apply in_or_app. right. exact H.
Qed.

Lemma skipn_size_nil (v : vector_t A) (i : Z) :
  vwf v -> size v <= i -> skipn (Z.to_nat i) (array v) = [].
Proof. intros [Hs _] Hi. apply skipn_all2. lia. Qed.

Section MergeMembers.
Variables l r : set_t A.
Hypothesis Hl : set_ok c l.
Hypothesis Hr : set_ok c r.

Let al := array (vec l).
Let ar := array (vec r).
Let sl := size (vec l).
Let sr := size (vec r).

Lemma set_union_loop_members (fuel : nat) :
  sl + sr < 2 ^ 30 ->
  forall (v : vector_t A) (i j : Z),
    vwf v -> 0 <= i <= sl -> 0 <= j <= sr ->
    (sl - i) + (sr - j) <= Z.of_nat fuel ->
    size v <= i + j ->
    exists v' i' j',
      set_union_loop fuel l r v i j = Some (v', i', j') /\
      vwf v' /\ 0 <= i' <= sl /\ 0 <= j' <= sr /\
      size v' <= i' + j' /\
      (forall x, In x (array v') -> In x (array v) \/ In x al \/ In x ar) /\
      (forall x, In x (array v) \/ In x (skipn (Z.to_nat i) al) ->
                 In x (array v') \/ In x (skipn (Z.to_nat i') al)) /\
      (forall x, (exists y, In y (array v) /\ c x y = 0) \/
                 In x (skipn (Z.to_nat j) ar) ->
                 (exists y, In y (array v') /\ c x y = 0) \/
                 In x (skipn (Z.to_nat j') ar)).
Proof.
  intros Hroom.
  destruct Hl as (Hcl & Hvl & Hsl). destruct Hr as (Hcr & Hvr & Hsr).
  induction fuel as [|fuel IH]; intros v i j Hv Hi Hj Hfuel Hcnt;
    rewrite set_union_loop_eq; unfold vector_size; fold sl sr.
  - replace ((i <? sl) && (j <? sr)) with false.
    + exists v, i, j.
      refine (conj eq_refl (conj Hv (conj Hi (conj Hj
               (conj Hcnt (conj _ (conj _ _)))))));
        auto.
    + symmetry. apply andb_false_iff.
      destruct (Z.ltb_spec i sl); [right; apply Z.ltb_ge; lia | auto].
  - destruct ((i <? sl) && (j <? sr)) eqn:E.
    2:{ exists v, i, j.
        refine (conj eq_refl (conj Hv (conj Hi (conj Hj
                 (conj Hcnt (conj _ (conj _ _))))))); auto. }
    apply andb_true_iff in E as [Ei Ej].
    apply Z.ltb_lt in Ei. apply Z.ltb_lt in Ej.
    destruct (vector_get_Some (vec l) i Hvl ltac:(fold sl; lia))
      as (li & Gl & Nl).
    destruct (vector_get_Some (vec r) j Hvr ltac:(fold sr; lia))
      as (rj & Gr & Nr).
    fold al in Nl. fold ar in Nr.
    assert (Hli : In li al) by (eapply nth_error_In; exact Nl).
    assert (Hrj : In rj ar) by (eapply nth_error_In; exact Nr).
    rewrite Gl, Gr. cbn [obind]. cbv zeta. rewrite Hcl.
    destruct (c li rj <? 0) eqn:E1; [|destruct (c li rj >? 0) eqn:E2].
    + destruct (vector_append_ok v li Hv ltac:(lia))
        as (v1 & Ha & Hv1 & Hsz1 & Harr).
      rewrite Ha. cbn [obind].
      destruct (IH v1 (i + 1) j Hv1 ltac:(lia) Hj ltac:(lia) ltac:(lia))
        as (v' & i' & j' & Hloop & Hv' & Hi' & Hj' & Hcnt' & P1 & P2 & P3).
      replace (Z.to_nat (i + 1)) with (S (Z.to_nat i)) in P2 by lia.
      rewrite Harr in P1, P2, P3.
      exists v', i', j'. split; [exact Hloop|].
      split; [exact Hv'|]. split; [exact Hi'|]. split; [exact Hj'|].
      split; [exact Hcnt'|].
      split; [|split].
      * intros x Hx. apply P1 in Hx as [Hx|Hx]; [|auto].
        apply in_app_or in Hx as [Hx|[<-|[]]]; auto.
      * intros x [Hx|Hx]; apply P2.
        -- left. apply in_or_app. auto.
        -- apply (skipn_nth_In al _ li x Nl) in Hx as [->|Hx]; [|auto].
           left. apply in_or_app. right. left. reflexivity.
      * intros x [(y & Hy & Ey)|Hx]; apply P3; [|auto].
        left. exists y. split; [apply in_or_app; auto | exact Ey].
    + destruct (vector_append_ok v rj Hv ltac:(lia))
        as (v1 & Ha & Hv1 & Hsz1 & Harr).
      rewrite Ha. cbn [obind].
      destruct (IH v1 i (j + 1) Hv1 Hi ltac:(lia) ltac:(lia) ltac:(lia))
        as (v' & i' & j' & Hloop & Hv' & Hi' & Hj' & Hcnt' & P1 & P2 & P3).
      replace (Z.to_nat (j + 1)) with (S (Z.to_nat j)) in P3 by lia.
      rewrite Harr in P1, P2, P3.
      exists v', i', j'. split; [exact Hloop|].
      split; [exact Hv'|]. split; [exact Hi'|]. split; [exact Hj'|].
      split; [exact Hcnt'|].
      split; [|split].
      * intros x Hx. apply P1 in Hx as [Hx|Hx]; [|auto].
        apply in_app_or in Hx as [Hx|[<-|[]]]; auto.
      * intros x [Hx|Hx]; apply P2; [|auto].
        left. apply in_or_app. auto.
      * intros x [(y & Hy & Ey)|Hx]; apply P3.
        -- left. exists y. split; [apply in_or_app; auto | exact Ey].
        -- apply (skipn_nth_In ar _ rj x Nr) in Hx as [->|Hx]; [|auto].
           left. exists rj. split; [|apply c_refl].
           apply in_or_app. right. left. reflexivity.
    + apply Z.ltb_ge in E1.
      assert (E3 : c li rj = 0)
        by (destruct (Z.gtb_spec (c li rj) 0); [discriminate|lia]).
      destruct (vector_append_ok v li Hv ltac:(lia))
        as (v1 & Ha & Hv1 & Hsz1 & Harr).
      rewrite Ha. cbn [obind].
      destruct (IH v1 (i + 1) (j + 1) Hv1 ltac:(lia) ltac:(lia) ltac:(lia)
                  ltac:(lia))
        as (v' & i' & j' & Hloop & Hv' & Hi' & Hj' & Hcnt' & P1 & P2 & P3).
      replace (Z.to_nat (i + 1)) with (S (Z.to_nat i)) in P2 by lia.
      replace (Z.to_nat (j + 1)) with (S (Z.to_nat j)) in P3 by lia.
      rewrite Harr in P1, P2, P3.
      exists v', i', j'. split; [exact Hloop|].
      split; [exact Hv'|]. split; [exact Hi'|]. split; [exact Hj'|].
      split; [exact Hcnt'|].
      split; [|split].
      * intros x Hx. apply P1 in Hx as [Hx|Hx]; [|auto].
        apply in_app_or in Hx as [Hx|[<-|[]]]; auto.
      * intros x [Hx|Hx]; apply P2.
        -- left. apply in_or_app. auto.
        -- apply (skipn_nth_In al _ li x Nl) in Hx as [->|Hx]; [|auto].
           left. apply in_or_app. right. left. reflexivity.
      * intros x [(y & Hy & Ey)|Hx]; apply P3.
        -- left. exists y. split; [apply in_or_app; auto | exact Ey].
        -- apply (skipn_nth_In ar _ rj x Nr) in Hx as [->|Hx]; [|auto].
           left. exists li. split; [|apply c_eq_sym; assumption].
           apply in_or_app. right. left. reflexivity.
Qed.

(** X8.  [set_union(l, r)] of two well-formed sets whose sizes add up
    to less than [2^30] (the [int] sum of the sizes and the capacity of
    the result stay in range) returns a well-formed set whose elements all
    come from [l] or [r], which holds every element of [l], and which
    holds for every element of [r] an element that compares equal to
    it. *)
Theorem set_union_members :
  size (vec l) + size (vec r) < 2 ^ 30 ->
  exists u,
    set_union l r = Some u /\ set_ok c u /\
    (forall x, In x (array (vec u)) -> In x al \/ In x ar) /\
    (forall x, In x al -> In x (array (vec u))) /\
    (forall x, In x ar -> exists y, In y (array (vec u)) /\ c x y = 0).
Proof.
  intros Hroom.
  destruct (set_union_ok c c_anti c_trans l r Hl Hr Hroom) as (u & Hu & Hok).
  exists u. split; [exact Hu|]. split; [exact Hok|].
  pose proof Hl as (Hcl & Hvl & Hsl). pose proof Hr as (Hcr & Hvr & Hsr).
  pose proof Hvl as [Hszl _]. pose proof Hvr as [Hszr _].
  unfold set_union in Hu.
  rewrite int_Some in Hu
    by (unfold set_size, vector_size, INT_MIN, INT_MAX; lia).
  cbn [obind] in Hu. cbv zeta in Hu.
  destruct (set_union_loop_members
              (Z.to_nat (vector_size (vec l) + vector_size (vec r)))
              Hroom
              (vec (set_init_with_size (compar l)
                      (set_size l + set_size r))) 0 0)
    as (v & i & j & Hloop & Hv & Hi & Hj & Hcnt & P1 & P2 & P3);
    try (unfold vector_size; subst sl sr; lia).
  { apply vwf_init_with_size. }
  { cbn [set_init_with_size vec vector_init_with_size size]. lia. }
  rewrite Hloop in Hu. cbn [obind] in Hu.
  destruct (vector_append_all_range_ok v (vec l) i Hv Hvl Hi
              ltac:(subst sl sr; lia))
    as (v1 & H1 & Hv1 & Hsz1 & Harr1).
  unfold vector_size in Hu. rewrite H1 in Hu. cbn [obind] in Hu.
  destruct (vector_append_all_range_ok v1 (vec r) j Hv1 Hvr Hj
              ltac:(subst sl sr; lia))
    as (v2 & H2 & Hv2 & _ & Harr2).
  rewrite H2 in Hu. cbn [obind] in Hu. injection Hu as <-. cbn [vec].
  rewrite Harr2, Harr1. fold al ar.
  split; [|split].
  - intros x Hx. apply in_app_or in Hx as [Hx|Hx];
      [apply in_app_or in Hx as [Hx|Hx]|].
    + apply P1 in Hx as [[]|Hx]. exact Hx.
    + left. exact (In_skipn al _ x Hx).
    + right. exact (In_skipn ar _ x Hx).
  - intros x Hx. apply in_or_app. left. apply in_or_app. apply P2.
    right. exact Hx.
  - intros x Hx. destruct (P3 x (or_intror Hx)) as [(y & Hy & Ey)|Hx'].
    + exists y. split; [|exact Ey]. apply in_or_app. left.
      apply in_or_app. left. exact Hy.
    + exists x. split; [|apply c_refl]. apply in_or_app. right. exact Hx'.
Qed.

Lemma set_intersection_loop_members (fuel : nat) :
  sl < 2 ^ 30 ->
  forall (v : vector_t A) (i j : Z),
    vwf v -> 0 <= i <= sl -> 0 <= j <= sr ->
    (sl - i) + (sr - j) <= Z.of_nat fuel ->
    size v <= i ->
    exists v',
      set_intersection_loop fuel l r v i j = Some v' /\
      (forall x, In x (array v') ->
                 In x (array v) \/
                 (In x al /\ exists y, In y ar /\ c x y = 0)) /\
      (forall x y, In x (skipn (Z.to_nat i) al) ->
                   In y (skipn (Z.to_nat j) ar) -> c x y = 0 ->
                   In x (array v')) /\
      (forall x, In x (array v) -> In x (array v')).
Proof.
  intros Hroom.
  destruct Hl as (Hcl & Hvl & Hsl). destruct Hr as (Hcr & Hvr & Hsr).
  induction fuel as [|fuel IH]; intros v i j Hv Hi Hj Hfuel Hcnt;
    rewrite set_intersection_loop_eq; unfold vector_size; fold sl sr.
  - replace ((i <? sl) && (j <? sr)) with false.
    + exists v. split; [reflexivity|]. split; [auto|]. split; [|auto].
      intros x y Hx Hy _. exfalso.
      destruct (Z.eq_dec i sl) as [->|].
      * unfold al, sl in Hx. rewrite skipn_size_nil in Hx by (auto; lia).
        exact Hx.
      * unfold ar in Hy. rewrite skipn_size_nil in Hy
          by (auto; fold sr; lia). exact Hy.
    + symmetry. apply andb_false_iff.
      destruct (Z.ltb_spec i sl); [right; apply Z.ltb_ge; lia | auto].
  - destruct ((i <? sl) && (j <? sr)) eqn:E.
    2:{ exists v. split; [reflexivity|]. split; [auto|]. split; [|auto].
        intros x y Hx Hy _. exfalso. apply andb_false_iff in E.
        destruct E as [E|E]; apply Z.ltb_ge in E.
        - unfold al in Hx. rewrite skipn_size_nil in Hx
            by (auto; fold sl; lia). exact Hx.
        - unfold ar in Hy. rewrite skipn_size_nil in Hy
            by (auto; fold sr; lia). exact Hy. }
    apply andb_true_iff in E as [Ei Ej].
    apply Z.ltb_lt in Ei. apply Z.ltb_lt in Ej.
    destruct (vector_get_Some (vec l) i Hvl ltac:(fold sl; lia))
      as (li & Gl & Nl).
    destruct (vector_get_Some (vec r) j Hvr ltac:(fold sr; lia))
      as (rj & Gr & Nr).
    fold al in Nl. fold ar in Nr.
    assert (Hli : In li al) by (eapply nth_error_In; exact Nl).
    assert (Hrj : In rj ar) by (eapply nth_error_In; exact Nr).
    assert (Habove_l : forall x, In x (skipn (S (Z.to_nat i)) al) ->
                                 c li x < 0).
    { intros x Hx. apply In_skipn_nth in Hx as (k & Hk & Hx).
      apply (sorted_nth_error c al (Z.to_nat i) k li x Hsl); [lia|auto..]. }
    assert (Habove_r : forall y, In y (skipn (S (Z.to_nat j)) ar) ->
                                 c rj y < 0).
    { intros y Hy. apply In_skipn_nth in Hy as (k & Hk & Hy).
      apply (sorted_nth_error c ar (Z.to_nat j) k rj y Hsr); [lia|auto..]. }
    rewrite Gl, Gr. cbn [obind]. cbv zeta. rewrite Hcl.
    destruct (c li rj <? 0) eqn:E1; [|destruct (c li rj >? 0) eqn:E2].
    + apply Z.ltb_lt in E1.
      destruct (IH v (i + 1) j Hv ltac:(lia) Hj ltac:(lia) ltac:(lia))
        as (v' & Hloop & P1 & P2 & P3).
      replace (Z.to_nat (i + 1)) with (S (Z.to_nat i)) in P2 by lia.
      exists v'. split; [exact Hloop|]. split; [exact P1|].
      split; [|exact P3].
      intros x y Hx Hy Exy.
      apply (skipn_nth_In al _ li x Nl) in Hx as [->|Hx]; [|eauto].
      exfalso.
      apply (skipn_nth_In ar _ rj y Nr) in Hy as [->|Hy]; [lia|].
      pose proof (c_lt_trans c c_anti c_trans li rj y E1 (Habove_r y Hy)).
      lia.
    + apply Z.gtb_lt in E2.
      destruct (IH v i (j + 1) Hv Hi ltac:(lia) ltac:(lia) ltac:(lia))
        as (v' & Hloop & P1 & P2 & P3).
      replace (Z.to_nat (j + 1)) with (S (Z.to_nat j)) in P2 by lia.
      exists v'. split; [exact Hloop|]. split; [exact P1|].
      split; [|exact P3].
      intros x y Hx Hy Exy.
      apply (skipn_nth_In ar _ rj y Nr) in Hy as [->|Hy]; [|eauto].
      exfalso.
      assert (Hrl : c rj li < 0) by (apply c_anti; lia).
      apply (skipn_nth_In al _ li x Nl) in Hx as [->|Hx]; [lia|].
      pose proof (c_lt_trans c c_anti c_trans rj li x Hrl (Habove_l x Hx)).
      apply (c_eq_sym c c_anti) in Exy. lia.
    + apply Z.ltb_ge in E1.
      assert (E3 : c li rj = 0)
        by (destruct (Z.gtb_spec (c li rj) 0); [discriminate|lia]).
      destruct (vector_append_ok v li Hv ltac:(lia))
        as (v1 & Ha & Hv1 & Hsz1 & Harr).
      rewrite Ha. cbn [obind].
      destruct (IH v1 (i + 1) (j + 1) Hv1 ltac:(lia) ltac:(lia) ltac:(lia)
                  ltac:(lia))
        as (v' & Hloop & P1 & P2 & P3).
      replace (Z.to_nat (i + 1)) with (S (Z.to_nat i)) in P2 by lia.
      replace (Z.to_nat (j + 1)) with (S (Z.to_nat j)) in P2 by lia.
      rewrite Harr in P1, P3.
      exists v'. split; [exact Hloop|]. split; [|split].
      * intros x Hx. apply P1 in Hx as [Hx|Hx]; [|auto].
        apply in_app_or in Hx as [Hx|[<-|[]]]; [auto|].
        right. split; [exact Hli|]. exists rj. auto.
      * intros x y Hx Hy Exy.
        apply (skipn_nth_In al _ li x Nl) in Hx as [->|Hx].
        { apply P3. apply in_or_app. right. left. reflexivity. }
        apply (skipn_nth_In ar _ rj y Nr) in Hy as [->|Hy]; [|eauto].
        exfalso.
        pose proof (c_lt_le c c_anti c_trans rj li x) as Hc.
        pose proof (Habove_l x Hx). pose proof (c_eq_sym c c_anti _ _ E3).
        pose proof (c_le_lt c c_anti c_trans rj li x ltac:(lia) H).
        apply (c_eq_sym c c_anti) in Exy. lia.
      * intros x Hx. apply P3. apply in_or_app. auto.
Qed.

(** X9.  [set_intersection(l, r)] of two well-formed sets, [l] of fewer
    than [2^30] elements (the appends to the result stay in the [int]
    range), returns a well-formed set that holds exactly the elements of
    [l] to which some element of [r] compares equal. *)
Theorem set_intersection_members :
  size (vec l) < 2 ^ 30 ->
  exists u,
    set_intersection l r = Some u /\ set_ok c u /\
    (forall x, In x (array (vec u)) <->
               In x al /\ exists y, In y ar /\ c x y = 0).
Proof.
  intros Hroom.
  destruct (set_intersection_ok c l r Hl Hr Hroom)
    as (u & Hu & Hok).
  exists u. split; [exact Hu|]. split; [exact Hok|].
  pose proof Hl as (Hcl & Hvl & Hsl). pose proof Hr as (Hcr & Hvr & Hsr).
  unfold set_intersection in Hu.
  destruct (set_intersection_loop_members
              (Z.to_nat (vector_size (vec l) + vector_size (vec r)))
              Hroom
              (vec (set_init_with_size (compar l)
                      (MIN (set_size l) (set_size r)))) 0 0)
    as (v & Hloop & P1 & P2 & _);
    try (unfold vector_size; subst sl sr; destruct Hvl, Hvr; lia).
  { apply vwf_init_with_size. }
  { cbn [set_init_with_size vec vector_init_with_size size]. lia. }
  rewrite Hloop in Hu. cbn [obind] in Hu. injection Hu as <-. cbn [vec].
  intros x. split.
  - intros Hx. apply P1 in Hx as [[]|Hx]. exact Hx.
  - intros (Hx & y & Hy & Exy). exact (P2 x y Hx Hy Exy).
Qed.

Lemma set_difference_inner_members (fuel : nat) :
  forall (i j : Z) (li : A),
    0 <= i < sl -> 0 <= j <= sr -> sr - j <= Z.of_nat fuel ->
    nth_error al (Z.to_nat i) = Some li ->
    exists b j',
      set_difference_inner fuel l r i j = Some (b, j') /\
      0 <= j' <= sr /\
      (forall y, In y (skipn (Z.to_nat j) ar) ->
                 In y (skipn (Z.to_nat j') ar) \/ c y li < 0) /\
      (b = true -> exists y, In y ar /\ c li y = 0) /\
      (b = false -> forall y, In y (skipn (Z.to_nat j') ar) -> c li y < 0).
Proof.
  destruct Hl as (Hcl & Hvl & Hsl). destruct Hr as (Hcr & Hvr & Hsr).
  induction fuel as [|fuel IH]; intros i j li Hi Hj Hfuel Nl;
    rewrite set_difference_inner_eq; unfold vector_size; fold sr.
  - replace (j <? sr) with false by (symmetry; apply Z.ltb_ge; lia).
    exists false, j. split; [reflexivity|]. split; [exact Hj|].
    split; [auto|]. split; [discriminate|]. intros _ y Hy.
    unfold ar in Hy. rewrite skipn_size_nil in Hy by (auto; fold sr; lia).
    destruct Hy.
  - destruct (j <? sr) eqn:Ej.
    2:{ apply Z.ltb_ge in Ej.
        exists false, j. split; [reflexivity|]. split; [exact Hj|].
        split; [auto|]. split; [discriminate|]. intros _ y Hy.
        unfold ar in Hy.
        rewrite skipn_size_nil in Hy by (auto; fold sr; lia).
        destruct Hy. }
    apply Z.ltb_lt in Ej.
    rewrite (vector_get_nth (vec l) i) by (fold sl; lia).
    fold al. rewrite Nl.
    destruct (vector_get_Some (vec r) j Hvr ltac:(fold sr; lia))
      as (rj & Gr & Nr).
    fold ar in Nr.
    assert (Hrj : In rj ar) by (eapply nth_error_In; exact Nr).
    rewrite Gr. cbn [obind]. cbv zeta. rewrite Hcl.
    destruct (c li rj <? 0) eqn:E1; [|destruct (c li rj >? 0) eqn:E2].
    + apply Z.ltb_lt in E1.
      exists false, j. split; [reflexivity|]. split; [exact Hj|].
      split; [auto|]. split; [discriminate|]. intros _ y Hy.
      apply (skipn_nth_In ar _ rj y Nr) in Hy as [->|Hy]; [exact E1|].
      apply (c_lt_trans c c_anti c_trans li rj y E1).
      apply In_skipn_nth in Hy as (k & Hk & Hy).
      apply (sorted_nth_error c ar (Z.to_nat j) k rj y Hsr); [lia|auto..].
    + apply Z.gtb_lt in E2.
      destruct (IH i (j + 1) li Hi ltac:(lia) ltac:(lia) Nl)
        as (b & j' & Hin & Hj' & Q1 & Q2 & Q3).
      replace (Z.to_nat (j + 1)) with (S (Z.to_nat j)) in Q1 by lia.
      exists b, j'. split; [exact Hin|]. split; [exact Hj'|].
      split; [|split; assumption].
      intros y Hy.
      apply (skipn_nth_In ar _ rj y Nr) in Hy as [->|Hy]; [|auto].
      right. apply c_anti. lia.
    + apply Z.ltb_ge in E1.
      assert (E3 : c li rj = 0)
        by (destruct (Z.gtb_spec (c li rj) 0); [discriminate|lia]).
      exists true, j. split; [reflexivity|]. split; [exact Hj|].
      split; [auto|]. split; [|discriminate]. intros _. eauto.
Qed.

Lemma set_difference_loop_members (fuel : nat) :
  sl < 2 ^ 30 ->
  forall (v : vector_t A) (i j : Z),
    vwf v -> 0 <= i <= sl -> 0 <= j <= sr ->
    sl - i <= Z.of_nat fuel ->
    size v <= i ->
    (forall y, In y ar ->
               In y (skipn (Z.to_nat j) ar) \/
               forall x, In x (skipn (Z.to_nat i) al) -> c y x < 0) ->
    exists v',
      set_difference_loop fuel l r v i j = Some v' /\
      (forall x, In x (array v') ->
                 In x (array v) \/
                 (In x al /\ forall y, In y ar -> c x y <> 0)) /\
      (forall x, In x (array v) -> In x (array v')) /\
      (forall x, In x (skipn (Z.to_nat i) al) ->
                 (forall y, In y ar -> c x y <> 0) -> In x (array v')).
Proof.
  intros Hroom.
  pose proof Hl as (Hcl & Hvl & Hsl). pose proof Hr as (Hcr & Hvr & Hsr).
  induction fuel as [|fuel IH]; intros v i j Hv Hi Hj Hfuel Hcnt HK;
    rewrite set_difference_loop_eq; unfold vector_size; fold sl sr.
  - replace (i <? sl) with false by (symmetry; apply Z.ltb_ge; lia).
    exists v. split; [reflexivity|]. split; [auto|]. split; [auto|].
    intros x Hx _. exfalso. unfold al in Hx.
    rewrite skipn_size_nil in Hx by (auto; fold sl; lia). exact Hx.
  - destruct (i <? sl) eqn:Ei.
    2:{ apply Z.ltb_ge in Ei.
        exists v. split; [reflexivity|]. split; [auto|]. split; [auto|].
        intros x Hx _. exfalso. unfold al in Hx.
        rewrite skipn_size_nil in Hx by (auto; fold sl; lia). exact Hx. }
    apply Z.ltb_lt in Ei.
    destruct (vector_get_Some (vec l) i Hvl ltac:(fold sl; lia))
      as (li & Gl & Nl).
    fold al in Nl.
    assert (Hli : In li al) by (eapply nth_error_In; exact Nl).
    assert (Habove_l : forall x, In x (skipn (S (Z.to_nat i)) al) ->
                                 c li x < 0).
    { intros x Hx. apply In_skipn_nth in Hx as (k & Hk & Hx).
      apply (sorted_nth_error c al (Z.to_nat i) k li x Hsl); [lia|auto..]. }
    destruct (set_difference_inner_members (Z.to_nat (sr - j)) i j li
                ltac:(lia) Hj ltac:(lia) Nl)
      as (b & j' & Hin & Hj' & Q1 & Q2 & Q3).
    rewrite Hin. cbn [obind].
    assert (HK' : forall y, In y ar ->
               In y (skipn (Z.to_nat j') ar) \/
               forall x, In x (skipn (S (Z.to_nat i)) al) -> c y x < 0).
    { intros y Hy. destruct (HK y Hy) as [Hy'|Hy'].
      - destruct (Q1 y Hy') as [Hy2|Hy2]; [auto|].
        right. intros x Hx.
        exact (c_lt_trans c c_anti c_trans y li x Hy2 (Habove_l x Hx)).
      - right. intros x Hx. apply Hy'.
        apply (skipn_nth_In al _ li x Nl). auto. }
    destruct b.
    + destruct (IH v (i + 1) j' Hv ltac:(lia) Hj' ltac:(lia) ltac:(lia))
        as (v' & Hloop & P1 & P2 & P3).
      { replace (Z.to_nat (i + 1)) with (S (Z.to_nat i)) by lia. exact HK'. }
      replace (Z.to_nat (i + 1)) with (S (Z.to_nat i)) in P3 by lia.
      exists v'. split; [exact Hloop|]. split; [exact P1|].
      split; [exact P2|].
      intros x Hx Hnone.
      apply (skipn_nth_In al _ li x Nl) in Hx as [->|Hx]; [|auto].
      exfalso. destruct (Q2 eq_refl) as (y & Hy & Ey).
      exact (Hnone y Hy Ey).
    + rewrite Gl. cbn [obind].
      destruct (vector_append_ok v li Hv ltac:(lia))
        as (v1 & Ha & Hv1 & Hsz1 & Harr).
      rewrite Ha. cbn [obind].
      destruct (IH v1 (i + 1) j' Hv1 ltac:(lia) Hj' ltac:(lia) ltac:(lia))
        as (v' & Hloop & P1 & P2 & P3).
      { replace (Z.to_nat (i + 1)) with (S (Z.to_nat i)) by lia. exact HK'. }
      replace (Z.to_nat (i + 1)) with (S (Z.to_nat i)) in P3 by lia.
      rewrite Harr in P1, P2.
      exists v'. split; [exact Hloop|]. split; [|split].
      * intros x Hx. apply P1 in Hx as [Hx|Hx]; [|auto].
        apply in_app_or in Hx as [Hx|[<-|[]]]; [auto|].
        right. split; [exact Hli|]. intros y Hy.
        destruct (HK y Hy) as [Hy'|Hy'].
        -- destruct (Q1 y Hy') as [Hy2|Hy2].
           ++ pose proof (Q3 eq_refl y Hy2). lia.
           ++ pose proof (c_anti y li). lia.
        -- assert (c y li < 0).
           { apply Hy'. apply (skipn_nth_In al _ li li Nl). auto. }
           pose proof (c_anti y li). lia.
      * intros x Hx. apply P2. apply in_or_app. auto.
      * intros x Hx Hnone.
        apply (skipn_nth_In al _ li x Nl) in Hx as [->|Hx]; [|auto].
        apply P2. apply in_or_app. right. left. reflexivity.
Qed.

(** X10.  [set_difference(l, r)] of two well-formed sets, [l] of fewer
    than [2^30] elements (the appends to the result stay in the [int]
    range), returns a well-formed set that holds exactly the elements of
    [l] to which no element of [r] compares equal. *)
Theorem set_difference_members :
  size (vec l) < 2 ^ 30 ->
  exists u,
    set_difference l r = Some u /\ set_ok c u /\
    (forall x, In x (array (vec u)) <->
               In x al /\ forall y, In y ar -> c x y <> 0).
Proof.
  intros Hroom.
  destruct (set_difference_ok c l r Hl Hr Hroom)
    as (u & Hu & Hok).
  exists u. split; [exact Hu|]. split; [exact Hok|].
  pose proof Hl as (Hcl & Hvl & Hsl). pose proof Hr as (Hcr & Hvr & Hsr).
  unfold set_difference in Hu.
  destruct (set_difference_loop_members
              (Z.to_nat (vector_size (vec l)))
              Hroom
              (vec (set_init_with_size (compar l) (set_size l))) 0 0)
    as (v & Hloop & P1 & _ & P3);
    try (unfold vector_size; subst sl sr; destruct Hvl, Hvr; lia).
  { apply vwf_init_with_size. }
  { cbn [set_init_with_size vec vector_init_with_size size]. lia. }
  { intros y Hy. left. exact Hy. }
  rewrite Hloop in Hu. cbn [obind] in Hu. injection Hu as <-. cbn [vec].
  intros x. split.
  - intros Hx. apply P1 in Hx as [[]|Hx]. exact Hx.
  - intros (Hx & Hnone). exact (P3 x Hx Hnone).
Qed.

End MergeMembers.

End Sets.

(** Two sets of integers under subtraction as comparator. *)
Definition set_135 : set_t Z :=
  {| vec := {| array := [1; 3; 5]; capacity := 4; size := 3 |};
     compar := CClauseFacts.cmp_names |}.

Definition set_34 : set_t Z :=
  {| vec := {| array := [3; 4]; capacity := 4; size := 2 |};
     compar := CClauseFacts.cmp_names |}.

Lemma cmp_names_anti (a b : Z) :
  CClauseFacts.cmp_names a b < 0 <-> CClauseFacts.cmp_names b a > 0.
Proof. unfold CClauseFacts.cmp_names. lia. Defined.

Lemma cmp_names_trans (a b d : Z) :
  CClauseFacts.cmp_names a b <= 0 -> CClauseFacts.cmp_names b d <= 0 ->
  CClauseFacts.cmp_names a d <= 0.
Proof. unfold CClauseFacts.cmp_names. lia. Defined.

Lemma set_135_ok : set_ok CClauseFacts.cmp_names set_135.
Proof.
  split; [reflexivity|]. split; [split; [reflexivity|reflexivity]|].
  repeat constructor.
Defined.

Lemma set_34_ok : set_ok CClauseFacts.cmp_names set_34.
Proof.
  split; [reflexivity|]. split; [split; [reflexivity|reflexivity]|].
  repeat constructor.
Defined.

Lemma set_contains_spec_witness :
  set_ok CClauseFacts.cmp_names set_135 /\ set_size set_135 <= 2 ^ 30 /\
  exists b,
    set_contains set_135 3 = Some b /\
    (b = true <->
     exists x, In x (array (vec set_135)) /\ CClauseFacts.cmp_names 3 x = 0).
Proof.
  assert (H1 : set_size set_135 <= 2 ^ 30) by (cbn; lia).
  split; [exact set_135_ok|]. split; [exact H1|].
  exact (set_contains_spec CClauseFacts.cmp_names cmp_names_anti
           cmp_names_trans set_135 3 set_135_ok H1).
Defined.

Lemma set_add_then_contains_witness :
  set_ok CClauseFacts.cmp_names set_135 /\ set_size set_135 + 1 < 2 ^ 30 /\
  exists b s',
    set_add set_135 4 = Some (b, s') /\
    set_contains s' 4 = Some true /\
    set_add s' 4 = Some (false, s') /\
    (forall x, In x (array (vec set_135)) -> In x (array (vec s'))) /\
    (forall x, In x (array (vec s')) ->
               x = 4 \/ In x (array (vec set_135))).
Proof.
  assert (H1 : set_size set_135 + 1 < 2 ^ 30) by (cbn; lia).
  split; [exact set_135_ok|]. split; [exact H1|].
  exact (set_add_then_contains CClauseFacts.cmp_names cmp_names_anti
           cmp_names_trans set_135 4 set_135_ok H1).
Defined.

Lemma set_remove_spec_witness :
  set_ok CClauseFacts.cmp_names set_135 /\ set_size set_135 <= 2 ^ 30 /\
  exists b s',
    set_remove set_135 3 = Some (b, s') /\
    set_ok CClauseFacts.cmp_names s' /\
    (b = true <->
     exists x, In x (array (vec set_135)) /\
               CClauseFacts.cmp_names 3 x = 0) /\
    (b = true ->
     set_size s' = set_size set_135 - 1 /\
     (forall x, In x (array (vec s')) ->
                In x (array (vec set_135)) /\
                CClauseFacts.cmp_names 3 x <> 0) /\
     (forall x, In x (array (vec set_135)) ->
                CClauseFacts.cmp_names 3 x <> 0 ->
                In x (array (vec s')))) /\
    (b = false -> s' = set_135).
Proof.
  assert (H1 : set_size set_135 <= 2 ^ 30) by (cbn; lia).
  split; [exact set_135_ok|]. split; [exact H1|].
  exact (set_remove_spec CClauseFacts.cmp_names cmp_names_anti
           cmp_names_trans set_135 3 set_135_ok H1).
Defined.

Lemma set_union_members_witness :
  set_ok CClauseFacts.cmp_names set_135 /\
  set_ok CClauseFacts.cmp_names set_34 /\
  size (vec set_135) + size (vec set_34) < 2 ^ 30 /\
  exists u,
    set_union set_135 set_34 = Some u /\
    set_ok CClauseFacts.cmp_names u /\
    (forall x, In x (array (vec u)) ->
               In x (array (vec set_135)) \/ In x (array (vec set_34))) /\
    (forall x, In x (array (vec set_135)) -> In x (array (vec u))) /\
    (forall x, In x (array (vec set_34)) ->
               exists y, In y (array (vec u)) /\
                         CClauseFacts.cmp_names x y = 0).
Proof.
  assert (H1 : size (vec set_135) + size (vec set_34) < 2 ^ 30)
    by (cbn; lia).
  split; [exact set_135_ok|]. split; [exact set_34_ok|]. split; [exact H1|].
  exact (set_union_members CClauseFacts.cmp_names cmp_names_anti
           cmp_names_trans set_135 set_34 set_135_ok set_34_ok H1).
Defined.

Lemma set_intersection_members_witness :
  set_ok CClauseFacts.cmp_names set_135 /\
  set_ok CClauseFacts.cmp_names set_34 /\
  size (vec set_135) < 2 ^ 30 /\
  exists u,
    set_intersection set_135 set_34 = Some u /\
    set_ok CClauseFacts.cmp_names u /\
    (forall x, In x (array (vec u)) <->
               In x (array (vec set_135)) /\
               exists y, In y (array (vec set_34)) /\
                         CClauseFacts.cmp_names x y = 0).
Proof.
  assert (H1 : size (vec set_135) < 2 ^ 30) by (cbn; lia).
  split; [exact set_135_ok|]. split; [exact set_34_ok|]. split; [exact H1|].
  exact (set_intersection_members CClauseFacts.cmp_names cmp_names_anti
           cmp_names_trans set_135 set_34 set_135_ok set_34_ok H1).
Defined.

Lemma set_difference_members_witness :
  set_ok CClauseFacts.cmp_names set_135 /\
  set_ok CClauseFacts.cmp_names set_34 /\
  size (vec set_135) < 2 ^ 30 /\
  exists u,
    set_difference set_135 set_34 = Some u /\
    set_ok CClauseFacts.cmp_names u /\
    (forall x, In x (array (vec u)) <->
               In x (array (vec set_135)) /\
               forall y, In y (array (vec set_34)) ->
                         CClauseFacts.cmp_names x y <> 0).
Proof.
  assert (H1 : size (vec set_135) < 2 ^ 30) by (cbn; lia).
  split; [exact set_135_ok|]. split; [exact set_34_ok|]. split; [exact H1|].
  exact (set_difference_members CClauseFacts.cmp_names cmp_names_anti
           cmp_names_trans set_135 set_34 set_135_ok set_34_ok H1).
Defined.

End SetExtra.

(** ** query.c: counting, grounding, ENNF and simplification *)

Module QueryExtra.
Import Vector CSet CTypes Query.

(** X11.  [query_n_vars] returns 0 on every query: its [EX] case returns
    the count of the instantiated body without adding the quantified
    variable. *)
Theorem query_n_vars_is_zero (phi : query) : query_n_vars phi = 0.
Proof.
  induction phi as [| | |p1 IH1 p2 IH2|p1 IH1 p2 IH2|p IH|f IH|n p IH];
    cbn [query_n_vars]; try reflexivity; try lia.
  cbv zeta. apply IH.
Qed.

(** The formula that grounding a quantifier builds from the instances of
    the body: they are joined to the right by [OR] or [AND]. *)
Fixpoint chain (existential : bool) (psi : query) (rest : list query)
    : query :=
  match rest with
  | [] => psi
  | psi' :: rest' =>
    if existential then OR psi (chain existential psi' rest')
    else AND psi (chain existential psi' rest')
  end.

Lemma query_ground_quantifier_from (existential : bool)
    (phi : stdname_t -> query) (hplus : stdset_t) :
  SetFacts.vwf (vec hplus) ->
  forall (ns : list stdname_t) (fuel : nat) (i : Z) (n : stdname_t),
    0 <= i ->
    skipn (Z.to_nat i) (array (vec hplus)) = n :: ns ->
    (length ns < fuel)%nat ->
    query_ground_quantifier fuel existential phi hplus i =
    Some (chain existential (phi n) (map phi ns)).
Proof.
  intros [Hsz Hcap].
  induction ns as [|n' ns IH]; intros fuel i n Hi Hskip Hfuel;
    (destruct fuel as [|fuel]; [cbn [length] in Hfuel; lia|]);
    cbn [query_ground_quantifier].
  all: pose proof (f_equal (@length _) Hskip) as Hlen;
    rewrite length_skipn in Hlen; cbn [length] in Hlen.
  all: assert (Hn : nth_error (array (vec hplus)) (Z.to_nat i) = Some n)
    by (rewrite <- (Nat.add_0_r (Z.to_nat i)), <- nth_error_skipn, Hskip;
        reflexivity).
  all: unfold stdset_size, stdset_get, set_size, set_get, vector_size,
         vector_get.
  all: replace ((0 <=? i) && (i <=? size (vec hplus))) with true
    by (symmetry; apply andb_true_iff; split; apply Z.leb_le; lia).
  all: replace ((0 <=? i) && (i <? size (vec hplus))) with true
    by (symmetry; apply andb_true_iff; split;
        [apply Z.leb_le | apply Z.ltb_lt]; lia).
  all: rewrite Hn; cbn [obind]; cbv zeta.
  - replace (i + 1 =? size (vec hplus)) with true
      by (symmetry; apply Z.eqb_eq; lia).
    reflexivity.
  - replace (i + 1 =? size (vec hplus)) with false
      by (symmetry; apply Z.eqb_neq; lia).
    rewrite (IH fuel (i + 1) n'); cbn [length] in Hfuel; try lia.
    + cbn [obind map chain]. destruct existential; reflexivity.
    + replace (Z.to_nat (i + 1)) with (S (Z.to_nat i)) by lia.
      rewrite (SetFacts.skipn_nth_cons _ _ _ Hn) in Hskip.
      injection Hskip as Hs. exact Hs.
Qed.

(** X12.  Grounding a quantifier over a non-empty set [hplus] of names
    [n, n1, ..., nk] returns [phi(n) o (phi(n1) o (... phi(nk)))] with [o]
    the disjunction for an existential and the conjunction for a universal
    quantifier; over an empty [hplus] it has no result, as [stdset_get]
    fails at index 0. *)
Theorem query_ground_quantifier_chain (existential : bool)
    (phi : stdname_t -> query) (hplus : stdset_t) :
  SetFacts.vwf (vec hplus) ->
  match array (vec hplus) with
  | [] =>
    forall fuel, query_ground_quantifier fuel existential phi hplus 0 = None
  | n :: ns =>
    query_ground_quantifier (S (Z.to_nat (stdset_size hplus)))
                            existential phi hplus 0 =
    Some (chain existential (phi n) (map phi ns))
  end.
Proof.
  intros Hv. destruct (array (vec hplus)) as [|n ns] eqn:E.
  - intros [|fuel]; [reflexivity|]. cbn [query_ground_quantifier].
    destruct Hv as [Hsz _]. rewrite E in Hsz.
    unfold stdset_size, stdset_get, set_size, set_get, vector_size,
      vector_get.
    rewrite Hsz. reflexivity.
  - apply query_ground_quantifier_from; [exact Hv|lia|exact E|].
    destruct Hv as [Hsz _]. rewrite E in Hsz. cbn [length] in Hsz.
    unfold stdset_size, set_size, vector_size. lia.
Qed.

(** A formula of [EQ], [NEQ], [LIT], [OR] and [AND] only. *)
Fixpoint ennf_form (phi : query) : bool :=
  match phi with
  | EQ _ _ | NEQ _ _ | LIT _ => true
  | OR phi1 phi2 | AND phi1 phi2 => ennf_form phi1 && ennf_form phi2
  | NEG _ | EX _ | ACT _ _ => false
  end.

(** A formula of [LIT], [OR], [AND] and [NEG] only. *)
Fixpoint lit_form (phi : query) : bool :=
  match phi with
  | LIT _ => true
  | OR phi1 phi2 | AND phi1 phi2 => lit_form phi1 && lit_form phi2
  | NEG phi' => lit_form phi'
  | EQ _ _ | NEQ _ _ | EX _ | ACT _ _ => false
  end.

(** X13.  Whatever [query_ennf_h] returns consists of [EQ], [NEQ], [LIT],
    [OR] and [AND] only: negations, quantifiers and actions are gone. *)
Theorem query_ennf_h_form (fuel : nat) :
  forall (phi : query) (hplus : stdset_t) (flip : bool) (z : stdvec_t)
         (psi : query),
    query_ennf_h fuel phi hplus flip z = Some psi ->
    ennf_form psi = true.
Proof.
  induction fuel as [|fuel IH]; intros phi hplus flip z psi H;
    [discriminate|].
  destruct phi as [n1 n2|n1 n2|lit|p1 p2|p1 p2|p|f|n p];
    cbn [query_ennf_h] in H.
  - destruct flip; injection H as <-; reflexivity.
  - destruct flip; injection H as <-; reflexivity.
  - cbv zeta in H.
    destruct (if stdvec_size z >? 0
              then literal_prepend_all z (if flip then literal_flip lit else lit)
              else Some (if flip then literal_flip lit else lit)) as [l|];
      [|discriminate].
    cbn [obind] in H. injection H as <-. reflexivity.
  - destruct (query_ennf_h fuel p1 hplus flip z) as [q1|] eqn:E1;
      [|discriminate].
    destruct (query_ennf_h fuel p2 hplus flip z) as [q2|] eqn:E2;
      [|discriminate].
    cbn [obind] in H. apply IH in E1. apply IH in E2.
    destruct flip; injection H as <-; cbn [ennf_form]; rewrite E1, E2;
      reflexivity.
  - destruct (query_ennf_h fuel p1 hplus flip z) as [q1|] eqn:E1;
      [|discriminate].
    destruct (query_ennf_h fuel p2 hplus flip z) as [q2|] eqn:E2;
      [|discriminate].
    cbn [obind] in H. apply IH in E1. apply IH in E2.
    destruct flip; injection H as <-; cbn [ennf_form]; rewrite E1, E2;
      reflexivity.
  - exact (IH _ _ _ _ _ H).
  - cbv zeta in H.
    destruct (query_ground_quantifier (S (Z.to_nat (stdset_size hplus)))
                (negb flip) f hplus 0) as [g|]; [|discriminate].
    cbn [obind] in H. exact (IH _ _ _ _ _ H).
  - destruct (stdvec_copy_append z n) as [zz|]; [|discriminate].
    cbn [obind] in H. exact (IH _ _ _ _ _ H).
Qed.

(** *** The truth value of a propositional query *)

Section Truth.
(** The truth values of the literals; flipping a literal negates it. *)
Variable val : literal_t -> bool.
Hypothesis val_flip : forall l, val (literal_flip l) = negb (val l).

(** [EQ] and [NEQ] have the values [query_simplify] writes to
    [*truth_value]; quantifiers and actions are given none here. *)
Fixpoint holds (phi : query) : bool :=
  match phi with
  | EQ n1 n2 => n1 =? n2
  | NEQ n1 n2 => negb (n1 =? n2)
  | LIT lit => val lit
  | OR phi1 phi2 => holds phi1 || holds phi2
  | AND phi1 phi2 => holds phi1 && holds phi2
  | NEG phi' => negb (holds phi')
  | EX _ => false
  | ACT _ _ => false
  end.

(** No quantifier, no action, and no [NEQ] below an odd number of
    negations ([flip] tells the parity so far). *)
Fixpoint plain (flip : bool) (phi : query) : bool :=
  match phi with
  | EQ _ _ | LIT _ => true
  | NEQ _ _ => negb flip
  | OR phi1 phi2 | AND phi1 phi2 => plain flip phi1 && plain flip phi2
  | NEG phi' => plain (negb flip) phi'
  | EX _ | ACT _ _ => false
  end.

Fixpoint depth (phi : query) : nat :=
  match phi with
  | EQ _ _ | NEQ _ _ | LIT _ | EX _ => 0
  | OR phi1 phi2 | AND phi1 phi2 => S (Nat.max (depth phi1) (depth phi2))
  | NEG phi' | ACT _ phi' => S (depth phi')
  end.

(** X14.  On a propositional query without an inequality below an odd
    number of negations, [query_ennf_h] with an empty action prefix
    returns a negation-free formula with the same truth value, negated
    when [flip] is set. *)
Theorem query_ennf_h_preserves_truth (fuel : nat) :
  forall (phi : query) (hplus : stdset_t) (flip : bool) (z : stdvec_t),
    plain flip phi = true ->
    stdvec_size z = 0 ->
    (depth phi < fuel)%nat ->
    exists psi,
      query_ennf_h fuel phi hplus flip z = Some psi /\
      ennf_form psi = true /\
      holds psi = xorb flip (holds phi).
Proof.
  induction fuel as [|fuel IH]; intros phi hplus flip z Hp Hz Hd; [lia|].
  destruct phi as [n1 n2|n1 n2|lit|p1 p2|p1 p2|p|f|n p];
    cbn [query_ennf_h plain depth] in *; try discriminate.
  - destruct flip; eexists; (split; [reflexivity|]);
      (split; [reflexivity|]); cbn [holds xorb]; reflexivity.
  - destruct flip; [discriminate|]. eexists. split; [reflexivity|].
    split; reflexivity.
  - cbv zeta. rewrite Hz. cbn [Z.gtb Z.compare obind].
    eexists. split; [reflexivity|]. split; [reflexivity|].
    cbn [holds]. destruct flip; [apply val_flip|reflexivity].
  - apply andb_true_iff in Hp as [Hp1 Hp2].
    destruct (IH p1 hplus flip z Hp1 Hz ltac:(lia)) as (q1 & E1 & F1 & T1).
    destruct (IH p2 hplus flip z Hp2 Hz ltac:(lia)) as (q2 & E2 & F2 & T2).
    rewrite E1, E2. cbn [obind].
    destruct flip; eexists; (split; [reflexivity|]);
      cbn [ennf_form holds]; rewrite F1, F2, T1, T2;
      (split; [reflexivity|]);
      destruct (holds p1), (holds p2); reflexivity.
  - apply andb_true_iff in Hp as [Hp1 Hp2].
    destruct (IH p1 hplus flip z Hp1 Hz ltac:(lia)) as (q1 & E1 & F1 & T1).
    destruct (IH p2 hplus flip z Hp2 Hz ltac:(lia)) as (q2 & E2 & F2 & T2).
    rewrite E1, E2. cbn [obind].
    destruct flip; eexists; (split; [reflexivity|]);
      cbn [ennf_form holds]; rewrite F1, F2, T1, T2;
      (split; [reflexivity|]);
      destruct (holds p1), (holds p2); reflexivity.
  - destruct (IH p hplus (negb flip) z Hp Hz ltac:(lia))
      as (q & E & F & T).
    exists q. split; [exact E|]. split; [exact F|].
    rewrite T. cbn [holds]. destruct flip, (holds p); reflexivity.
Qed.

End Truth.

(** X15.  [query_simplify] returns a formula without name (in)equalities
    as it is, and leaves [*truth_value] as it was. *)
Theorem query_simplify_keeps_lit_form (phi : query) :
  lit_form phi = true ->
  forall tv, query_simplify phi tv = Some (Some phi, tv).
Proof.
  induction phi as [| | |p1 IH1 p2 IH2|p1 IH1 p2 IH2|p IH|f IH|n p IH];
    cbn [lit_form]; intros H tv; try discriminate.
  - reflexivity.
  - apply andb_true_iff in H as [H1 H2]. cbn [query_simplify].
    rewrite (IH1 H1 tv). cbn [obind is_null andb].
    rewrite (IH2 H2 tv). reflexivity.
  - apply andb_true_iff in H as [H1 H2]. cbn [query_simplify].
    rewrite (IH1 H1 tv). cbn [obind is_null andb].
    rewrite (IH2 H2 tv). reflexivity.
  - cbn [query_simplify]. rewrite (IH H tv). reflexivity.
Qed.

(** X16.  On a formula in ENNF whatever [query_simplify] returns is the
    null pointer or a formula of [LIT], [OR] and [AND] without name
    (in)equalities. *)
Theorem query_simplify_removes_names (phi : query) :
  ennf_form phi = true ->
  forall tv r tv',
    query_simplify phi tv = Some (r, tv') ->
    match r with
    | None => True
    | Some psi => ennf_form psi = true /\ lit_form psi = true
    end.
Proof.
  induction phi as [| | |p1 IH1 p2 IH2|p1 IH1 p2 IH2|p IH|f IH|n p IH];
    cbn [ennf_form]; intros H tv r tv' E; try discriminate;
    cbn [query_simplify] in E.
  - injection E as <- _. exact I.
  - injection E as <- _. exact I.
  - injection E as <- _. split; reflexivity.
  - apply andb_true_iff in H as [H1 H2].
    destruct (query_simplify p1 tv) as [[r1 tv1]|] eqn:E1; [|discriminate].
    cbn [obind] in E. pose proof (IH1 H1 _ _ _ E1) as F1.
    destruct r1 as [q1|]; cbn [is_null andb truth_value_ptr] in E.
    + destruct (query_simplify p2 tv1) as [[r2 tv2]|] eqn:E2;
        [|discriminate].
      cbn [obind] in E. pose proof (IH2 H2 _ _ _ E2) as F2.
      destruct r2 as [q2|]; cbn [is_null andb truth_value_ptr] in E.
      * injection E as <- _. cbn [ennf_form lit_form].
        destruct F1 as [-> ->], F2 as [-> ->]. split; reflexivity.
      * unfold query_free_binary in E. cbn [query_free_ptr] in E.
        destruct (query_free q1); discriminate.
    + discriminate.
  - apply andb_true_iff in H as [H1 H2].
    destruct (query_simplify p1 tv) as [[r1 tv1]|] eqn:E1; [|discriminate].
    cbn [obind] in E. pose proof (IH1 H1 _ _ _ E1) as F1.
    replace (is_null r1 && negb truth_value_ptr) with false in E
      by (destruct r1; reflexivity).
    destruct (query_simplify p2 tv1) as [[r2 tv2]|] eqn:E2; [|discriminate].
    cbn [obind] in E. pose proof (IH2 H2 _ _ _ E2) as F2.
    replace (is_null r2 && negb truth_value_ptr) with false in E
      by (destruct r2; reflexivity).
    destruct r1 as [q1|], r2 as [q2|]; injection E as <- _; auto.
    cbn [ennf_form lit_form].
    destruct F1 as [-> ->], F2 as [-> ->]. split; reflexivity.
Qed.

(** Examples. *)
Definition hplus_135 : stdset_t := SetExtra.set_135.

Lemma query_ground_quantifier_chain_witness :
  SetFacts.vwf (vec hplus_135) /\
  query_ground_quantifier (S (Z.to_nat (stdset_size hplus_135)))
                          true (fun n => EQ n 3) hplus_135 0 =
  Some (OR (EQ 1 3) (OR (EQ 3 3) (EQ 5 3))).
Proof.
  split; [split; reflexivity|].
  exact (query_ground_quantifier_chain true (fun n => EQ n 3) hplus_135
           (conj eq_refl eq_refl)).
Defined.

Definition neg_or_query : query :=
  NEG (OR (EQ 1 2) (LIT QueryFacts.some_lit)).

Lemma query_ennf_h_form_witness :
  query_ennf_h 3 (NEG (OR (EQ 1 2) (LIT QueryFacts.some_lit)))
               hplus_135 false (stdvec_init_with_size 0) =
  Some (AND (NEQ 1 2) (LIT (literal_flip QueryFacts.some_lit))) /\
  ennf_form (AND (NEQ 1 2) (LIT (literal_flip QueryFacts.some_lit))) = true.
Proof.
  split; [reflexivity|].
  exact (query_ennf_h_form 3 (NEG (OR (EQ 1 2) (LIT QueryFacts.some_lit)))
           hplus_135 false (stdvec_init_with_size 0) _ eq_refl).
Defined.

Lemma query_ennf_h_preserves_truth_witness :
  (forall l, sign (literal_flip l) = negb (sign l)) /\
  plain false (NEG (OR (EQ 1 2) (LIT QueryFacts.some_lit))) = true /\
  stdvec_size (stdvec_init_with_size 0) = 0 /\
  (depth neg_or_query < 3)%nat /\
  exists psi,
    query_ennf_h 3 (NEG (OR (EQ 1 2) (LIT QueryFacts.some_lit)))
                 hplus_135 false (stdvec_init_with_size 0) = Some psi /\
    ennf_form psi = true /\
    holds sign psi =
    xorb false (holds sign (NEG (OR (EQ 1 2) (LIT QueryFacts.some_lit)))).
Proof.
  split; [reflexivity|]. split; [reflexivity|]. split; [reflexivity|].
  split; [vm_compute; lia|].
  apply (query_ennf_h_preserves_truth sign (fun l => eq_refl) 3);
    [reflexivity|reflexivity|vm_compute; lia].
Defined.

Definition neg_or_lits : query :=
  NEG (OR (LIT QueryFacts.some_lit) (LIT QueryFacts.some_lit)).

Lemma query_simplify_keeps_lit_form_witness :
  lit_form neg_or_lits = true /\
  forall tv, query_simplify neg_or_lits tv = Some (Some neg_or_lits, tv).
Proof.
  split; [reflexivity|].
  exact (query_simplify_keeps_lit_form neg_or_lits eq_refl).
Defined.

Lemma query_simplify_removes_names_witness :
  ennf_form (AND (EQ 1 1) (LIT QueryFacts.some_lit)) = true /\
  query_simplify (AND (EQ 1 1) (LIT QueryFacts.some_lit)) false =
  Some (Some (LIT QueryFacts.some_lit), true) /\
  (ennf_form (LIT QueryFacts.some_lit) = true /\
   lit_form (LIT QueryFacts.some_lit) = true).
Proof.
  split; [reflexivity|]. split; [reflexivity|].
  exact (query_simplify_removes_names
           (AND (EQ 1 1) (LIT QueryFacts.some_lit)) eq_refl false
           (Some (LIT QueryFacts.some_lit)) true eq_refl).
Defined.

End QueryExtra.

(** ** term.h: symbols, observers and substitutions *)

Module TermExtra.
Import Term TermFacts.

Lemma lor_shiftl_2 (id k : Z) :
  0 <= id -> 0 <= k < 4 -> Z.lor (Z.shiftl id 2) k = 4 * id + k.
Proof.
  intros Hid Hk. rewrite Z.shiftl_mul_pow2 by lia. change (2 ^ 2) with 4.
  assert (Hl : Z.land (id * 4) k = 0).
  { apply Z.bits_inj'. intros n Hn. rewrite Z.land_spec, Z.bits_0.
    destruct (Z.ltb_spec n 2) as [Hlt|Hge].
    - change 4 with (2 ^ 2). rewrite Z.mul_pow2_bits_low by lia. reflexivity.
    - replace (Z.testbit k n) with false; [apply andb_false_r|].
      symmetry. apply Z.bits_above_log2; [lia|].
      destruct (Z.eq_dec k 0) as [->|]; [cbn; lia|].
      apply Z.log2_lt_pow2; [lia|].
      apply Z.lt_le_trans with (2 ^ 2); [lia|].
      apply Z.pow_le_mono_r; lia. }
  rewrite <- Z.lxor_lor by exact Hl.
  rewrite <- Z.add_nocarry_lxor by exact Hl. lia.
Qed.

Lemma symbol_word (id k : Z) :
  0 < id < 2 ^ 30 -> 0 <= k < 4 ->
  u32 (Z.lor (Z.shiftl id 2) k) = 4 * id + k.
Proof.
  intros Hid Hk. rewrite lor_shiftl_2 by lia. unfold u32.
  apply Z.mod_small. lia.
Qed.

Lemma land_3_mod (x : Z) : Z.land x 3 = x mod 4.
Proof. change 3 with (Z.ones 2). rewrite Z.land_ones by lia. reflexivity. Qed.

(** The assertion of the private constructor holds for every word: no
    word has both the function and the variable tag. *)
Lemma make_Some (i : Z) (sort : Symbol.Sort.t) (a : Z) :
  Symbol.make i sort a = Some (Symbol.mk i sort a).
Proof.
  unfold Symbol.make, Symbol.function, Symbol.variable.
  cbn [Symbol.id_].
  destruct (Z.eqb_spec (Z.land i 3) 2) as [E|E];
    destruct (Z.eqb_spec (Z.land i 3) 1) as [E'|E']; try reflexivity.
  exfalso. rewrite E in E'. discriminate.
Qed.

Lemma u32_small (x : Z) : 0 <= x < 2 ^ 32 -> u32 x = x.
Proof. intros H. unfold u32. apply Z.mod_small. exact H. Qed.

(** The observers on the word [4 * id + k] of a symbol with tag [k]. *)
Lemma symbol_observers (id k : Z) (sort : Symbol.Sort.t) (a : Z) :
  0 < id -> 0 <= k < 4 ->
  let s := Symbol.mk (4 * id + k) sort a in
  Symbol.name s = (k =? 0) /\ Symbol.variable s = (k =? 1) /\
  Symbol.function s = (k =? 2) /\ Symbol.null s = false /\
  Symbol.id s = id /\ Symbol.arity s = a.
Proof.
  intros Hid Hk. cbv zeta.
  unfold Symbol.name, Symbol.variable, Symbol.function, Symbol.null,
    Symbol.id, Symbol.arity.
  cbn [Symbol.id_ Symbol.arity_].
  rewrite !land_3_mod. rewrite Z.shiftr_div_pow2 by lia.
  change (2 ^ 2) with 4.
  replace ((4 * id + k) mod 4) with k by (Z.div_mod_to_equations; lia).
  replace ((4 * id + k) / 4) with id by (Z.div_mod_to_equations; lia).
  replace (4 * id + k =? 0) with false by (symmetry; apply Z.eqb_neq; lia).
  repeat split; reflexivity.
Qed.

(** X17.  For an id with [0 < id < 2^30], [CreateName] and
    [CreateVariable] return a symbol of exactly their own kind that is
    not null and whose [id()] is the id given.  [CreateFunction] does so
    too when its assertion [arity > 0 || !sort.rigid()] holds of the
    arity as the 8-bit parameter receives it, and the symbol's [arity()]
    is that 8-bit value (the arity given when it is below [2^8]); when
    the assertion fails, there is no result. *)
Theorem Symbol_kind_and_id (id : Z) (sort : Symbol.Sort.t) (arity : Z) :
  0 < id < 2 ^ 30 ->
  (exists n,
      Symbol.CreateName id sort = Some n /\
      Symbol.name n = true /\ Symbol.variable n = false /\
      Symbol.function n = false /\ Symbol.null n = false /\
      Symbol.id n = id) /\
  (exists x,
      Symbol.CreateVariable id sort = Some x /\
      Symbol.name x = false /\ Symbol.variable x = true /\
      Symbol.function x = false /\ Symbol.null x = false /\
      Symbol.id x = id) /\
  (0 < u8 arity \/ Symbol.Sort.rigid sort = false ->
   exists g,
      Symbol.CreateFunction id sort arity = Some g /\
      Symbol.name g = false /\ Symbol.variable g = false /\
      Symbol.function g = true /\ Symbol.null g = false /\
      Symbol.id g = id /\ Symbol.arity g = u8 arity /\
      (0 <= arity < 2 ^ 8 -> Symbol.arity g = arity)) /\
  (u8 arity = 0 -> Symbol.Sort.rigid sort = true ->
   Symbol.CreateFunction id sort arity = None).
Proof.
  intros Hid.
  assert (Hu : u32 id = id) by (apply u32_small; lia).
  assert (Hpos : (id >? 0) = true) by (apply Z.gtb_lt; lia).
  unfold Symbol.CreateName, Symbol.CreateVariable, Symbol.CreateFunction.
  cbv zeta. rewrite !Hu, !Hpos, !symbol_word by lia. rewrite !make_Some.
  split; [|split; [|split]].
  - eexists. split; [reflexivity|].
    destruct (symbol_observers id 0 sort 0 ltac:(lia) ltac:(lia))
      as (H1 & H2 & H3 & H4 & H5 & _).
    repeat split; assumption.
  - eexists. split; [reflexivity|].
    destruct (symbol_observers id 1 sort 0 ltac:(lia) ltac:(lia))
      as (H1 & H2 & H3 & H4 & H5 & _).
    repeat split; assumption.
  - intros Hassert.
    replace ((u8 arity >? 0) || negb (Symbol.Sort.rigid sort)) with true.
    + eexists. split; [reflexivity|].
      destruct (symbol_observers id 2 sort (u8 arity) ltac:(lia) ltac:(lia))
        as (H1 & H2 & H3 & H4 & H5 & H6).
      repeat split; try assumption.
      intros Ha. rewrite H6. unfold u8. apply Z.mod_small. exact Ha.
    + symmetry. apply orb_true_iff. destruct Hassert as [H|H].
      * left. apply Z.gtb_lt. exact H.
      * right. rewrite H. reflexivity.
  - intros Ha Hrigid. rewrite Ha, Hrigid. reflexivity.
Qed.

(** X18.  Only the low 30 bits of an id survive the shift into the
    32-bit word: for [0 < id] and [id + 2^30 < 2^32] the ids [id] and
    [id + 2^30], which both pass [assert(id > 0)], give the same result,
    so [CreateName] with the id [2^30] returns a symbol that is null;
    with the id [0] it has no result. *)
Theorem Symbol_id_wraps (id : Z) (sort : Symbol.Sort.t) (arity : Z) :
  0 < id -> id + 2 ^ 30 < 2 ^ 32 ->
  Symbol.CreateName (id + 2 ^ 30) sort = Symbol.CreateName id sort /\
  Symbol.CreateVariable (id + 2 ^ 30) sort = Symbol.CreateVariable id sort /\
  Symbol.CreateFunction (id + 2 ^ 30) sort arity =
  Symbol.CreateFunction id sort arity /\
  (exists s, Symbol.CreateName (2 ^ 30) sort = Some s /\
             Symbol.null s = true) /\
  Symbol.CreateName 0 sort = None.
Proof.
  intros Hid Hmax.
  assert (Hu : u32 id = id) by (apply u32_small; lia).
  assert (Hu' : u32 (id + 2 ^ 30) = id + 2 ^ 30) by (apply u32_small; lia).
  assert (Hpos : (id >? 0) = true) by (apply Z.gtb_lt; lia).
  assert (Hpos' : (id + 2 ^ 30 >? 0) = true) by (apply Z.gtb_lt; lia).
  assert (H : forall k, 0 <= k < 4 ->
                u32 (Z.lor (Z.shiftl (id + 2 ^ 30) 2) k) =
                u32 (Z.lor (Z.shiftl id 2) k)).
  { intros k Hk. rewrite !lor_shiftl_2 by lia. unfold u32.
    replace (4 * (id + 2 ^ 30) + k) with (4 * id + k + 1 * 2 ^ 32) by lia.
    apply Z.mod_add. lia. }
  unfold Symbol.CreateName, Symbol.CreateVariable, Symbol.CreateFunction.
  cbv zeta. rewrite !Hu, !Hu', !Hpos, !Hpos', !H by lia.
  split; [reflexivity|]. split; [reflexivity|]. split; [reflexivity|].
  split; [|reflexivity].
  eexists. split; [vm_compute; reflexivity | reflexivity].
Qed.

Lemma get_null (f : Factory) : Inv f -> get f 0 = None.
Proof.
  intros HI. destruct (inv_room f HI) as [_ Hr]. unfold get.
  change (Z.land 0 1 =? 1) with false. cbv iota.
  apply nth_error_None.
  change (u32 (Z.shiftr 0 1 - 1)) with (2 ^ 32 - 1). lia.
Qed.

(** X19.  A call of [CreateTerm] on a reachable factory returns a term
    that is not null, and in the factory it leaves and in every factory
    reached later the observers give back what the call was given:
    [symbol()] is a symbol equal to the one passed, with its arity and
    kind, and [args()] are the arguments passed. *)
Theorem CreateTerm_observers (f : Factory) (s : Symbol.t) (args : Vector) :
  reachable f ->
  CreateTerm_pre f s args ->
  exists a f',
    CreateTerm f s args = Some (a, f') /\
    null a = false /\
    forall f2, extends f' f2 ->
      exists s0,
        Term.symbol f2 a = Some s0 /\ Symbol.eqb s0 s = true /\
        Term.args f2 a = Some args /\
        Term.arity f2 a = Some (u8 (Z.of_nat (length args))) /\
        Term.function f2 a = Some (Symbol.function s) /\
        Term.variable f2 a = Some (Symbol.variable s).
Proof.
  intros Hreach Hpre.
  destruct (CreateTerm_total f s args Hpre) as (a & f' & Hc).
  exists a, f'. split; [exact Hc|].
  assert (HI : Inv f')
    by (eapply CreateTerm_Inv;
        [apply reachable_Inv, Hreach | exact Hpre | exact Hc]).
  destruct (CreateTerm_entry _ _ _ _ _ Hc) as (d0 & Hin & Hd).
  destruct (inv_mem f' HI _ _ _ Hin) as (_ & Hrange & Hget).
  apply Data_eqb_spec in Hd as [Hid Hargs]. cbn [symbol_ args_] in Hid, Hargs.
  split.
  - unfold null. apply Z.eqb_neq. intros ->.
    rewrite (get_null f' HI) in Hget. discriminate.
  - intros f2 Hext. exists (symbol_ d0).
    pose proof (get_grow _ _ _ _ (extends_heaps_grow _ _ Hext) Hget) as G.
    destruct (inv_data f' HI _ _ Hget) as (Hassert & _ & _).
    unfold CreateTerm_assert in Hassert.
    apply andb_true_iff in Hassert as [_ Har]. apply Z.eqb_eq in Har.
    unfold Term.symbol, Term.args, Term.arity, Term.function, Term.variable,
      Term.symbol.
    rewrite G. cbn [obind].
    unfold Symbol.eqb, Symbol.function, Symbol.variable.
    rewrite Hid, Z.eqb_refl, Hargs, Har, Hargs. repeat split; reflexivity.
Qed.

(** X20.  [Substitution::Add(old, sub)] returns [true] exactly when the
    substitution maps [old] to [sub] afterwards; it never changes what a
    term was mapped to before, and it maps no term other than [old]
    anew. *)
Theorem Substitution_Add_spec (subs_ : Substitution) (old sub : t) :
  let b := fst (Substitution_Add subs_ old sub) in
  let subs' := snd (Substitution_Add subs_ old sub) in
  (b = true <-> Substitution_apply subs' old = Some sub) /\
  (forall a x, Substitution_apply subs_ a = Some x ->
               Substitution_apply subs' a = Some x) /\
  (forall a, a <> old ->
             Substitution_apply subs' a = Substitution_apply subs_ a).
Proof.
  assert (Happ : forall l a (p : t * t),
             Substitution_apply (l ++ [p]) a =
             match Substitution_apply l a with
             | Some x => Some x
             | None => if eqb (fst p) a then Some (snd p) else None
             end).
  { induction l as [|q l IH]; intros a p; cbn [app Substitution_apply].
    - reflexivity.
    - destruct (eqb (fst q) a); [reflexivity|apply IH]. }
  cbv zeta. unfold Substitution_Add.
  destruct (Substitution_apply subs_ old) as [bef|] eqn:E; cbn [fst snd].
  - split; [|split; auto]. rewrite E. unfold eqb. rewrite Z.eqb_eq.
    split; [intros ->; reflexivity | intros H; injection H; auto].
  - split; [|split].
    + rewrite Happ, E. cbn [fst snd]. unfold eqb. rewrite Z.eqb_refl.
      split; reflexivity.
    + intros a x H. rewrite Happ, H. reflexivity.
    + intros a Ha. rewrite Happ. cbn [fst snd].
      destruct (Substitution_apply subs_ a); [reflexivity|].
      unfold eqb. replace (old =? a) with false; [reflexivity|].
      symmetry. apply Z.eqb_neq. congruence.
Qed.

Lemma Symbol_kind_and_id_witness :
  0 < 5 < 2 ^ 30 /\ (0 < u8 2 \/ Symbol.Sort.rigid s1 = false) /\
  Symbol.CreateFunction 5 s1 2 = Some (Symbol.mk 22 s1 2) /\
  exists g,
    Symbol.CreateFunction 5 s1 2 = Some g /\
    Symbol.name g = false /\ Symbol.variable g = false /\
    Symbol.function g = true /\ Symbol.null g = false /\
    Symbol.id g = 5 /\ Symbol.arity g = u8 2 /\
    (0 <= 2 < 2 ^ 8 -> Symbol.arity g = 2).
Proof.
  assert (H1 : 0 < 5 < 2 ^ 30) by lia.
  assert (H2 : 0 < u8 2 \/ Symbol.Sort.rigid s1 = false)
    by (left; reflexivity).
  split; [exact H1|]. split; [exact H2|]. split; [reflexivity|].
  exact (proj1 (proj2 (proj2 (Symbol_kind_and_id 5 s1 2 H1))) H2).
Defined.

Lemma Symbol_id_wraps_witness :
  0 < 1 /\ 1 + 2 ^ 30 < 2 ^ 32 /\
  Symbol.CreateName 1 s1 = Some (Symbol.mk 4 s1 0) /\
  Symbol.CreateName (1 + 2 ^ 30) s1 = Symbol.CreateName 1 s1.
Proof.
  assert (H1 : 0 < 1) by lia.
  assert (H2 : 1 + 2 ^ 30 < 2 ^ 32) by lia.
  split; [exact H1|]. split; [exact H2|]. split; [reflexivity|].
  exact (proj1 (Symbol_id_wraps 1 s1 0 H1 H2)).
Defined.

Lemma Substitution_Add_spec_witness :
  Substitution_apply (Substitution_single 4 3) 4 = Some 3 /\
  Substitution_apply (snd (Substitution_Add (Substitution_single 4 3) 6 5)) 4
  = Some 3.
Proof.
  split; [reflexivity|].
  exact (proj1 (proj2 (Substitution_Add_spec (Substitution_single 4 3) 6 5))
           4 3 eq_refl).
Defined.

Lemma CreateTerm_observers_witness :
  reachable fac5 /\ CreateTerm_pre fac5 sym_g [9] /\
  exists a f',
    CreateTerm fac5 sym_g [9] = Some (a, f') /\
    null a = false /\
    forall f2, extends f' f2 ->
      exists s0,
        Term.symbol f2 a = Some s0 /\ Symbol.eqb s0 sym_g = true /\
        Term.args f2 a = Some [9] /\
        Term.arity f2 a = Some (u8 (Z.of_nat (length [9]))) /\
        Term.function f2 a = Some (Symbol.function sym_g) /\
        Term.variable f2 a = Some (Symbol.variable sym_g).
Proof.
  split; [exact reachable_fac5|]. split; [exact CreateTerm_pre_fac5_g|].
  exact (CreateTerm_observers fac5 sym_g [9] reachable_fac5
           CreateTerm_pre_fac5_g).
Defined.

End TermExtra.

(** ** literal.h: the constructor, the order and the unary checks *)

Module LiteralExtra.
Import Term TermFacts Literal LiteralObservers LiteralFacts.

Lemma make_comm (f : Factory) (p : bool) (l r : Term.t) :
  make f p l r = make f p r l.
Proof.
  unfold make, Term.ltb.
  destruct (Z.ltb_spec l r) as [H1|H1], (Z.ltb_spec r l) as [H2|H2];
    cbn [negb]; try reflexivity; try lia.
  assert (l = r) by lia. subst r. reflexivity.
Qed.

(** X21.  The constructor does not depend on the order of its two term
    arguments: [Literal(pos, lhs, rhs)] and [Literal(pos, rhs, lhs)] are
    the same word, so [Eq] and [Neq] are symmetric. *)
Theorem make_symmetric (f : Factory) (p : bool) (l r : Term.t) :
  make f p l r = make f p r l /\
  Eq f l r = Eq f r l /\ Neq f l r = Neq f r l.
Proof.
  unfold Eq, Neq. repeat split; apply make_comm.
Qed.

Lemma primitive_fields (f : Factory) (a b : Literal.t) :
  lhs b = lhs a -> rhs b = rhs a ->
  Literal.primitive f b = Literal.primitive f a.
Proof. intros Hl Hr. unfold Literal.primitive. rewrite Hl, Hr. reflexivity. Qed.

(** X22.  On a primitive literal over the terms of a reachable factory,
    [flip()] returns a different literal, flipping twice returns a
    literal equal to the first, and [dual()] returns a literal equal to
    the one it is called on. *)
Theorem flip_involutive_dual_identity (f : Factory) (a : Literal.t) :
  reachable f ->
  Literal.primitive f a = Some true -> get f (rhs a) <> None ->
  exists a1 a2 a3,
    flip f a = Some a1 /\ flip f a1 = Some a2 /\ dual f a = Some a3 /\
    Literal.eqb a1 a = false /\
    Literal.eqb a2 a = true /\
    Literal.eqb a3 a = true.
Proof.
  intros Hreach Hp Hget. pose proof (reachable_Inv f Hreach) as HI.
  destruct (flip_primitive f a HI Hp Hget) as (a1 & F1 & L1 & R1 & P1).
  assert (Hp1 : Literal.primitive f a1 = Some true)
    by (rewrite (primitive_fields f a a1 L1 R1); exact Hp).
  assert (Hget1 : get f (rhs a1) <> None) by (rewrite R1; exact Hget).
  destruct (flip_primitive f a1 HI Hp1 Hget1) as (a2 & F2 & L2 & R2 & P2).
  pose proof (primitive_sides f a Hp) as [Hl Hn].
  pose proof (lhs_range a) as Hlr. pose proof (rhs_range a) as Hrr.
  exists a1, a2, (pack (pos a) (lhs a) (rhs a)).
  split; [exact F1|]. split; [exact F2|]. split.
  - unfold dual. rewrite make_comm.
    apply make_primitive; assumption.
  - unfold Literal.eqb, Term.eqb.
    rewrite lhs_pack, rhs_pack, pos_pack by assumption.
    rewrite P1, L2, L1, R2, R1, P2, P1, !Z.eqb_refl.
    destruct (pos a); repeat split; reflexivity.
Qed.

Lemma Literal_Subsumes_refl (a : Literal.t) : Literal.Subsumes a a = true.
Proof.
  unfold Literal.Subsumes, Literal.eqb, Term.eqb. rewrite !Z.eqb_refl.
  destruct (pos a); reflexivity.
Qed.

Lemma Literal_Subsumes_trans (a b c : Literal.t) :
  Literal.Subsumes a b = true -> Literal.Subsumes b c = true ->
  Literal.Subsumes a c = true.
Proof.
  unfold Literal.Subsumes, Literal.ProperlySubsumes, Literal.eqb, Term.eqb.
  generalize (lhs a) (lhs b) (lhs c) (rhs a) (rhs b) (rhs c)
             (pos a) (pos b) (pos c).
  intros la lb lc ra rb rc pa pb pc.
  destruct (Z.eqb_spec la lb), (Z.eqb_spec lb lc), (Z.eqb_spec ra rb),
    (Z.eqb_spec rb rc), (Z.eqb_spec la lc), (Z.eqb_spec ra rc);
    subst; try congruence;
    destruct pa, pb, pc; cbn; try congruence;
    destruct (name ra), (name rb), (name rc); cbn; congruence.
Qed.

Lemma Literal_Subsumes_antisym (a b : Literal.t) :
  Literal.Subsumes a b = true -> Literal.Subsumes b a = true ->
  Literal.eqb a b = true.
Proof.
  unfold Literal.Subsumes, Literal.ProperlySubsumes, Literal.eqb, Term.eqb.
  generalize (lhs a) (lhs b) (rhs a) (rhs b) (pos a) (pos b).
  intros la lb ra rb pa pb.
  destruct (Z.eqb_spec la lb), (Z.eqb_spec lb la), (Z.eqb_spec ra rb),
    (Z.eqb_spec rb ra); subst; try congruence;
    destruct pa, pb; cbn; try congruence;
    destruct (name ra), (name rb); cbn; congruence.
Qed.

(** X23.  [Subsumes] is a preorder on literals whose symmetric part is
    [operator==]: it is reflexive and transitive, and two literals that
    subsume each other are equal. *)
Theorem Literal_Subsumes_preorder (a b c : Literal.t) :
  Literal.Subsumes a a = true /\
  (Literal.Subsumes a b = true -> Literal.Subsumes b c = true ->
   Literal.Subsumes a c = true) /\
  (Literal.Subsumes a b = true -> Literal.Subsumes b a = true ->
   Literal.eqb a b = true).
Proof.
  split; [apply Literal_Subsumes_refl|]. split.
  - apply Literal_Subsumes_trans.
  - apply Literal_Subsumes_antisym.
Qed.

(** X24.  No literal is both [valid()] and [unsatisfiable()]. *)
Theorem valid_not_unsatisfiable (f : Factory) (a : Literal.t) :
  LiteralObservers.valid f a = Some true ->
  LiteralObservers.unsatisfiable f a <> Some true.
Proof.
  unfold LiteralObservers.valid, LiteralObservers.unsatisfiable,
    sorts_differ, Term.eqb, oor, oand.
  destruct (pos a); cbn [negb andb obind].
  - destruct (Z.eqb_spec (lhs a) (rhs a)) as [E|E]; cbn [negb andb].
    + rewrite andb_false_r. intros _. rewrite E.
      destruct (Term.sort f (rhs a)) as [s|]; cbn [obind]; [|discriminate].
      unfold Symbol.Sort.eqb. rewrite Z.eqb_refl. discriminate.
    + discriminate.
  - destruct (Z.eqb_spec (lhs a) (rhs a)) as [E|E]; cbn [negb andb].
    + rewrite andb_false_r. rewrite E.
      destruct (Term.sort f (rhs a)) as [s|]; cbn [obind]; [|discriminate].
      unfold Symbol.Sort.eqb. rewrite Z.eqb_refl. discriminate.
    + intros _. discriminate.
Qed.

(** X25.  [Min(t)] is a literal with left side [t], a null right side and
    negative sign, and no literal with the same left side is less than
    it. *)
Theorem Min_is_least (t0 : Term.t) (a : Literal.t) :
  0 <= t0 < 2 ^ 32 -> 0 <= a < 2 ^ 64 -> lhs a = t0 ->
  lhs (Min t0) = t0 /\ Term.null (rhs (Min t0)) = true /\
  pos (Min t0) = false /\
  LiteralObservers.ltb a (Min t0) = false.
Proof.
  intros Ht Ha Hl.
  assert (HM : Min t0 = t0) by (unfold Min, u64; apply Z.mod_small; lia).
  assert (HL : lhs (Min t0) = t0)
    by (rewrite HM; unfold lhs, u32; apply Z.mod_small; lia).
  split; [exact HL|]. split; [|split].
  - rewrite HM. unfold rhs, Term.null.
    rewrite Z.shiftr_div_pow2 by lia. rewrite Z.div_small by lia.
    reflexivity.
  - rewrite HM. unfold pos. rewrite Z.shiftr_div_pow2 by lia.
    rewrite Z.div_small by lia. reflexivity.
  - unfold LiteralObservers.ltb, Term.ltb, Term.eqb. rewrite HL, Hl, HM.
    rewrite Z.ltb_irrefl, Z.eqb_refl. cbn [orb andb].
    apply Z.ltb_ge. rewrite <- Hl. unfold lhs, u32.
    apply Z.mod_le; lia.
Qed.

Lemma flip_involutive_dual_identity_witness :
  reachable fac5 /\
  Literal.primitive fac5 lit_f_n1 = Some true /\
  get fac5 (rhs lit_f_n1) <> None /\
  exists a1 a2 a3,
    flip fac5 lit_f_n1 = Some a1 /\ flip fac5 a1 = Some a2 /\
    dual fac5 lit_f_n1 = Some a3 /\
    Literal.eqb a1 lit_f_n1 = false /\
    Literal.eqb a2 lit_f_n1 = true /\
    Literal.eqb a3 lit_f_n1 = true.
Proof.
  assert (G1 : get fac5 (rhs lit_f_n1) <> None) by (vm_compute; discriminate).
  split; [exact reachable_fac5|]. split; [reflexivity|]. split; [exact G1|].
  exact (flip_involutive_dual_identity fac5 lit_f_n1 reachable_fac5
           eq_refl G1).
Defined.

(** The literal [n1 = n1] of the example factory. *)
Definition lit_n1_n1 : Literal.t := pack true 3 3.

Lemma valid_not_unsatisfiable_witness :
  LiteralObservers.valid fac5 lit_n1_n1 = Some true /\
  LiteralObservers.unsatisfiable fac5 lit_n1_n1 <> Some true.
Proof.
  split; [reflexivity|].
  exact (valid_not_unsatisfiable fac5 lit_n1_n1 eq_refl).
Defined.

Lemma Min_is_least_witness :
  0 <= 2 < 2 ^ 32 /\ 0 <= lit_f_n1 < 2 ^ 64 /\ lhs lit_f_n1 = 2 /\
  lhs (Min 2) = 2 /\ Term.null (rhs (Min 2)) = true /\
  pos (Min 2) = false /\
  LiteralObservers.ltb lit_f_n1 (Min 2) = false.
Proof.
  assert (H1 : 0 <= 2 < 2 ^ 32) by lia.
  assert (H2 : 0 <= lit_f_n1 < 2 ^ 64) by (vm_compute; split; congruence).
  split; [exact H1|]. split; [exact H2|]. split; [reflexivity|].
  exact (Min_is_least 2 lit_f_n1 H1 H2 eq_refl).
Defined.

Lemma Literal_Subsumes_preorder_witness :
  Literal.Subsumes lit_f_n1 (pack false 2 5) = true /\
  Literal.Subsumes (pack false 2 5) (pack false 2 5) = true /\
  Literal.Subsumes lit_f_n1 (pack false 2 5) = true.
Proof.
  split; [reflexivity|]. split; [reflexivity|].
  exact (proj1 (proj2 (Literal_Subsumes_preorder lit_f_n1 (pack false 2 5)
                         (pack false 2 5))) eq_refl eq_refl).
Defined.

End LiteralExtra.

(** ** clause.h: removal, subsumption, renormalisation and the pool *)

Module ClauseExtra.
Import Literal Clause ClauseFacts.

(** *** [RemoveIf] *)

Lemma RemoveIf_loop_filter (p : Lit -> bool) (rest : list Lit) :
  forall (K G as_ : list Lit),
    as_ = K ++ G ++ rest ->
    exists T,
      RemoveIf_loop p as_ (length K) (length K + length G) (length rest) =
      (K ++ filter (fun a => negb (p a)) rest ++ T,
       (length K + length (filter (fun a => negb (p a)) rest))%nat,
       (length K + length G + length rest)%nat).
Proof.
  induction rest as [|x R IH]; intros K G as_ Has.
  - cbn [length RemoveIf_loop filter app]. exists G. subst as_.
    rewrite app_nil_r, !Nat.add_0_r. reflexivity.
  - assert (Hx : get as_ (length K + length G) = x).
    { subst as_. rewrite app_assoc, <- length_app.
      rewrite <- (Nat.add_0_r (length (K ++ G))), get_app_r. reflexivity. }
    cbn [length RemoveIf_loop filter]. rewrite Hx.
    destruct (p x); cbn [negb].
    + destruct (IH K (G ++ [x]) as_) as [T HT].
      { subst as_. rewrite <- app_assoc. reflexivity. }
      rewrite length_app in HT. cbn [length] in HT.
      replace (length K + (length G + 1))%nat
        with (S (length K + length G)) in HT by lia.
      exists T. rewrite HT. f_equal. lia.
    + destruct G as [|g G'].
      * destruct (IH (K ++ [x]) [] (set as_ (length K) x)) as [T HT].
        { subst as_. cbn [app]. rewrite set_app, <- app_assoc. reflexivity. }
        rewrite length_app in HT. cbn [length] in HT.
        cbn [length]. rewrite !Nat.add_0_r in *.
        replace (length K + 1)%nat with (S (length K)) in HT by lia.
        exists T. rewrite HT. rewrite <- app_assoc. cbn [app length].
        f_equal; [f_equal|]; lia.
      * destruct (IH (K ++ [x]) (G' ++ [x]) (set as_ (length K) x))
          as [T HT].
        { subst as_. cbn [app]. rewrite set_app, <- !app_assoc.
          reflexivity. }
        rewrite !length_app in HT. cbn [length] in HT.
        replace (length K + 1 + (length G' + 1))%nat
          with (S (length K + S (length G'))) in HT by lia.
        replace (length K + 1)%nat with (S (length K)) in HT by lia.
        cbn [length]. exists T. rewrite HT. rewrite <- app_assoc.
        cbn [app length]. f_equal; [f_equal|]; lia.
Qed.

Lemma filter_length_negb {A : Type} (p : A -> bool) (l : list A) :
  (length (filter p l) + length (filter (fun a => negb (p a)) l))%nat
  = length l.
Proof.
  induction l as [|x l IH]; cbn [filter length]; [reflexivity|].
  destruct (p x); cbn [negb length]; lia.
Qed.

(** Pairwise independence is what [Normalized()] tests. *)
Lemma pairs_ForallOrdPairs {A : Type} (R : A -> A -> Prop) (d : A)
    (l : list A) :
  (forall i j, (i < j)%nat -> (j < length l)%nat ->
               R (nth i l d) (nth j l d)) ->
  ForallOrdPairs R l.
Proof.
  induction l as [|a l IH]; intros H; constructor.
  - apply Forall_forall. intros x Hx.
    destruct (In_nth l x d Hx) as (k & Hk & <-).
    apply (H O (S k)); cbn [length]; lia.
  - apply IH. intros i j Hij Hj.
    apply (H (S i) (S j)); cbn [length]; lia.
Qed.

Lemma Normalized_independent (c : Clause.t) :
  Normalized c = true <-> ForallOrdPairs independent c.
Proof.
  unfold Normalized. split.
  - intros H. apply (pairs_ForallOrdPairs independent null_literal).
    intros i j Hij Hj.
    rewrite forallb_forall in H.
    pose proof (H i ltac:(apply in_seq; lia)) as Hi.
    pose proof (H j ltac:(apply in_seq; lia)) as Hj'.
    rewrite forallb_forall in Hi, Hj'.
    pose proof (Hi j ltac:(apply in_seq; lia)) as Hij1.
    pose proof (Hj' i ltac:(apply in_seq; lia)) as Hij2.
    replace (i =? j)%nat with false in Hij1
      by (symmetry; apply Nat.eqb_neq; lia).
    replace (j =? i)%nat with false in Hij2
      by (symmetry; apply Nat.eqb_neq; lia).
    cbn [orb] in Hij1, Hij2.
    apply andb_true_iff in Hij1 as [V1 S1].
    apply andb_true_iff in Hij2 as [V2 S2].
    apply negb_true_iff in V1, S1, V2, S2.
    unfold independent, get in *. auto.
  - intros H. apply forallb_forall. intros i Hi.
    apply forallb_forall. intros j Hj.
    apply in_seq in Hi. apply in_seq in Hj.
    destruct (Nat.eqb_spec i j) as [|Hne]; [reflexivity|]. cbn [orb].
    pose proof (ForallOrdPairs_nth independent null_literal c H) as Hnth.
    unfold get.
    destruct (Nat.lt_ge_cases i j) as [Hlt|Hge].
    + destruct (Hnth i j Hlt ltac:(lia)) as (H1 & H2 & _ & _).
      rewrite H1, H2. reflexivity.
    + destruct (Hnth j i ltac:(lia) ltac:(lia)) as (_ & _ & H1 & H2).
      rewrite H1, H2. reflexivity.
Qed.

Lemma ForallOrdPairs_filter {A : Type} (R : A -> A -> Prop)
    (p : A -> bool) (l : list A) :
  ForallOrdPairs R l -> ForallOrdPairs R (filter p l).
Proof.
  induction 1 as [|a l Ha _ IH]; cbn [filter]; [constructor|].
  destruct (p a); [|exact IH]. constructor; [|exact IH].
  rewrite Forall_forall in *. intros x Hx. apply Ha.
  apply filter_In in Hx. tauto.
Qed.

(** X26.  [RemoveIf(p)] leaves exactly the literals that do not satisfy
    [p], in their order, and returns how many satisfied it; on a
    normalized clause its closing [assert(Normalized())] holds. *)
Theorem RemoveIf_filter (p : Lit -> bool) (c : Clause.t) :
  RemoveIf p c =
  (filter (fun a => negb (p a)) c, Z.of_nat (length (filter p c))) /\
  (Normalized c = true -> Normalized (fst (RemoveIf p c)) = true).
Proof.
  assert (E : RemoveIf p c =
    (filter (fun a => negb (p a)) c, Z.of_nat (length (filter p c)))).
  { unfold RemoveIf.
    destruct (RemoveIf_loop_filter p c [] [] c eq_refl) as [T HT].
    cbn [length Nat.add app] in HT. rewrite HT.
    rewrite firstn_app, Nat.sub_diag, firstn_all. cbn [firstn].
    rewrite app_nil_r. f_equal.
    pose proof (filter_length_negb p c). lia. }
  split; [exact E|]. rewrite E. cbn [fst]. intros H.
  apply Normalized_independent. apply ForallOrdPairs_filter.
  apply Normalized_independent. exact H.
Qed.

(** *** [Subsumes] *)

Lemma Subsumes_inner_spec (a : Lit) (c : list Lit) :
  Subsumes_inner a c = true <->
  exists b, In b c /\ Literal.Subsumes a b = true.
Proof.
  induction c as [|b c IH]; cbn [Subsumes_inner].
  - split; [discriminate | intros (b & [] & _)].
  - destruct (Literal.Subsumes a b) eqn:E.
    + split; [|reflexivity]. intros _. exists b. split; [left|]; auto.
    + rewrite IH. split.
      * intros (b' & Hb' & H). exists b'. split; [right|]; assumption.
      * intros (b' & [<-|Hb'] & H); [congruence|]. exists b'. auto.
Qed.

Lemma Clause_Subsumes_spec (c d : Clause.t) :
  Clause.Subsumes c d = true <->
  forall a, In a c -> exists b, In b d /\ Literal.Subsumes a b = true.
Proof.
  induction c as [|a c IH]; cbn [Clause.Subsumes].
  - split; [intros _ a [] | reflexivity].
  - destruct (Subsumes_inner a d) eqn:E.
    + rewrite IH. apply Subsumes_inner_spec in E. split.
      * intros H x [<-|Hx]; [exact E | exact (H x Hx)].
      * intros H x Hx. apply H. right. exact Hx.
    + split; [discriminate|]. intros H.
      rewrite <- E. apply Subsumes_inner_spec. apply H. left. reflexivity.
Qed.

(** X27.  [c.Subsumes(d)] holds exactly when every literal of [c]
    subsumes some literal of [d]; so the empty clause subsumes every
    clause, every clause subsumes itself, and subsumption is
    transitive. *)
Theorem Clause_Subsumes_preorder (c d e : Clause.t) :
  (Clause.Subsumes c d = true <->
   forall a, In a c -> exists b, In b d /\ Literal.Subsumes a b = true) /\
  Clause.Subsumes [] d = true /\
  Clause.Subsumes c c = true /\
  (Clause.Subsumes c d = true -> Clause.Subsumes d e = true ->
   Clause.Subsumes c e = true).
Proof.
  split; [apply Clause_Subsumes_spec|]. split; [reflexivity|]. split.
  - apply Clause_Subsumes_spec. intros a Ha. exists a.
    split; [exact Ha | apply LiteralExtra.Literal_Subsumes_refl].
  - rewrite !Clause_Subsumes_spec. intros H1 H2 a Ha.
    destruct (H1 a Ha) as (b & Hb & Hab).
    destruct (H2 b Hb) as (x & Hx & Hbx).
    exists x. split; [exact Hx|].
    exact (LiteralExtra.Literal_Subsumes_trans a b x Hab Hbx).
Qed.

(** *** Normalising twice *)

Lemma scan_independent (x : Lit) (K : list Lit) :
  (forall k, In k K -> independent k x) -> scan x K = Keep.
Proof.
  induction K as [|k K IH]; intros H; cbn [scan]; [reflexivity|].
  destruct (H k (or_introl eq_refl)) as (_ & _ & HV & HS).
  rewrite HV, HS. apply IH. intros k' Hk'. apply H. right. exact Hk'.
Qed.

Lemma norm_independent (R : list Lit) :
  forall P, ForallOrdPairs independent (P ++ R) -> norm P R = Some (P ++ R).
Proof.
  induction R as [|x R IH]; intros P H; cbn [norm].
  - rewrite app_nil_r. reflexivity.
  - pose proof (ForallOrdPairs_nth independent null_literal _ H) as Hnth.
    assert (Hx : forall m, nth (length P + m) (P ++ x :: R) null_literal
                           = nth m (x :: R) null_literal).
    { intros m. rewrite app_nth2 by lia. f_equal. lia. }
    rewrite scan_independent.
    + replace (existsb (ProperlySubsumes x) R) with false.
      * replace (P ++ x :: R) with ((P ++ [x]) ++ R)
          by (rewrite <- app_assoc; reflexivity).
        apply IH. rewrite <- app_assoc. exact H.
      * symmetry. apply not_true_iff_false. intros E.
        apply existsb_exists in E as (r & Hr & HP).
        destruct (In_nth R r null_literal Hr) as (m & Hm & Em).
        pose proof (Hnth (length P + 0)%nat (length P + S m)%nat
                      ltac:(lia)
                      ltac:(rewrite length_app; cbn [length]; lia)) as HI.
        rewrite !Hx in HI. cbn [nth] in HI. rewrite Em in HI.
        destruct HI as (_ & HS & _).
        unfold Literal.Subsumes in HS. rewrite HP, orb_true_r in HS.
        discriminate.
    + intros k Hk. destruct (In_nth P k null_literal Hk) as (i & Hi & Ei).
      pose proof (Hnth i (length P + 0)%nat ltac:(lia)
                    ltac:(rewrite length_app; cbn [length]; lia)) as HI.
      rewrite Hx in HI. cbn [nth] in HI.
      rewrite app_nth1 in HI by exact Hi. rewrite Ei in HI. exact HI.
Qed.

(** X28.  Normalising is idempotent: building a clause from the literals
    of a clause that [New] has built gives the same clause again. *)
Theorem New_idempotent (as_ : list Lit) :
  New (New as_ false) false = New as_ false.
Proof.
  rewrite (New_norm as_). destruct (norm [] as_) as [K'|] eqn:Hn.
  - rewrite New_norm.
    pose proof (norm_inv_final as_ as_ [] [] K' (norm_inv_init as_) Hn)
      as HI.
    rewrite (norm_independent K' [] (ni_indep _ _ _ _ HI)). reflexivity.
  - reflexivity.
Qed.

(** *** The memory pool *)

Lemma Capacitate_loop_eq (fuel : nat) (n capacity : Z) :
  Capacitate_loop fuel n capacity =
  if n >? capacity then
    match fuel with
    | O => None
    | S fuel' =>
      Capacitate_loop fuel' n
        (u32 (capacity +
              Z.land (u32 (u32 (capacity / 2 + capacity / 8) + 2))
                     (u32 (Z.lnot 1))))
    end
  else Some capacity.
Proof. destruct fuel; reflexivity. Qed.

(** Masking with [~1] clears the lowest bit. *)
Lemma land_clear_bit0 (x : Z) :
  0 <= x < 2 ^ 32 -> Z.land x (u32 (Z.lnot 1)) = 2 * (x / 2).
Proof.
  intros Hx. change (u32 (Z.lnot 1)) with (Z.shiftl (Z.ones 31) 1).
  apply Z.bits_inj'. intros n Hn. rewrite Z.land_spec.
  destruct (Z.eq_dec n 0) as [->|Hn0].
  - rewrite Z.shiftl_spec_low by lia. rewrite andb_false_r.
    rewrite Z.testbit_even_0. reflexivity.
  - rewrite Z.shiftl_spec by lia.
    replace n with (Z.succ (n - 1)) at 3 by lia.
    rewrite Z.testbit_even_succ by lia.
    replace (x / 2) with (Z.shiftr x 1)
      by (rewrite Z.shiftr_div_pow2 by lia; reflexivity).
    rewrite Z.shiftr_spec by lia.
    replace (n - 1 + 1) with n by lia.
    destruct (Z.ltb_spec n 32) as [Hlt|Hge].
    + rewrite Z.ones_spec_low by lia. apply andb_true_r.
    + rewrite Z.ones_spec_high by lia. rewrite andb_false_r.
      symmetry. destruct (Z.eq_dec x 0) as [->|Hx0]; [apply Z.bits_0|].
      apply Z.bits_above_log2; [lia|].
      apply Z.lt_le_trans with 32; [|exact Hge].
      apply Z.log2_lt_pow2; lia.
Qed.

Lemma Capacitate_step (c : Z) :
  0 <= c < 2 ^ 31 ->
  c + 2 <=
  u32 (c + Z.land (u32 (u32 (c / 2 + c / 8) + 2)) (u32 (Z.lnot 1)))
  < 2 ^ 32.
Proof.
  intros Hc. unfold u32 at 2 3.
  rewrite (Z.mod_small (c / 2 + c / 8))
    by (Z.div_mod_to_equations; lia).
  rewrite (Z.mod_small (c / 2 + c / 8 + 2))
    by (Z.div_mod_to_equations; lia).
  rewrite land_clear_bit0 by (Z.div_mod_to_equations; lia).
  unfold u32. rewrite Z.mod_small; Z.div_mod_to_equations; lia.
Qed.

Lemma Capacitate_loop_enough (fuel : nat) :
  forall n c,
    0 <= c < 2 ^ 32 -> n <= 2 ^ 31 -> n - c <= Z.of_nat fuel ->
    exists c',
      Capacitate_loop fuel n c = Some c' /\
      n <= c' /\ c <= c' < 2 ^ 32.
Proof.
  induction fuel as [|fuel IH]; intros n c Hc Hn Hfuel;
    rewrite Capacitate_loop_eq.
  - replace (n >? c) with false
      by (symmetry; apply not_true_iff_false; rewrite Z.gtb_gt; lia).
    exists c. repeat split; lia.
  - destruct (n >? c) eqn:E.
    + apply Z.gtb_gt in E.
      pose proof (Capacitate_step c ltac:(lia)) as Hs.
      remember (u32 (c + Z.land (u32 (u32 (c / 2 + c / 8) + 2))
                                (u32 (Z.lnot 1)))) as c1.
      destruct (IH n c1 ltac:(lia) Hn ltac:(lia)) as (c' & Hc' & H1 & H2).
      exists c'. split; [exact Hc'|]. lia.
    + exists c. apply not_true_iff_false in E. rewrite Z.gtb_gt in E.
      repeat split; lia.
Qed.

(** X29.  While the pool stays below [2^31] words, [Allocate(n)] returns
    the old high-water mark, raises the mark by [n] and leaves a capacity
    that covers it and never shrinks; [Free] of the block just allocated
    puts the mark back. *)
Theorem Allocate_then_Free (fuel : nat) (pool : MemoryPool) (n : Z) :
  0 <= capacity_ pool < 2 ^ 32 ->
  0 <= size_ pool -> 0 <= n ->
  size_ pool + n <= 2 ^ 31 ->
  size_ pool + n <= Z.of_nat fuel ->
  exists pool',
    Allocate fuel pool n = Some (size_ pool, pool') /\
    size_ pool' = size_ pool + n /\
    size_ pool' <= capacity_ pool' < 2 ^ 32 /\
    capacity_ pool <= capacity_ pool' /\
    Free pool' (size_ pool) n =
    {| capacity_ := capacity_ pool'; size_ := size_ pool |}.
Proof.
  intros Hc Hs Hn Hsum Hfuel. unfold Allocate, Capacitate.
  cbn [size_ capacity_].
  assert (Hu : u32 (size_ pool + n) = size_ pool + n)
    by (unfold u32; apply Z.mod_small; lia).
  rewrite Hu.
  destruct (size_ pool + n >? capacity_ pool) eqn:E.
  - destruct (Capacitate_loop_enough fuel (size_ pool + n) (capacity_ pool)
                Hc Hsum ltac:(lia)) as (c' & Hc' & H1 & H2).
    rewrite Hc'. cbn [obind]. eexists. split; [reflexivity|].
    cbn [size_ capacity_]. split; [reflexivity|]. split; [lia|].
    split; [lia|]. unfold Free. cbn [size_ capacity_].
    rewrite Hu, Z.eqb_refl. reflexivity.
  - apply not_true_iff_false in E. rewrite Z.gtb_gt in E.
    cbn [obind]. eexists. split; [reflexivity|].
    cbn [size_ capacity_]. split; [reflexivity|]. split; [lia|].
    split; [lia|]. unfold Free. cbn [size_ capacity_].
    rewrite Hu, Z.eqb_refl. reflexivity.
Qed.

(** Examples. *)
Definition clause_3 : Clause.t :=
  [LiteralFacts.lit_f_n1; LiteralFacts.pack false 2 5;
   LiteralFacts.pack true 2 5].

Lemma RemoveIf_filter_witness :
  Normalized [LiteralFacts.lit_f_n1] = true /\
  RemoveIf Literal.pos clause_3 = ([LiteralFacts.pack false 2 5], 2) /\
  Normalized (fst (RemoveIf Literal.pos [LiteralFacts.lit_f_n1])) = true.
Proof.
  split; [reflexivity|]. split.
  - exact (proj1 (RemoveIf_filter Literal.pos clause_3)).
  - exact (proj2 (RemoveIf_filter Literal.pos [LiteralFacts.lit_f_n1])
             eq_refl).
Defined.

Lemma Clause_Subsumes_preorder_witness :
  Clause.Subsumes [LiteralFacts.lit_f_n1] [LiteralFacts.pack false 2 5]
  = true /\
  Clause.Subsumes [LiteralFacts.pack false 2 5] clause_3 = true /\
  Clause.Subsumes [LiteralFacts.lit_f_n1] clause_3 = true.
Proof.
  split; [reflexivity|]. split; [reflexivity|].
  exact (proj2 (proj2 (proj2 (Clause_Subsumes_preorder
                                [LiteralFacts.lit_f_n1]
                                [LiteralFacts.pack false 2 5] clause_3)))
           eq_refl eq_refl).
Defined.

(** The pool as its constructor leaves it when asked for 1000 words. *)
Definition pool_1000 : MemoryPool := {| capacity_ := 1242; size_ := 1 |}.

Lemma Allocate_then_Free_witness :
  MemoryPool_init 100 1000 = Some pool_1000 /\
  0 <= capacity_ pool_1000 < 2 ^ 32 /\
  0 <= size_ pool_1000 /\ 0 <= 2000 /\
  size_ pool_1000 + 2000 <= 2 ^ 31 /\
  size_ pool_1000 + 2000 <= Z.of_nat 2001 /\
  exists pool',
    Allocate 2001 pool_1000 2000 = Some (size_ pool_1000, pool') /\
    size_ pool' = size_ pool_1000 + 2000 /\
    size_ pool' <= capacity_ pool' < 2 ^ 32 /\
    capacity_ pool_1000 <= capacity_ pool' /\
    Free pool' (size_ pool_1000) 2000 =
    {| capacity_ := capacity_ pool'; size_ := size_ pool_1000 |}.
Proof.
  assert (H1 : 0 <= capacity_ pool_1000 < 2 ^ 32) by (cbn; lia).
  assert (H2 : 0 <= size_ pool_1000) by (cbn; lia).
  assert (H3 : 0 <= 2000) by lia.
  assert (H4 : size_ pool_1000 + 2000 <= 2 ^ 31) by (cbn; lia).
  assert (H5 : size_ pool_1000 + 2000 <= Z.of_nat 2001) by (cbn; lia).
  split; [vm_compute; reflexivity|].
  split; [exact H1|]. split; [exact H2|]. split; [exact H3|].
  split; [exact H4|]. split; [exact H5|].
  exact (Allocate_then_Free 2001 pool_1000 2000 H1 H2 H3 H4 H5).
Defined.

End ClauseExtra.

(** ** formula.h: readers of built formulas *)

Module FormulaExtra.
Import Formula.

Section Readers.
Context {Cl Var : Type}.

(** The formulas that the four public constructors build. *)
Inductive built : Formula.t Cl Var -> Prop :=
| built_Clause c : built (Clause c)
| built_Not phi : built phi -> built (Not phi)
| built_Or phi psi : built phi -> built psi -> built (Or phi psi)
| built_Exists x phi : built phi -> built (Exists x phi).

Lemma Reader_scan_0 (l : list (Element Cl Var)) : Reader_scan l 0 = Some l.
Proof. destruct l; reflexivity. Qed.

(** Scanning over a built formula uses up one pending subformula. *)
Lemma Reader_scan_built (phi : Formula.t Cl Var) :
  built phi ->
  forall rest n, Reader_scan (phi ++ rest) (S n) = Reader_scan rest n.
Proof.
  induction 1 as [c|phi _ IH|phi psi _ IH1 _ IH2|x phi _ IH];
    intros rest n.
  - cbn. rewrite Nat.add_0_r. reflexivity.
  - unfold Not, Unary. cbn [app Reader_scan].
    rewrite Nat.add_1_r. apply IH.
  - unfold Or, Binary. cbn [app Reader_scan].
    replace (n + 2)%nat with (S (S n)) by lia.
    rewrite <- app_assoc, IH1. apply IH2.
  - unfold Exists, Unary. cbn [app Reader_scan].
    rewrite Nat.add_1_r. apply IH.
Qed.

Lemma Reader_make_built (phi : Formula.t Cl Var) (rest : list (Element Cl Var)) :
  built phi ->
  Reader_make (phi ++ rest) = Some {| begin_ := phi ++ rest; end_ := rest |}.
Proof.
  intros H. unfold Reader_make.
  rewrite (Reader_scan_built phi H), Reader_scan_0. reflexivity.
Qed.

Lemma Build_prefix (phi rest : list (Element Cl Var)) :
  Build {| begin_ := phi ++ rest; end_ := rest |} = phi.
Proof.
  unfold Build. cbn [begin_ end_]. rewrite length_app.
  replace (length phi + length rest - length rest)%nat with (length phi)
    by lia.
  rewrite firstn_app, Nat.sub_diag, firstn_all. cbn [firstn].
  apply app_nil_r.
Qed.

(** X30.  A reader takes apart what the constructors put together: the
    reader of a built formula spans the whole formula and builds it
    again; on a disjunction [left()] and [right()] build the two
    disjuncts, and on a negation or a quantification [arg()] builds the
    body. *)
Theorem Reader_round_trip (phi psi : Formula.t Cl Var) (x : Var) :
  built phi -> built psi ->
  (exists r, reader phi = Some r /\ end_ r = [] /\ Build r = phi) /\
  (exists r l rr,
      reader (Or phi psi) = Some r /\ head r = Some kOr /\
      left r = Some l /\ right r = Some rr /\
      Build l = phi /\ Build rr = psi) /\
  (exists r a,
      reader (Not phi) = Some r /\ head r = Some kNot /\
      arg r = Some a /\ Build a = phi) /\
  (exists r a,
      reader (Exists x phi) = Some r /\ head r = Some (kExists x) /\
      arg r = Some a /\ Build a = phi).
Proof.
  intros Hphi Hpsi.
  assert (Hmk : forall chi, built chi ->
            Reader_make chi = Some {| begin_ := chi; end_ := [] |}).
  { intros chi Hchi. pose proof (Reader_make_built chi [] Hchi) as H.
    rewrite app_nil_r in H. exact H. }
  assert (Hb : forall chi : Formula.t Cl Var,
            Build {| begin_ := chi; end_ := [] |} = chi).
  { intros chi. pose proof (Build_prefix chi []) as H.
    rewrite app_nil_r in H. exact H. }
  split; [|split; [|split]].
  - eexists. unfold reader. rewrite (Hmk phi Hphi).
    split; [reflexivity|]. split; [reflexivity|]. apply Hb.
  - unfold reader. rewrite (Hmk _ (built_Or phi psi Hphi Hpsi)).
    eexists. exists {| begin_ := phi ++ psi; end_ := psi |}.
    exists {| begin_ := psi; end_ := [] |}.
    split; [reflexivity|]. split; [reflexivity|].
    assert (Hl : left {| begin_ := Or phi psi; end_ := [] |} =
                 Some {| begin_ := phi ++ psi; end_ := psi |}).
    { unfold left, head, Or, Binary. cbn [begin_ hd_error obind next].
      apply Reader_make_built, Hphi. }
    split; [exact Hl|]. split.
    + unfold right. rewrite Hl.
      unfold head, Or, Binary. cbn [begin_ end_ hd_error obind].
      apply Hmk, Hpsi.
    + split; [apply Build_prefix | apply Hb].
  - unfold reader. rewrite (Hmk _ (built_Not phi Hphi)).
    eexists. exists {| begin_ := phi; end_ := [] |}.
    split; [reflexivity|]. split; [reflexivity|]. split.
    + unfold arg, head, Not, Unary. cbn [begin_ hd_error obind next].
      apply Hmk, Hphi.
    + apply Hb.
  - unfold reader. rewrite (Hmk _ (built_Exists x phi Hphi)).
    eexists. exists {| begin_ := phi; end_ := [] |}.
    split; [reflexivity|]. split; [reflexivity|]. split.
    + unfold arg, head, Exists, Unary. cbn [begin_ hd_error obind next].
      apply Hmk, Hphi.
    + apply Hb.
Qed.

End Readers.

Lemma Reader_round_trip_witness :
  built (Not (Clause (Cl := Z) (Var := Z) 7)) /\
  built (Clause (Cl := Z) (Var := Z) 8) /\
  exists r l rr,
    reader (Or (Not (Clause (Cl := Z) (Var := Z) 7)) (Clause 8)) = Some r /\
    head r = Some kOr /\
    left r = Some l /\ right r = Some rr /\
    Build l = [kNot; kClause 7] /\ Build rr = [kClause 8].
Proof.
  assert (H1 : built (Not (Clause (Cl := Z) (Var := Z) 7)))
    by (apply built_Not, built_Clause).
  assert (H2 : built (Clause (Cl := Z) (Var := Z) 8))
    by apply built_Clause.
  split; [exact H1|]. split; [exact H2|].
  exact (proj1 (proj2 (Reader_round_trip _ _ 0 H1 H2))).
Defined.

End FormulaExtra.
